(** * DESC: perturbation of equilibria (desc/perturbations.py) and the
      state bookkeeping of [Configuration] (desc/configuration.py): its
      state vector, copies, resolution, labels and construction from a
      dictionary of inputs.

    The development embeds the Python sources shallowly:
    - Python exceptions are values of [exn]; fallible code returns [result];
    - objects live in a store addressed by locations, so that the parent
      pointer and the children list of [Configuration.copy] alias as they do
      in Python;
    - user-visible output ([warnings.warn], [print]) and the calls made to
      collaborators the sources import but do not define (the objective's
      [compute], [jac_x], [jvp], [jvp2] and [trust_region_step_exact]) are
      recorded, in order, in an event trace;
    - numpy's float64 arithmetic is an interface ([Float64], [Linalg]) with
      no algebraic law assumed, so that what is proved holds for any
      deterministic arithmetic, floating point included. *)

From Stdlib Require Import ZArith QArith Qabs Lia Ascii.
From stdpp Require Import base list strings pretty.

Open Scope Z_scope.
Open Scope string_scope.
Open Scope list_scope.

(** ** Python results and exceptions *)

Module Py.

(** An exception: the name of its class and its message. *)
Record exn := Exn { exn_class : string; exn_msg : string }.

Inductive result (A : Type) : Type :=
| Ok (a : A)
| Raise (e : exn).
Global Arguments Ok {A} a.
Global Arguments Raise {A} e.

Definition AttributeError (msg : string) : exn := Exn "AttributeError" msg.
Definition TypeError (msg : string) : exn := Exn "TypeError" msg.
Definition ValueError (msg : string) : exn := Exn "ValueError" msg.
Definition IndexError (msg : string) : exn := Exn "IndexError" msg.
Definition ReferenceError (msg : string) : exn := Exn "ReferenceError" msg.

Definition is_ok {A} (r : result A) : bool :=
  match r with Ok _ => true | Raise _ => false end.

Definition rbind {A B} (r : result A) (k : A → result B) : result B :=
  match r with Ok a => k a | Raise e => Raise e end.

End Py.
Export Py.

(** ** numpy: float64 scalars, 1-d arrays, broadcasting, linear algebra *)

Module Np.

(** float64 arithmetic, as numpy provides it.  [of_Q] reads a decimal
    literal of the source ([0], [0.5], [0.01], [1e-6], [1]). *)
Class Float64 (F : Type) := {
  of_Q : Q → F;
  fadd : F → F → F;
  fmul : F → F → F;
  fdiv : F → F → F;
  fgtb : F → F → bool;   (* a > b *)
  feqb : F → F → bool    (* a == b *)
}.

(** [np.linalg] and the 2-d array operations the sources use; [mat] is
    the type of 2-d arrays. *)
Class Linalg (F mat : Type) := {
  norm : list F → F;                    (* np.linalg.norm of a 1-d array *)
  svd : mat → mat * list F * mat;       (* np.linalg.svd(J, full_matrices=False) *)
  shape : mat → nat * nat;              (* J.shape *)
  transpose : mat → mat;                (* J.T *)
  matmul : mat → mat → mat;             (* np.matmul *)
  scale_rows : list F → mat → mat       (* s[..., np.newaxis] * A *)
}.

Section Values.
Context {F : Type} `{Float64 F}.

(** A numeric argument as Python passes it: a float or a 1-d array
    (also a tuple or list of floats, which numpy converts). *)
Inductive value : Type :=
| Scal (x : F)
| Arr (l : list F).

Definition zeros (n : nat) : list F := replicate n (of_Q 0).

(** [np.all(v == 0)] *)
Definition all_zero (v : value) : bool :=
  match v with
  | Scal x => feqb x (of_Q 0)
  | Arr l => forallb (λ x, feqb x (of_Q 0)) l
  end.

(** Broadcasting of two 1-d arrays: equal lengths, or one of length 1;
    anything else is numpy's ValueError. *)
Definition broadcast (op : F → F → F) (a b : list F) : result (list F) :=
  if (length a =? length b)%nat then Ok (zip_with op a b)
  else match a, b with
       | [x], _ => Ok (map (op x) b)
       | _, [y] => Ok (map (λ x, op x y) a)
       | _, _ => Raise (ValueError "operands could not be broadcast together")
       end.

(** [a + b] on values. *)
Definition vadd (a b : value) : result value :=
  match a, b with
  | Scal x, Scal y => Ok (Scal (fadd x y))
  | Scal x, Arr l => Ok (Arr (map (fadd x) l))
  | Arr l, Scal y => Ok (Arr (map (λ x, fadd x y) l))
  | Arr l1, Arr l2 => rbind (broadcast fadd l1 l2) (λ l, Ok (Arr l))
  end.

(** [a + b] where [a] is an array: the result is an array. *)
Definition arr_add (a : list F) (b : value) : result (list F) :=
  match b with
  | Scal y => Ok (map (λ x, fadd x y) a)
  | Arr l => broadcast fadd a l
  end.

(** [a += b] on arrays: the sum is stored in [a], so [b] must broadcast
    to the shape of [a]. *)
Definition iadd (a b : list F) : result (list F) :=
  if (length a =? length b)%nat then Ok (zip_with fadd a b)
  else match b with
       | [y] => Ok (map (λ x, fadd x y) a)
       | _ => Raise (ValueError "non-broadcastable output operand")
       end.

(** [c * a] for a float [c] and an array [a]. *)
Definition scale (c : F) (a : list F) : list F := map (fmul c) a.

(** [v * c] for a value [v] and a float [c] (a numpy scalar): a float
    stays a float, a sequence becomes the array of the products. *)
Definition vscale (v : value) (c : F) : value :=
  match v with
  | Scal x => Scal (fmul x c)
  | Arr l => Arr (map (λ x, fmul x c) l)
  end.

End Values.
Global Arguments value F : clear implicits.

End Np.
Export Np.

(** ** The objects of DESC: bases, constraints, objectives, equilibria *)

Module Desc.

Section Objects.
Context {F mat : Type}.

(** Objects are addressed by their position in the store. *)
Definition loc : Type := nat.

(** A spectral basis (desc.basis): what the sources read from it is its
    array of modes (l, m, n) and their number. *)
Record Basis := { modes : list (Z * Z * Z) }.
Definition num_modes (b : Basis) : nat := length (modes b).

(** The boundary constraint of an objective: [project] and [recover]. *)
Record BoundaryConstraintT := {
  project : list F → list F;
  recover : list F → list F
}.

(** The six parameter blocks of an equilibrium, in the order of
    [arg_idx] (1..6). *)
Record Params := {
  _Rb_mn : value F;
  _Zb_mn : value F;
  _p_l : value F;
  _i_l : value F;
  _Psi : value F;
  _zeta_ratio : value F
}.

(** [args = (y, eq.Rb_mn, eq.Zb_mn, eq.p_l, eq.i_l, eq.Psi, eq.zeta_ratio)] *)
Definition args : Type := list F * Params.

(** First two arguments of [jvp2]: the integer [0] or a tuple of
    argument positions; and its directions: an array or a tuple of
    deltas. *)
Inductive argnum := ArgInt (i : nat) | ArgTuple (inds : list nat).
Inductive direction := DirArr (v : list F) | DirTuple (dc : list (value F)).

(** The interface of an objective function (desc.objective_funs is not
    among the sources; these are the attributes perturb uses). *)
Record ObjectiveFunction := {
  obj_str : string;                (* str(objective) *)
  scalar : bool;
  BC_constraint : BoundaryConstraintT;
  compute : args → list F;
  jac_x : args → mat;
  jvp : list nat → list (value F) → args → list F;
  jvp2 : argnum → argnum → direction → direction → args → list F
}.

Definition set_BC_constraint (bc : BoundaryConstraintT) (o : ObjectiveFunction) :=
  {| obj_str := obj_str o; scalar := scalar o; BC_constraint := bc;
     compute := compute o; jac_x := jac_x o; jvp := jvp o; jvp2 := jvp2 o |}.

(** Attributes of [Configuration] (desc/configuration.py), grouped:
    resolution and symmetry, bases, spectral coefficients, parameter
    blocks, lineage.  The label dictionaries of [_make_labels] are
    derived from the bases and are left out. *)
Record Resolution := {
  _sym : bool;
  _NFP : Z;
  _L : Z;
  _M : Z;
  _N : Z;
  _index : string;
  _bdry_mode : string;
  _R_sym : option string;
  _Z_sym : option string
}.

Record Bases := {
  _R_basis : Basis;
  _Z_basis : Basis;
  _L_basis : Basis;
  _Rb_basis : Basis;
  _Zb_basis : Basis;
  _p_basis : Basis;
  _i_basis : Basis
}.

Record Coeffs := {
  _x : list F;
  _R_lmn : list F;
  _Z_lmn : list F;
  _L_lmn : list F
}.

(** An equilibrium: a [Configuration] with an objective and the [built]
    flag.  [_children] is the location of a Python list of equilibria. *)
Record Equilibrium := {
  resolution : Resolution;
  bases : Bases;
  coeffs : Coeffs;
  params : Params;
  _parent : option loc;
  _children : loc;
  objective : option ObjectiveFunction;
  built : bool
}.

Definition set_resolution (r : Resolution) (e : Equilibrium) :=
  {| resolution := r; bases := bases e; coeffs := coeffs e; params := params e;
     _parent := _parent e; _children := _children e;
     objective := objective e; built := built e |}.
Definition set_bases (b : Bases) (e : Equilibrium) :=
  {| resolution := resolution e; bases := b; coeffs := coeffs e; params := params e;
     _parent := _parent e; _children := _children e;
     objective := objective e; built := built e |}.
Definition set_coeffs (c : Coeffs) (e : Equilibrium) :=
  {| resolution := resolution e; bases := bases e; coeffs := c; params := params e;
     _parent := _parent e; _children := _children e;
     objective := objective e; built := built e |}.
Definition set_params (p : Params) (e : Equilibrium) :=
  {| resolution := resolution e; bases := bases e; coeffs := coeffs e; params := p;
     _parent := _parent e; _children := _children e;
     objective := objective e; built := built e |}.
Definition set_parent (p : option loc) (e : Equilibrium) :=
  {| resolution := resolution e; bases := bases e; coeffs := coeffs e; params := params e;
     _parent := p; _children := _children e;
     objective := objective e; built := built e |}.
Definition set_children (c : loc) (e : Equilibrium) :=
  {| resolution := resolution e; bases := bases e; coeffs := coeffs e; params := params e;
     _parent := _parent e; _children := c;
     objective := objective e; built := built e |}.
Definition set_objective (o : option ObjectiveFunction) (e : Equilibrium) :=
  {| resolution := resolution e; bases := bases e; coeffs := coeffs e; params := params e;
     _parent := _parent e; _children := _children e;
     objective := o; built := built e |}.
Definition set_built (b : bool) (e : Equilibrium) :=
  {| resolution := resolution e; bases := bases e; coeffs := coeffs e; params := params e;
     _parent := _parent e; _children := _children e;
     objective := objective e; built := b |}.

(** The store: equilibria and Python lists of equilibria. *)
Record store := {
  objs : list Equilibrium;
  lsts : list (list loc)
}.

(** The arguments of one call of [trust_region_step_exact], by the
    names of its signature
    [(n, m, f, u, s, v, Delta, initial_alpha, rtol, max_iter, threshold)]. *)
Record tr_call := {
  tr_n : nat;
  tr_m : nat;
  tr_f : list F;
  tr_u : mat;
  tr_s : list F;
  tr_v : mat;
  tr_Delta : value F;
  tr_initial_alpha : option F;
  tr_rtol : F;
  tr_max_iter : nat;
  tr_threshold : F
}.

(** What a run shows and which collaborators it calls, in order. *)
Inductive event :=
| Warn (msg : string)                   (* warnings.warn *)
| Print (msg : string)                  (* print *)
| CallJacX (a : args)                   (* objective.jac_x *)
| CallCompute (a : args)                (* objective.compute *)
| CallJvp (inds : list nat) (dc : list (value F)) (a : args)
| CallJvp2 (i1 i2 : argnum) (d1 d2 : direction) (a : args)
| CallSolve (c : tr_call).              (* trust_region_step_exact(...) *)

(** A computation: it reads and updates the store, appends to the
    trace, and returns or raises. *)
Definition M (A : Type) : Type := store → result A * store * list event.

Definition ret {A} (a : A) : M A := λ st, (Ok a, st, []).
Definition raise {A} (e : exn) : M A := λ st, (Raise e, st, []).
Definition bind {A B} (m : M A) (k : A → M B) : M B :=
  λ st,
    match m st with
    | (Ok a, st1, ev1) =>
        match k a st1 with
        | (r, st2, ev2) => (r, st2, ev1 ++ ev2)
        end
    | (Raise e, st1, ev1) => (Raise e, st1, ev1)
    end.

Definition lift {A} (r : result A) : M A := λ st, (r, st, []).
Definition emit (ev : event) : M unit := λ st, (Ok tt, st, [ev]).

Definition get_obj (l : loc) : M Equilibrium :=
  λ st,
    match objs st !! l with
    | Some e => (Ok e, st, [])
    | None => (Raise (ReferenceError "no such object"), st, [])
    end.

Definition set_obj (l : loc) (e : Equilibrium) : M unit :=
  λ st, (Ok tt, {| objs := <[l := e]> (objs st); lsts := lsts st |}, []).

Definition get_list (l : loc) : M (list loc) :=
  λ st,
    match lsts st !! l with
    | Some c => (Ok c, st, [])
    | None => (Raise (ReferenceError "no such list"), st, [])
    end.

Definition set_list (l : loc) (c : list loc) : M unit :=
  λ st, (Ok tt, {| objs := objs st; lsts := <[l := c]> (lsts st) |}, []).

(** [when b m]: [if b: m] *)
Definition when (b : bool) (m : M unit) : M unit := if b then m else ret tt.

End Objects.

Global Arguments Basis : clear implicits.
Global Arguments BoundaryConstraintT F : clear implicits.
Global Arguments Params F : clear implicits.
Global Arguments args F : clear implicits.
Global Arguments direction F : clear implicits.
Global Arguments ObjectiveFunction F mat : clear implicits.
Global Arguments Coeffs F : clear implicits.
Global Arguments Equilibrium F mat : clear implicits.
Global Arguments store F mat : clear implicits.
Global Arguments tr_call F mat : clear implicits.
Global Arguments event F mat : clear implicits.
Global Arguments M F mat A : clear implicits.

Notation "x <- m ;; k" := (bind m (λ x, k))
  (at level 100, m at next level, right associativity,
   format "'[v' x  <-  m  ;;  '/' k ']'").
Notation "m ;;; k" := (bind m (λ _, k))
  (at level 100, right associativity,
   format "'[v' m  ;;;  '/' k ']'").

End Desc.
Export Desc.

(** ** desc/configuration.py *)

Module Configuration.

(** Functions of DESC that the sources call but do not define. *)
Class Collaborators (F mat : Type) := {
  (* FourierZernikeBasis(L, M, N, NFP, sym, index) *)
  FourierZernikeBasis : Z → Z → Z → Z → option string → string → Basis;
  (* desc.utils.copy_coeffs(c_old, modes_old, modes_new) *)
  copy_coeffs : list F → list (Z * Z * Z) → list (Z * Z * Z) → list F;
  (* BoundaryConstraint(R_basis, Z_basis, L_basis, Rb_basis, Zb_basis, Rb_mn, Zb_mn) *)
  BoundaryConstraint :
    Basis → Basis → Basis → Basis → Basis → value F → value F → BoundaryConstraintT F;
  (* desc.optimize.tr_subproblems.trust_region_step_exact *)
  trust_region_step_exact : tr_call F mat → result (list F * bool * F)
}.

Section Methods.
Context {F mat : Type} `{Collaborators F mat}.

Local Abbreviation M := (Desc.M F mat).
Local Abbreviation Equilibrium := (Desc.Equilibrium F mat).
Local Abbreviation store := (Desc.store F mat).

(** Modelled from the spec: desc.utils.unpack_state is not among the
    sources.  The state vector is the blocks [R_lmn, Z_lmn, L_lmn] in
    that order, so unpacking at (nR, nZ) returns the slices
    x[:nR], x[nR:nR+nZ] and x[nR+nZ:]. *)
Definition unpack_state (x : list F) (nR nZ : nat) : list F * list F * list F :=
  (take nR x, take nZ (drop nR x), drop (nR + nZ) x).

(** [np.concatenate([R_lmn, Z_lmn, L_lmn])] *)
Definition concatenate (R_lmn Z_lmn L_lmn : list F) : list F :=
  R_lmn ++ Z_lmn ++ L_lmn.

(** The end of [_init_from_inputs_]: the state vector is taken from
    [inputs["x"]] and unpacked, or else the blocks are taken from the
    inputs, with [initial_guess] (here [guess_R], [guess_Z]) and zeros
    as defaults, and concatenated. *)
Definition init_coeffs (b : Bases) (x R_lmn Z_lmn L_lmn : option (list F))
    (guess_R guess_Z zeros_L : list F) : Coeffs F :=
  match x with
  | Some x =>
      match unpack_state x (num_modes (_R_basis b)) (num_modes (_Z_basis b)) with
      | (R, Z, L) => {| _x := x; _R_lmn := R; _Z_lmn := Z; _L_lmn := L |}
      end
  | None =>
      let R := default guess_R R_lmn in
      let Z := default guess_Z Z_lmn in
      let L := default zeros_L L_lmn in
      {| _x := concatenate R Z L; _R_lmn := R; _Z_lmn := Z; _L_lmn := L |}
  end.

(** The setters of [x], [R_lmn], [Z_lmn] and [L_lmn], on the record. *)
Definition with_x (x : list F) (e : Equilibrium) : Equilibrium :=
  match unpack_state x (num_modes (_R_basis (bases e)))
                       (num_modes (_Z_basis (bases e))) with
  | (R, Z, L) =>
      set_coeffs {| _x := x; _R_lmn := R; _Z_lmn := Z; _L_lmn := L |} e
  end.

Definition with_R_lmn (R_lmn : list F) (e : Equilibrium) : Equilibrium :=
  let c := coeffs e in
  set_coeffs {| _x := concatenate R_lmn (_Z_lmn c) (_L_lmn c);
                _R_lmn := R_lmn; _Z_lmn := _Z_lmn c; _L_lmn := _L_lmn c |} e.

Definition with_Z_lmn (Z_lmn : list F) (e : Equilibrium) : Equilibrium :=
  let c := coeffs e in
  set_coeffs {| _x := concatenate (_R_lmn c) Z_lmn (_L_lmn c);
                _R_lmn := _R_lmn c; _Z_lmn := Z_lmn; _L_lmn := _L_lmn c |} e.

Definition with_L_lmn (L_lmn : list F) (e : Equilibrium) : Equilibrium :=
  let c := coeffs e in
  set_coeffs {| _x := concatenate (_R_lmn c) (_Z_lmn c) L_lmn;
                _R_lmn := _R_lmn c; _Z_lmn := _Z_lmn c; _L_lmn := L_lmn |} e.

(** The same setters as methods of the object at [self]. *)
Definition update (self : loc) (f : Equilibrium → Equilibrium) : M unit :=
  e <- get_obj self ;; set_obj self (f e).

Definition x_setter (self : loc) (x : list F) : M unit := update self (with_x x).
Definition R_lmn_setter (self : loc) (v : list F) : M unit := update self (with_R_lmn v).
Definition Z_lmn_setter (self : loc) (v : list F) : M unit := update self (with_Z_lmn v).
Definition L_lmn_setter (self : loc) (v : list F) : M unit := update self (with_L_lmn v).

(** [change_resolution(L, M, N)] on the record. *)
Definition changed (new : option Z) (old : Z) : bool :=
  match new with Some v => negb (Z.eqb v old) | None => false end.

Definition change_resolution_rec (L M N : option Z) (e : Equilibrium) : Equilibrium :=
  let r := resolution e in
  let L_change := changed L (_L r) in
  let M_change := changed M (_M r) in
  let N_change := changed N (_N r) in
  let r' := {| _sym := _sym r; _NFP := _NFP r;
               _L := if L_change then default (_L r) L else _L r;
               _M := if M_change then default (_M r) M else _M r;
               _N := if N_change then default (_N r) N else _N r;
               _index := _index r; _bdry_mode := _bdry_mode r;
               _R_sym := _R_sym r; _Z_sym := _Z_sym r |} in
  if negb (L_change || M_change || N_change) then e
  else
    let b := bases e in
    let old_modes_R := modes (_R_basis b) in
    let old_modes_Z := modes (_Z_basis b) in
    let old_modes_L := modes (_L_basis b) in
    let R_basis := FourierZernikeBasis (_L r') (_M r') (_N r') (_NFP r') (_R_sym r') (_index r') in
    let Z_basis := FourierZernikeBasis (_L r') (_M r') (_N r') (_NFP r') (_Z_sym r') (_index r') in
    let L_basis := FourierZernikeBasis (_L r') (_M r') (_N r') (_NFP r') (_Z_sym r') (_index r') in
    let c := coeffs e in
    let R_lmn := copy_coeffs (_R_lmn c) old_modes_R (modes R_basis) in
    let Z_lmn := copy_coeffs (_Z_lmn c) old_modes_Z (modes Z_basis) in
    let L_lmn := copy_coeffs (_L_lmn c) old_modes_L (modes L_basis) in
    set_coeffs {| _x := concatenate R_lmn Z_lmn L_lmn;
                  _R_lmn := R_lmn; _Z_lmn := Z_lmn; _L_lmn := L_lmn |}
      (set_bases {| _R_basis := R_basis; _Z_basis := Z_basis; _L_basis := L_basis;
                    _Rb_basis := _Rb_basis b; _Zb_basis := _Zb_basis b;
                    _p_basis := _p_basis b; _i_basis := _i_basis b |}
         (set_resolution r' e)).

Definition change_resolution (self : loc) (L M N : option Z) : Desc.M F mat unit :=
  update self (change_resolution_rec L M N).

(** *** [copy.deepcopy] and [copy.copy] of an equilibrium *)

(** The objects an equilibrium refers to: its parent and its children. *)
Definition succs (st : store) (l : loc) : list loc :=
  match objs st !! l with
  | Some e =>
      filter (λ l', l' < length (objs st))%nat
        (option_list (_parent e) ++ default [] (lsts st !! _children e))
  | None => []
  end.

Definition expand (st : store) (seen : list loc) : list loc :=
  seen ++ remove_dups (list_difference (flat_map (succs st) seen) seen).

(** Everything reachable from [root], [root] first: a path without
    repetition has fewer steps than there are objects. *)
Definition reachable (st : store) (root : loc) : list loc :=
  Nat.iter (length (objs st)) (expand st) [root].

Definition reachable_lists (st : store) (ro : list loc) : list loc :=
  remove_dups
    (filter (λ l, l < length (lsts st))%nat
       (omap (λ l, _children <$> objs st !! l) ro)).

(** The copy of the [i]-th reachable object is allocated at [base + i];
    references to it are renamed accordingly (deepcopy's memo). *)
Definition rename (reach : list loc) (base : nat) (l : loc) : loc :=
  match list_find (λ l', l' = l) reach with
  | Some (i, _) => (base + i)%nat
  | None => l
  end.

Definition deepcopy (st : store) (root : loc) : store * loc :=
  let ro := reachable st root in
  let rl := reachable_lists st ro in
  let ren_o := rename ro (length (objs st)) in
  let ren_l := rename rl (length (lsts st)) in
  let clone (e : Equilibrium) :=
    set_children (ren_l (_children e)) (set_parent (ren_o <$> _parent e) e) in
  ({| objs := objs st ++ omap (λ l, clone <$> objs st !! l) ro;
      lsts := lsts st ++ omap (λ l, map ren_o <$> lsts st !! l) rl |},
   length (objs st)).

(** [copy.copy(self)]: a new object with the same attribute values; its
    children list is the very list of [self]. *)
Definition shallowcopy (st : store) (e : Equilibrium) : store * loc :=
  ({| objs := objs st ++ [e]; lsts := lsts st |}, length (objs st)).

(** [Configuration.copy(self, deepcopy=True)] *)
Definition copy (self : loc) (deep : bool) : M loc :=
  e <- get_obj self ;;
  new <- (λ st, let '(st', l) := if deep then deepcopy st self
                                else shallowcopy st e in
                (Ok l, st', [])) ;;
  update new (set_parent (Some self)) ;;;
  e' <- get_obj self ;;
  c <- get_list (_children e') ;;
  set_list (_children e') (c ++ [new]) ;;;
  ret new.

End Methods.

End Configuration.
Export Configuration.

(** ** desc/perturbations.py *)

Module Perturbations.

Section Perturb.
Context {F mat : Type} `{Float64 F} `{Linalg F mat} `{Collaborators F mat}.

(** [desc.backend.use_jax] *)
Variable use_jax : bool.

Local Abbreviation M := (Desc.M F mat).
Local Abbreviation ObjectiveFunction := (Desc.ObjectiveFunction F mat).

Definition jax_warning : string :=
  "Computing perturbations with finite differences can be highly innacurate. Consider using JAX for exact derivatives".

(** Modelled from the spec: Equilibrium.build (class Equilibrium is not
    among the sources) ensures the equilibrium is built; of the
    attributes modelled here it sets the [built] flag. *)
Definition build (eq : loc) (verbose : Z) : M unit :=
  update eq (set_built true).

(** The dictionary [deltas], in insertion order. *)
Definition add_delta (key : string) (d : option (value F))
    (deltas : list (string * value F)) : list (string * value F) :=
  match d with
  | Some v => if negb (all_zero v) then deltas ++ [(key, v)] else deltas
  | None => deltas
  end.

Definition collect_deltas (dRb dZb dp di dPsi dzeta_ratio : option (value F))
    : list (string * value F) :=
  add_delta "zeta_ratio" dzeta_ratio
    (add_delta "Psi" dPsi
       (add_delta "i_l" di
          (add_delta "p_l" dp
             (add_delta "Zb_mn" dZb
                (add_delta "Rb_mn" dRb []))))).

Definition arg_idx : list (string * nat) :=
  [("Rb_mn", 1); ("Zb_mn", 2); ("p_l", 3); ("i_l", 4); ("Psi", 5);
   ("zeta_ratio", 6)]%nat.

(** [arg_idx[key]] *)
Definition arg_idx_get (key : string) : result nat :=
  match list_find (λ kv, fst kv = key) arg_idx with
  | Some (_, (_, i)) => Ok i
  | None => Raise (Exn "KeyError" key)
  end.

Fixpoint mapM_result {A B} (f : A → result B) (l : list A) : result (list B) :=
  match l with
  | [] => Ok []
  | a :: l' => rbind (f a) (λ b, rbind (mapM_result f l') (λ bs, Ok (b :: bs)))
  end.

(** [tuple([arg_idx[key] for key in deltas])] *)
Definition inds_of (deltas : list (string * value F)) : result (list nat) :=
  mapM_result arg_idx_get (map fst deltas).

(** [getattr(eq, key)] and [setattr(eq, key, v)] for the parameter
    blocks. *)
Definition getattr (p : Params F) (key : string) : result (value F) :=
  if String.eqb key "Rb_mn" then Ok (_Rb_mn p)
  else if String.eqb key "Zb_mn" then Ok (_Zb_mn p)
  else if String.eqb key "p_l" then Ok (_p_l p)
  else if String.eqb key "i_l" then Ok (_i_l p)
  else if String.eqb key "Psi" then Ok (_Psi p)
  else if String.eqb key "zeta_ratio" then Ok (_zeta_ratio p)
  else Raise (AttributeError key).

Definition setattr (p : Params F) (key : string) (v : value F) : result (Params F) :=
  if String.eqb key "Rb_mn" then
    Ok {| _Rb_mn := v; _Zb_mn := _Zb_mn p; _p_l := _p_l p; _i_l := _i_l p;
          _Psi := _Psi p; _zeta_ratio := _zeta_ratio p |}
  else if String.eqb key "Zb_mn" then
    Ok {| _Rb_mn := _Rb_mn p; _Zb_mn := v; _p_l := _p_l p; _i_l := _i_l p;
          _Psi := _Psi p; _zeta_ratio := _zeta_ratio p |}
  else if String.eqb key "p_l" then
    Ok {| _Rb_mn := _Rb_mn p; _Zb_mn := _Zb_mn p; _p_l := v; _i_l := _i_l p;
          _Psi := _Psi p; _zeta_ratio := _zeta_ratio p |}
  else if String.eqb key "i_l" then
    Ok {| _Rb_mn := _Rb_mn p; _Zb_mn := _Zb_mn p; _p_l := _p_l p; _i_l := v;
          _Psi := _Psi p; _zeta_ratio := _zeta_ratio p |}
  else if String.eqb key "Psi" then
    Ok {| _Rb_mn := _Rb_mn p; _Zb_mn := _Zb_mn p; _p_l := _p_l p; _i_l := _i_l p;
          _Psi := v; _zeta_ratio := _zeta_ratio p |}
  else if String.eqb key "zeta_ratio" then
    Ok {| _Rb_mn := _Rb_mn p; _Zb_mn := _Zb_mn p; _p_l := _p_l p; _i_l := _i_l p;
          _Psi := _Psi p; _zeta_ratio := v |}
  else Raise (AttributeError key).

(** [tr_ratio1, tr_ratio2 = tr_ratio], with the TypeError of a float
    caught: a float gives itself twice, a sequence of two its elements,
    any other sequence raises ValueError. *)
Definition unpack_tr_ratio (tr_ratio : value F) : result (F * F) :=
  match tr_ratio with
  | Scal r => Ok (r, r)
  | Arr [r1; r2] => Ok (r1, r2)
  | Arr _ => Raise (ValueError "wrong number of values to unpack (expected 2)")
  end.

(** [s[0]] *)
Definition first (s : list F) : result F :=
  match s with
  | s0 :: _ => Ok s0
  | [] => Raise (IndexError "index 0 is out of bounds for axis 0 with size 0")
  end.

(** What the first-order block leaves for the rest of the function. *)
Record first_order_t := {
  fo_n : nat;
  fo_m : nat;
  fo_u : mat;
  fo_s : list F;
  fo_vt : mat;
  fo_dx1 : list F
}.

(** The block [# 1st order] (lines 109-154).  The timers are not
    modelled. *)
Definition first_order (obj : ObjectiveFunction) (a : args F) (y : list F)
    (deltas : list (string * value F)) (tr_ratio : value F) (cutoff : F)
    (Jx : option mat) (verbose : Z) : M first_order_t :=
  Jx <- match Jx with
        | None =>
            when (0 <? verbose)%Z (emit (Print "Computing df/dx")) ;;;
            emit (CallJacX a) ;;;
            ret (jac_x obj a)
        | Some J => ret J
        end ;;
  let '(u, s, vt) := svd Jx in
  let '(m, n) := shape Jx in
  s0 <- lift (first s) ;;
  let cutoff := fmul cutoff s0 in
  let large := map (λ si, fgtb si cutoff) s in
  let s_inv := map (λ si, if fgtb si cutoff then fdiv (of_Q 1) si else of_Q 0) s in
  let Jxi := matmul (transpose vt) (scale_rows s_inv (transpose u)) in
  emit (CallCompute a) ;;;
  let RHS := compute obj a in
  let keys := String.concat ", " (map fst deltas) in
  inds <- lift (inds_of deltas) ;;
  let dc := map snd deltas in
  when (0 <? verbose)%Z (emit (Print ("Perturbing " +:+ keys))) ;;;
  emit (CallJvp inds dc a) ;;;
  let temp := jvp obj inds dc a in
  RHS <- lift (iadd RHS temp) ;;
  let c := {| tr_n := n; tr_m := m; tr_f := RHS; tr_u := u; tr_s := s;
              tr_v := transpose vt;
              tr_Delta := vscale tr_ratio (norm y);
              tr_initial_alpha := None; tr_rtol := of_Q 0.01;
              tr_max_iter := 10; tr_threshold := of_Q 1e-6 |} in
  emit (CallSolve c) ;;;
  r <- lift (trust_region_step_exact c) ;;
  let '(dx1, hit, alpha) := r in
  ret {| fo_n := n; fo_m := m; fo_u := u; fo_s := s; fo_vt := vt; fo_dx1 := dx1 |}.

(** The block [# 2nd order] (lines 157-205); it runs after the
    first-order block, whose [n], [m], [u], [s], [vt] and [dx1] it
    reads. *)
Definition second_order (obj : ObjectiveFunction) (a : args F)
    (deltas : list (string * value F)) (tr_ratio : value F) (verbose : Z)
    (fo : first_order_t) : M (list F) :=
  let dx1 := fo_dx1 fo in
  when (0 <? verbose)%Z (emit (Print "Computing d^2f/dx^2")) ;;;
  emit (CallJvp2 (ArgInt 0) (ArgInt 0) (DirArr dx1) (DirArr dx1) a) ;;;
  let temp := scale (of_Q 0.5) (jvp2 obj (ArgInt 0) (ArgInt 0) (DirArr dx1) (DirArr dx1) a) in
  let RHS := temp in
  inds <- lift (inds_of deltas) ;;
  let dc := map snd deltas in
  emit (CallJvp2 (ArgTuple inds) (ArgTuple inds) (DirTuple dc) (DirTuple dc) a) ;;;
  let temp := scale (of_Q 0.5)
                (jvp2 obj (ArgTuple inds) (ArgTuple inds) (DirTuple dc) (DirTuple dc) a) in
  RHS <- lift (iadd RHS temp) ;;
  emit (CallJvp2 (ArgInt 0) (ArgTuple inds) (DirArr dx1) (DirTuple dc) a) ;;;
  let temp := jvp2 obj (ArgInt 0) (ArgTuple inds) (DirArr dx1) (DirTuple dc) a in
  RHS <- lift (iadd RHS temp) ;;
  let c := {| tr_n := fo_n fo; tr_m := fo_m fo; tr_f := RHS; tr_u := fo_u fo;
              tr_s := fo_s fo; tr_v := transpose (fo_vt fo);
              tr_Delta := vscale tr_ratio (norm dx1);
              tr_initial_alpha := None; tr_rtol := of_Q 0.01;
              tr_max_iter := 10; tr_threshold := of_Q 1e-6 |} in
  emit (CallSolve c) ;;;
  r <- lift (trust_region_step_exact c) ;;
  let '(dx2, hit, alpha) := r in
  ret dx2.

(** [for key, dc in deltas.items(): setattr(eq_new, key, getattr(eq_new, key) + dc)] *)
Fixpoint update_parameters (eq_new : loc) (deltas : list (string * value F)) : M unit :=
  match deltas with
  | [] => ret tt
  | (key, dc) :: rest =>
      e <- get_obj eq_new ;;
      old <- lift (getattr (params e) key) ;;
      new <- lift (vadd old dc) ;;
      p <- lift (setattr (params e) key new) ;;
      set_obj eq_new (set_params p e) ;;;
      update_parameters eq_new rest
  end.

(** [key in deltas] *)
Definition has_key (key : string) (deltas : list (string * value F)) : bool :=
  existsb (λ kv, String.eqb (fst kv) key) deltas.

(** [eq_new.objective], which raises on [None.BC_constraint]. *)
Definition objective_of (l : loc) : M ObjectiveFunction :=
  e <- get_obj l ;;
  match objective e with
  | Some o => ret o
  | None => raise (AttributeError "'NoneType' object has no attribute 'BC_constraint'")
  end.

(** [# update boundary constraint] (lines 217-226) *)
Definition update_boundary_constraint (eq_new : loc) : M unit :=
  o <- objective_of eq_new ;;
  e <- get_obj eq_new ;;
  let b := bases e in
  let bc := BoundaryConstraint (_R_basis b) (_Z_basis b) (_L_basis b)
              (_Rb_basis b) (_Zb_basis b)
              (_Rb_mn (params e)) (_Zb_mn (params e)) in
  set_obj eq_new (set_objective (Some (set_BC_constraint bc o)) e).

(** Lines 207-237: copy, update the parameters and the boundary
    constraint, and set the new state.  [step] is [Some (dx1, dx2)] when
    [order > 0]. *)
Definition apply_perturbation (eq : loc) (y : list F)
    (deltas : list (string * value F)) (step : option (list F * value F))
    (copy : bool) : M loc :=
  eq_new <- (if copy then Configuration.copy eq true else ret eq) ;;
  update_parameters eq_new deltas ;;;
  when (has_key "Rb_mn" deltas || has_key "Zb_mn" deltas)
    (update_boundary_constraint eq_new) ;;;
  match step with
  | Some (dx1, dx2) =>
      dy <- lift (arr_add dx1 dx2) ;;
      y' <- lift (broadcast fadd y dy) ;;
      o <- objective_of eq_new ;;
      x_setter eq_new (recover (BC_constraint o) y')
  | None => ret tt
  end ;;;
  ret eq_new.

(** Lines 108-205: the two orders.  The result is [(dx1, dx2)] when
    [order > 0], and nothing otherwise.  The second-order block is
    nested in the first-order one: [order > 1] implies [order > 0], and
    it reads the variables the first-order block has set.  [dx2] stays
    the integer [0] at first order. *)
Definition perturb_step (obj : ObjectiveFunction) (a : args F)
    (y : list F) (deltas : list (string * value F)) (order : Z)
    (tr_ratio : value F) (cutoff : F) (Jx : option mat) (verbose : Z)
    : M (option (list F * value F)) :=
  if (0 <? order)%Z then
    fo <- first_order obj a y deltas tr_ratio cutoff Jx verbose ;;
    dx2 <- (if (1 <? order)%Z
            then dx2 <- second_order obj a deltas tr_ratio verbose fo ;;
                 ret (Arr dx2)
            else ret (Scal (of_Q 0))) ;;
    ret (Some (fo_dx1 fo, dx2))
  else
    ret None.

(** [perturb(eq, dRb, dZb, dp, di, dPsi, dzeta_ratio, order, tr_ratio,
    cutoff, Jx, verbose, copy)] *)
Definition perturb (eq : loc) (dRb dZb dp di dPsi dzeta_ratio : option (value F))
    (order : Z) (tr_ratio : value F) (cutoff : F) (Jx : option mat)
    (verbose : Z) (copy : bool) : M loc :=
  when (negb use_jax) (emit (Warn jax_warning)) ;;;
  e <- get_obj eq ;;
  match objective e with
  | None =>
      raise (AttributeError "Equilibrium must have objective defined before perturbing")
  | Some obj =>
      if scalar obj then
        raise (AttributeError ("Cannot perturb with a scalar objective " +:+ obj_str obj))
      else
        let deltas := collect_deltas dRb dZb dp di dPsi dzeta_ratio in
        when (negb (built e)) (build eq verbose) ;;;
        let y := project (BC_constraint obj) (_x (coeffs e)) in
        let a : args F := (y, params e) in
        tr <- lift (unpack_tr_ratio tr_ratio) ;;
        let '(tr_ratio1, tr_ratio2) := tr in
        step <- perturb_step obj a y deltas order tr_ratio cutoff Jx verbose ;;
        apply_perturbation eq y deltas step copy
  end.

End Perturb.

End Perturbations.
Export Perturbations.

(** ** A concrete instance: exact rational arithmetic, one unknown

    Floats are rationals with exact arithmetic and 2-d arrays are 1 x 1
    (a single rational).  The instance serves to run the definitions on
    explicit inputs. *)

Module OneDim.

Definition Qgtb (a b : Q) : bool := negb (Qle_bool a b).

Global Instance Q_Float64 : Float64 Q := {|
  of_Q := λ q, q;
  fadd := Qplus;
  fmul := Qmult;
  fdiv := Qdiv;
  fgtb := Qgtb;
  feqb := Qeq_bool
|}.

Definition Qsign (a : Q) : Q := if Qle_bool 0 a then 1%Q else (-1)%Q.

(** The 2-norm of an array of at most one entry is its absolute value;
    on longer arrays this instance takes the sum of the absolute values. *)
Definition norm1 (l : list Q) : Q := foldr (λ x acc, Qabs x + acc)%Q 0%Q l.

(** [[j]] = [[sign j]] * diag(|j|) * [[1]] *)
Global Instance Q_Linalg : Linalg Q Q := {|
  norm := norm1;
  svd := λ j, (Qsign j, [Qabs j], 1%Q);
  shape := λ _, (1, 1)%nat;
  transpose := λ j, j;
  matmul := Qmult;
  scale_rows := λ s j, match s with [c] => (c * j)%Q | _ => j end
|}.

(** A trust-region step for one unknown: the least-squares solution
    [v * (u * f) / s] when it lies within the radius, and else the point
    of the boundary on its side.  A radius that is an array is refused. *)
Definition step_1d (c : tr_call Q Q) : result (list Q * bool * Q) :=
  match tr_Delta c, tr_f c, tr_s c with
  | Scal Delta, [f], [s] =>
      let uf := (tr_u c * f)%Q in
      let dx0 := (tr_v c * (uf / s))%Q in
      if Qle_bool (Qabs dx0) Delta then Ok ([dx0], false, 0%Q)
      else Ok ([(Qsign dx0 * Delta)%Q], true, (s * Qabs uf / Delta - s * s)%Q)
  | Arr _, _, _ =>
      Raise (ValueError "The truth value of an array with more than one element is ambiguous")
  | _, _, _ => Raise (ValueError "shapes not aligned")
  end.

(** The constraint that fixes the Z and lambda coefficients to zero: the
    reduced coordinate is the R coefficient. *)
Definition axis_constraint : BoundaryConstraintT Q :=
  {| project := λ x, take 1 x; recover := λ y, take 1 y ++ [0%Q; 0%Q] |}.

(** [copy_coeffs] for bases whose modes are nested: truncate or pad with
    zeros. *)
Definition resize (c : list Q) (n : nat) : list Q :=
  take n c ++ replicate (n - length c) 0%Q.

Global Instance Q_Collaborators : Collaborators Q Q := {|
  FourierZernikeBasis := λ L M N NFP sym index,
    {| modes := map (λ l, (Z.of_nat l, 0, 0)) (seq 0 (Z.to_nat L + 1)) |};
  copy_coeffs := λ c old new, resize c (length new);
  BoundaryConstraint := λ _ _ _ _ _ _ _, axis_constraint;
  trust_region_step_exact := step_1d
|}.

Definition scalar_of (v : value Q) : Q :=
  match v with Scal x => x | Arr l => hd 0%Q l end.

(** The residual [y^2 - Psi] of one unknown [y], with its derivatives:
    d/dy = 2y, d/dPsi = -1 (position 5 of the arguments), d2/dy2 = 2. *)
Definition dPsi_of (inds : list nat) (dc : list (value Q)) : Q :=
  foldr Qplus 0%Q
    (zip_with (λ (i : nat) d, if (i =? 5)%nat then scalar_of d else 0%Q) inds dc).

Definition square_residual (is_scalar : bool) : ObjectiveFunction Q Q := {|
  obj_str := "square_residual";
  scalar := is_scalar;
  BC_constraint := axis_constraint;
  compute := λ a, [(hd 0 (fst a) * hd 0 (fst a) - scalar_of (_Psi (snd a)))%Q];
  jac_x := λ a, (2 * hd 0 (fst a))%Q;
  jvp := λ inds dc a, [(- dPsi_of inds dc)%Q];
  jvp2 := λ i1 i2 d1 d2 a,
    match i1, i2, d1, d2 with
    | ArgInt _, ArgInt _, DirArr v1, DirArr v2 => [(2 * hd 0 v1 * hd 0 v2)%Q]
    | _, _, _, _ => [0%Q]
    end
|}.

Definition basis0 : Basis := {| modes := [(0, 0, 0)] |}.

(** An equilibrium with one mode per basis, [R_lmn = [3]], [Z_lmn = [0]],
    [L_lmn = [0]], and [Psi = 4]. *)
Definition eq0 (o : option (ObjectiveFunction Q Q)) (is_built : bool)
    : Equilibrium Q Q := {|
  resolution := {| _sym := false; _NFP := 1; _L := 0; _M := 0; _N := 0;
                   _index := "ansi"; _bdry_mode := "spectral";
                   _R_sym := None; _Z_sym := None |};
  bases := {| _R_basis := basis0; _Z_basis := basis0; _L_basis := basis0;
              _Rb_basis := basis0; _Zb_basis := basis0;
              _p_basis := basis0; _i_basis := basis0 |};
  coeffs := {| _x := [3%Q; 0%Q; 0%Q]; _R_lmn := [3%Q]; _Z_lmn := [0%Q];
               _L_lmn := [0%Q] |};
  params := {| _Rb_mn := Arr [1%Q]; _Zb_mn := Arr [1%Q]; _p_l := Arr [0%Q];
               _i_l := Arr [0%Q]; _Psi := Scal 4%Q; _zeta_ratio := Scal 1%Q |};
  _parent := None;
  _children := 0%nat;
  objective := o;
  built := is_built
|}.

(** A store with that equilibrium alone; it has no children. *)
Definition store0 (o : option (ObjectiveFunction Q Q)) (is_built : bool)
    : store Q Q :=
  {| objs := [eq0 o is_built]; lsts := [[]] |}.


(** A store with a parent (at 0) and its child (at 1), and the lineage of
    a store: the parent and the children list of each object, and the
    lists. *)
Definition family : store Q Q :=
  {| objs := [set_children 0%nat (eq0 None true);
              set_children 1%nat (set_parent (Some 0%nat) (eq0 None true))];
     lsts := [[1%nat]; []] |}.

Definition lineage (st : store Q Q) : list (option loc * loc) * list (list loc) :=
  (map (λ e, (_parent e, _children e)) (objs st), lsts st).

(** The built equilibrium with the residual [y^2 - Psi], and its store. *)
Definition square_eq : Equilibrium Q Q := eq0 (Some (square_residual false)) true.
Definition square_store : store Q Q := store0 (Some (square_residual false)) true.

End OneDim.

(** ** desc/configuration.py: the labels of the state vector *)

Module Labels.

(** A Python dict as the list of its items, in insertion order. *)
Section Dict.
Context {K V : Type} `{EqDecision K}.

(** [d[k] = v]: the value of a key that is there is replaced where it
    stands, a new key is added at the end. *)
Fixpoint dict_set (k : K) (v : V) (d : list (K * V)) : list (K * V) :=
  match d with
  | [] => [(k, v)]
  | (k', v') :: d' =>
      if decide (k' = k) then (k', v) :: d' else (k', v') :: dict_set k v d'
  end.

(** [d.get(k, None)] *)
Fixpoint dict_get (k : K) (d : list (K * V)) : option V :=
  match d with
  | [] => None
  | (k', v') :: d' => if decide (k' = k) then Some v' else dict_get k d'
  end.

(** [{k: v for k, v in l}] *)
Definition dict_of (l : list (K * V)) : list (K * V) :=
  foldl (λ d kv, dict_set kv.1 kv.2 d) [] l.

End Dict.

(** ["R_{},{},{}".format(l, m, n)], for the prefix ["R_"]: the integers
    are written in decimal, with a minus sign when negative. *)
Definition format3 (prefix : string) (lmn : Z * Z * Z) : string :=
  let '(l, m, n) := lmn in
  prefix +:+ pretty l +:+ "," +:+ pretty m +:+ "," +:+ pretty n.

(** The attributes [xlabel] and [rev_xlabel]. *)
Record labels := {
  xlabel : list (Z * string);
  rev_xlabel : list (string * Z)
}.

(** [enumerate(l)] *)
Definition enumerate {A} (l : list A) : list (Z * A) :=
  imap (λ i a, (Z.of_nat i, a)) l.

(** [_make_labels(self)], from the bases of [self]. *)
Definition _make_labels (b : Bases) : labels :=
  let R_label := map (format3 "R_") (modes (_R_basis b)) in
  let Z_label := map (format3 "Z_") (modes (_Z_basis b)) in
  let L_label := map (format3 "L_") (modes (_L_basis b)) in
  let x_label := R_label ++ Z_label ++ L_label in
  let xlabel := dict_of (enumerate x_label) in
  {| xlabel := xlabel;
     rev_xlabel := dict_of (map (λ iv, (iv.2, iv.1)) xlabel) |}.

(** The argument [idx]: an integer or an array of integers, which
    [np.atleast_1d] turns into an array. *)
Inductive idx_arg := IdxInt (i : Z) | IdxArr (l : list Z).

Definition atleast_1d (idx : idx_arg) : list Z :=
  match idx with IdxInt i => [i] | IdxArr l => l end.

(** [get_xlabel_by_idx(self, idx)] *)
Definition get_xlabel_by_idx (self : labels) (idx : idx_arg) : list (option string) :=
  let idx := atleast_1d idx in
  map (λ i, dict_get i (xlabel self)) idx.

(** The argument [labels]: a list or tuple of strings, or a string, of
    which [list(labels)] makes the list of its characters. *)
Inductive labels_arg := LSeq (l : list string) | LStr (s : string).

Fixpoint chars (s : string) : list string :=
  match s with
  | EmptyString => []
  | String c s' => String c EmptyString :: chars s'
  end.

(** [get_idx_by_xlabel(self, labels)] *)
Definition get_idx_by_xlabel (self : labels) (labels : labels_arg) : list (option Z) :=
  let labels := match labels with LSeq l => l | LStr s => chars s end in
  map (λ label, dict_get label (rev_xlabel self)) labels.

End Labels.
Export Labels.

(** ** desc/configuration.py: construction from a dictionary of inputs *)

Module Inputs.

(** What the construction uses of numpy floats, of termcolor and of
    DESC's modules backend, basis and transform, which the sources import
    and do not define. *)
Class Backend (F : Type) := {
  (* termcolor.colored(text, color) *)
  colored : string → string → string;
  (* int(x) of a float: raises on nan and infinity *)
  to_int : F → result Z;
  (* a - b *)
  fsub : F → F → F;
  (* np.maximum(a, b) *)
  fmax : F → F → F;
  (* desc.backend.put(arr, inds, val) *)
  put : list F → list nat → F → list F;
  (* DoubleFourierSeries(M, N, NFP, sym) *)
  DoubleFourierSeries : Z → Z → Z → option string → Basis;
  (* PowerSeries(L) *)
  PowerSeries : Z → Basis;
  (* Transform(Grid(nodes), basis).fit(values) *)
  fit : list (F * F * F) → Basis → list F → list F
}.

Section Formatting.
Context {F mat : Type} `{Float64 F} `{Backend F} `{Collaborators F mat}.

(** [np.where(mask)[0]]: the indices of the entries that satisfy [P],
    in increasing order. *)
Definition where_ {A} (P : A → bool) (l : list A) : list nat :=
  omap (λ ia : nat * A, if P ia.2 then Some ia.1 else None)
       (imap (λ i a, (i, a)) l).

(** Columns of the array of modes. *)
Definition mode_l (md : Z * Z * Z) : Z := md.1.1.
Definition mode_m (md : Z * Z * Z) : Z := md.1.2.
Definition mode_n (md : Z * Z * Z) : Z := md.2.

(** [format_profiles(profiles, p_basis, i_basis)]; a row of [profiles]
    is [l, p, i]. *)
Fixpoint format_profiles_loop (profiles : list (F * F * F))
    (p_basis i_basis : Basis) (p_l i_l : list F) : result (list F * list F) :=
  match profiles with
  | [] => Ok (p_l, i_l)
  | (l, p, i) :: rest =>
      rbind (to_int l) (λ l_int,
        let idx_p := where_ (λ md, Z.eqb (mode_l md) l_int) (modes p_basis) in
        let idx_i := where_ (λ md, Z.eqb (mode_l md) l_int) (modes i_basis) in
        let p_l := put p_l idx_p p in
        let i_l := put i_l idx_i i in
        format_profiles_loop rest p_basis i_basis p_l i_l)
  end.

Definition format_profiles (profiles : list (F * F * F)) (p_basis i_basis : Basis)
    : result (list F * list F) :=
  let p_l := zeros (num_modes p_basis) in
  let i_l := zeros (num_modes i_basis) in
  format_profiles_loop profiles p_basis i_basis p_l i_l.

(** [format_boundary(boundary, Rb_basis, Zb_basis, mode)]; a row of
    [boundary] is [m, n, R1, Z1] in spectral mode and [theta, phi, R, Z]
    in real mode. *)
Fixpoint format_boundary_loop (boundary : list (F * F * F * F))
    (Rb_basis Zb_basis : Basis) (Rb_mn Zb_mn : list F)
    : result (list F * list F) :=
  match boundary with
  | [] => Ok (Rb_mn, Zb_mn)
  | (m, n, R1, Z1) :: rest =>
      rbind (to_int m) (λ m_int,
      rbind (to_int n) (λ n_int,
        let idx_R := where_ (λ md, Z.eqb (mode_m md) m_int && Z.eqb (mode_n md) n_int)
                       (modes Rb_basis) in
        let idx_Z := where_ (λ md, Z.eqb (mode_m md) m_int && Z.eqb (mode_n md) n_int)
                       (modes Zb_basis) in
        let Rb_mn := put Rb_mn idx_R R1 in
        let Zb_mn := put Zb_mn idx_Z Z1 in
        format_boundary_loop rest Rb_basis Zb_basis Rb_mn Zb_mn))
  end.

Definition format_boundary (boundary : list (F * F * F * F))
    (Rb_basis Zb_basis : Basis) (mode : string) : result (list F * list F) :=
  if String.eqb mode "real" then
    let theta := map (λ row, row.1.1.1) boundary in
    let phi := map (λ row, row.1.1.2) boundary in
    let rho := map (λ _, of_Q 1) theta in
    let nodes := zip (zip rho theta) phi in
    let Rb_mn := fit nodes Rb_basis (map (λ row, row.1.2) boundary) in
    let Zb_mn := fit nodes Zb_basis (map (λ row, row.2) boundary) in
    Ok (Rb_mn, Zb_mn)
  else
    let Rb_mn := zeros (num_modes Rb_basis) in
    let Zb_mn := zeros (num_modes Zb_basis) in
    format_boundary_loop boundary Rb_basis Zb_basis Rb_mn Zb_mn.

(** [b_mn[k]] *)
Definition getitem (b_mn : list F) (k : nat) : result F :=
  match b_mn !! k with
  | Some b => Ok b
  | None => Raise (IndexError "index is out of bounds for axis 0")
  end.

(** [np.where(axis[:, 0] == n, axis[:, 1], b)[0]]; a row of [axis] is
    [n, R0_n, Z0_n]. *)
Definition axis_or (axis : list (F * F * F)) (n : Z) (b : F) : result F :=
  match axis with
  | (n0, R0, _) :: _ => Ok (if feqb n0 (of_Q (inject_Z n)) then R0 else b)
  | [] => Raise (IndexError "index 0 is out of bounds for axis 0 with size 0")
  end.

(** [initial_guess(x_basis, b_mn, b_basis, axis)]: the loop over
    [k in range(b_basis.num_modes)], here over the pairs of [k] and the
    [k]-th mode. *)
Fixpoint initial_guess_loop (ks : list (nat * (Z * Z * Z))) (x_basis : Basis)
    (b_mn : list F) (axis : list (F * F * F)) (x_lmn : list F) : result (list F) :=
  match ks with
  | [] => Ok x_lmn
  | (k, md) :: rest =>
      let m := mode_m md in
      let n := mode_n md in
      let idx := where_ (λ xm, Z.eqb (mode_l xm) (Z.abs m) && Z.eqb (mode_m xm) m
                               && Z.eqb (mode_n xm) n) (modes x_basis) in
      if Z.eqb m 0 then
        let idx2 := where_ (λ xm, Z.eqb (mode_l xm) (Z.abs m + 2) && Z.eqb (mode_m xm) m
                                  && Z.eqb (mode_n xm) n) (modes x_basis) in
        rbind (getitem b_mn k) (λ b_k,
        rbind (axis_or axis n b_k) (λ x0,
          let x_lmn := put x_lmn idx x0 in
          let x_lmn := put x_lmn idx2 (fsub b_k x0) in
          initial_guess_loop rest x_basis b_mn axis x_lmn))
      else
        rbind (getitem b_mn k) (λ b_k,
          let x_lmn := put x_lmn idx b_k in
          initial_guess_loop rest x_basis b_mn axis x_lmn)
  end.

Definition initial_guess (x_basis : Basis) (b_mn : list F) (b_basis : Basis)
    (axis : list (F * F * F)) : result (list F) :=
  let x_lmn := zeros (num_modes x_basis) in
  initial_guess_loop (imap (λ k md, (k, md)) (modes b_basis)) x_basis b_mn axis x_lmn.

(** The dictionary [inputs]: a field is None when the key is absent. *)
Record InputsDict := {
  in_Psi : option (value F);
  in_NFP : option Z;
  in_L : option Z;
  in_M : option Z;
  in_N : option Z;
  in_profiles : option (list (F * F * F));
  in_boundary : option (list (F * F * F * F));
  in_sym : option bool;
  in_index : option string;
  in_bdry_mode : option string;
  in_zeta_ratio : option (value F);
  in_axis : option (list (F * F * F));
  in_x : option (list F);
  in_R_lmn : option (list F);
  in_Z_lmn : option (list F);
  in_L_lmn : option (list F)
}.

(** The attributes [_init_from_inputs_] sets. *)
Record ConfigurationAttrs := {
  cfg_resolution : Resolution;
  cfg_bases : Bases;
  cfg_coeffs : Coeffs F;
  cfg_params : Params F;
  cfg_parent : option loc;
  cfg_children : list loc
}.

(** [np.max(a)] of a 1-d array. *)
Definition np_max (a : list F) : result F :=
  match a with
  | x :: rest => Ok (foldl fmax x rest)
  | [] => Raise (ValueError
            "zero-size array to reduction operation maximum which has no identity")
  end.

(** The required keys (lines 124-133): a missing key raises inside the
    [try], and the handler raises the ValueError, whose message is the
    text coloured red. *)
Definition required_inputs (d : InputsDict)
    : result (value F * Z * Z * Z * Z * list (F * F * F) * list (F * F * F * F)) :=
  match in_Psi d, in_NFP d, in_L d, in_M d, in_N d, in_profiles d, in_boundary d with
  | Some Psi, Some NFP, Some L, Some M, Some N, Some profiles, Some boundary =>
      Ok (Psi, NFP, L, M, N, profiles, boundary)
  | _, _, _, _, _, _, _ =>
      Raise (ValueError (colored "input dict does not contain proper keys" "red"))
  end.

(** [boundary[np.where(boundary[:, 0] == 0)[0], 1:]] *)
Definition axis_of_boundary (boundary : list (F * F * F * F)) : list (F * F * F) :=
  omap (λ row : F * F * F * F,
          let '(m, n, R1, Z1) := row in
          if feqb m (of_Q 0) then Some (n, R1, Z1) else None) boundary.

(** [_init_from_inputs_(inputs)]; with [inputs = None] the first
    subscript raises a TypeError, which the same handler catches. *)
Definition _init_from_inputs_ (inputs : option InputsDict) : result ConfigurationAttrs :=
  match inputs with
  | None =>
      Raise (ValueError (colored "input dict does not contain proper keys" "red"))
  | Some d =>
    rbind (required_inputs d) (λ req,
    let '(Psi, NFP, L, M, N, profiles, boundary) := req in
    let sym := default false (in_sym d) in
    let index := default "ansi" (in_index d) in
    let bdry_mode := default "spectral" (in_bdry_mode d) in
    let zeta_ratio := default (Scal (of_Q 1)) (in_zeta_ratio d) in
    let R_sym := if sym then Some "cos" else None in
    let Z_sym := if sym then Some "sin" else None in
    let R_basis := FourierZernikeBasis L M N NFP R_sym index in
    let Z_basis := FourierZernikeBasis L M N NFP Z_sym index in
    let L_basis := FourierZernikeBasis L M N NFP Z_sym index in
    let Rb_basis := DoubleFourierSeries M N NFP R_sym in
    let Zb_basis := DoubleFourierSeries M N NFP Z_sym in
    rbind (np_max (map (λ row, row.1.1) profiles)) (λ lmax,
    rbind (to_int lmax) (λ L_p,
    let p_basis := PowerSeries L_p in
    let i_basis := PowerSeries L_p in
    rbind (format_profiles profiles p_basis i_basis) (λ pi,
    let '(p_l, i_l) := pi in
    rbind (format_boundary boundary Rb_basis Zb_basis bdry_mode) (λ RZ,
    let '(Rb_mn, Zb_mn) := RZ in
    let attrs (c : Coeffs F) :=
      {| cfg_resolution :=
           {| _sym := sym; _NFP := NFP; _L := L; _M := M; _N := N;
              _index := index; _bdry_mode := bdry_mode;
              _R_sym := R_sym; _Z_sym := Z_sym |};
         cfg_bases :=
           {| _R_basis := R_basis; _Z_basis := Z_basis; _L_basis := L_basis;
              _Rb_basis := Rb_basis; _Zb_basis := Zb_basis;
              _p_basis := p_basis; _i_basis := i_basis |};
         cfg_coeffs := c;
         cfg_params :=
           {| _Rb_mn := Arr Rb_mn; _Zb_mn := Arr Zb_mn; _p_l := Arr p_l;
              _i_l := Arr i_l; _Psi := Psi; _zeta_ratio := zeta_ratio |};
         cfg_parent := None;
         cfg_children := [] |} in
    match in_x d with
    | Some x =>
        let '(R_lmn, Z_lmn, L_lmn) :=
          unpack_state x (num_modes R_basis) (num_modes Z_basis) in
        Ok (attrs {| _x := x; _R_lmn := R_lmn; _Z_lmn := Z_lmn; _L_lmn := L_lmn |})
    | None =>
        let axis := default (axis_of_boundary boundary) (in_axis d) in
        rbind (match in_R_lmn d with
               | Some R_lmn => Ok R_lmn
               | None => initial_guess R_basis Rb_mn Rb_basis axis
               end) (λ R_lmn,
        rbind (match in_Z_lmn d with
               | Some Z_lmn => Ok Z_lmn
               | None => initial_guess Z_basis Zb_mn Zb_basis axis
               end) (λ Z_lmn,
        let L_lmn := default (zeros (num_modes L_basis)) (in_L_lmn d) in
        Ok (attrs {| _x := concatenate R_lmn Z_lmn L_lmn;
                     _R_lmn := R_lmn; _Z_lmn := Z_lmn; _L_lmn := L_lmn |})))
    end)))))
  end.

End Formatting.

Global Arguments InputsDict F : clear implicits.
Global Arguments ConfigurationAttrs F : clear implicits.

End Inputs.
Export Inputs.

(** ** A concrete instance for the construction: rationals, and bases
       whose modes are listed in full *)

Module OneDimInputs.
Import OneDim.

(** [int(q)]: truncation towards zero. *)
Definition Qtrunc (q : Q) : Z := Z.quot (Qnum q) (Zpos (Qden q)).

Definition Qmaxb (a b : Q) : Q := if Qle_bool a b then b else a.

(** [arr[inds] = val] *)
Definition assign (arr : list Q) (inds : list nat) (v : Q) : list Q :=
  foldr (λ i a, <[i := v]> a) arr inds.

(** The integers from [lo] to [hi]. *)
Definition range_Z (lo hi : Z) : list Z :=
  map (λ k, lo + Z.of_nat k) (seq 0 (Z.to_nat (hi - lo + 1))).

(** [colored(text, color)] with the escape sequences of a terminal: the
    code of the colour, the text, and the reset. *)
Definition escape (code : string) : string :=
  String (ascii_of_nat 27) ("[" +:+ code +:+ "m").

Definition ansi_colored (text color : string) : string :=
  let code := if String.eqb color "red" then "31"
              else if String.eqb color "yellow" then "33" else "39" in
  escape code +:+ text +:+ escape "0".

Global Instance Q_Backend : Backend Q := {|
  colored := ansi_colored;
  to_int := λ q, Ok (Qtrunc q);
  fsub := Qminus;
  fmax := Qmaxb;
  put := assign;
  DoubleFourierSeries := λ M N NFP sym,
    {| modes := flat_map (λ m, map (λ n, (0, m, n)) (range_Z (- N) N))
                  (range_Z (- M) M) |};
  PowerSeries := λ L, {| modes := map (λ l, (l, 0, 0)) (range_Z 0 L) |};
  fit := λ nodes basis vals, replicate (num_modes basis) 0%Q
|}.

(** Bases with three modes for R, two for Z and one for lambda. *)
Definition bases3 : Bases :=
  {| _R_basis := {| modes := [(0, 0, 0); (1, -1, 0); (12, 3, -4)] |};
     _Z_basis := {| modes := [(0, 0, 0); (1, -1, 0)] |};
     _L_basis := {| modes := [(0, 0, 0)] |};
     _Rb_basis := {| modes := [(0, 0, 0)] |};
     _Zb_basis := {| modes := [(0, 0, 0)] |};
     _p_basis := {| modes := [(0, 0, 0)] |};
     _i_basis := {| modes := [(0, 0, 0)] |} |}.

(** A dictionary of inputs with the required keys alone: [L = 2],
    [M = N = 0], profiles [l, p, i] for [l = 0] (twice) and [l = 2], and
    the boundary mode [m = n = 0] with [R = 10], [Z = 1]. *)
Definition inputs0 : InputsDict Q :=
  {| in_Psi := Some (Scal 1%Q); in_NFP := Some 1; in_L := Some 2;
     in_M := Some 0; in_N := Some 0;
     in_profiles := Some [(0%Q, 5%Q, 6%Q); (2%Q, 3%Q, 4%Q); (0%Q, 1%Q, 2%Q)];
     in_boundary := Some [(0%Q, 0%Q, 10%Q, 1%Q)];
     in_sym := None; in_index := None; in_bdry_mode := None;
     in_zeta_ratio := None; in_axis := None; in_x := None;
     in_R_lmn := None; in_Z_lmn := None; in_L_lmn := None |}.

(** The same with the state vector given. *)
Definition inputs_x (x : list Q) (R_lmn : option (list Q)) : InputsDict Q :=
  {| in_Psi := Some (Scal 1%Q); in_NFP := Some 1; in_L := Some 2;
     in_M := Some 0; in_N := Some 0;
     in_profiles := Some [(0%Q, 5%Q, 6%Q); (2%Q, 3%Q, 4%Q); (0%Q, 1%Q, 2%Q)];
     in_boundary := Some [(0%Q, 0%Q, 10%Q, 1%Q)];
     in_sym := None; in_index := None; in_bdry_mode := None;
     in_zeta_ratio := None; in_axis := None; in_x := Some x;
     in_R_lmn := R_lmn; in_Z_lmn := None; in_L_lmn := None |}.

End OneDimInputs.

(** * Vocabulary of the statements *)

Section Vocabulary.
Context {F mat : Type} `{Collaborators F mat}.

Local Abbreviation store := (Desc.store F mat).
Local Abbreviation Equilibrium := (Desc.Equilibrium F mat).
Local Abbreviation event := (Desc.event F mat).

(** The calls of the trust-region solver in a trace. *)
Definition solve_calls (ev : list event) : list (tr_call F mat) :=
  omap (λ e, match e with CallSolve c => Some c | _ => None end) ev.

(** The calls of the objective's methods in a trace. *)
Definition is_objective_call (e : event) : bool :=
  match e with
  | CallJacX _ | CallCompute _ | CallJvp _ _ _ | CallJvp2 _ _ _ _ _ => true
  | _ => false
  end.

(** [x] is the concatenation of the three blocks. *)
Definition x_is_concat (c : Coeffs F) : Prop :=
  _x c = concatenate (_R_lmn c) (_Z_lmn c) (_L_lmn c).

(** The blocks are what unpacking [x] at the mode counts of the bases
    returns. *)
Definition blocks_unpacked (b : Bases) (c : Coeffs F) : Prop :=
  unpack_state (_x c) (num_modes (_R_basis b)) (num_modes (_Z_basis b))
  = (_R_lmn c, _Z_lmn c, _L_lmn c).

(** [R_lmn] and [Z_lmn] have one coefficient per mode of their basis. *)
Definition sized (b : Bases) (c : Coeffs F) : Prop :=
  length (_R_lmn c) = num_modes (_R_basis b) ∧
  length (_Z_lmn c) = num_modes (_Z_basis b).

Definition state_consistent (e : Equilibrium) : Prop :=
  x_is_concat (coeffs e) ∧ blocks_unpacked (bases e) (coeffs e).

(** What holds after a block setter: [x] is the concatenation, and the
    blocks are its unpacking when they have the sizes of their bases. *)
Definition block_setter_post (e : Equilibrium) : Prop :=
  x_is_concat (coeffs e) ∧
  (sized (bases e) (coeffs e) → blocks_unpacked (bases e) (coeffs e)).

(** The run of [m] returns without output, and the object at [self]
    then satisfies [P]. *)
Definition leaves (m : Desc.M F mat unit) (self : loc) (st : store)
    (P : Equilibrium → Prop) : Prop :=
  ∃ st' e', m st = (Ok tt, st', []) ∧ objs st' !! self = Some e' ∧ P e'.

End Vocabulary.

Section PerturbVocabulary.
Context {F mat : Type} `{Float64 F} `{Linalg F mat} `{Collaborators F mat}.
Local Abbreviation store := (Desc.store F mat).
Local Abbreviation Equilibrium := (Desc.Equilibrium F mat).
Local Abbreviation M := (Desc.M F mat).

(** The warning of a run without JAX. *)
Definition warning (use_jax : bool) : list (event F mat) :=
  if use_jax then [] else [Warn jax_warning].

(** The store once the equilibrium at [eq] is built. *)
Definition built_store (eq : loc) (e : Equilibrium) (st : store) : store :=
  if built e then st
  else {| objs := <[eq := set_built true e]> (objs st); lsts := lsts st |}.

(** A delta that perturb ignores: [None] or all zeros. *)
Definition ignored (d : option (value F)) : Prop :=
  d = None ∨ ∃ v, d = Some v ∧ all_zero v = true.

(** A computation that shows nothing and calls no collaborator. *)
Definition silent {A} (m : M A) : Prop := ∀ st, (m st).2 = [].

(** A computation all of whose events satisfy [P]. *)
Definition emits {A} (P : event F mat → Prop) (m : M A) : Prop :=
  ∀ st, Forall P (m st).2.

(** A call of the solver is given the threshold 1e-6. *)
Definition constant_threshold (ev : event F mat) : Prop :=
  match ev with
  | CallSolve c => tr_threshold c = of_Q 1e-6
  | _ => True
  end.

(** A computation that leaves the store as it is. *)
Definition readonly {A} (m : M A) : Prop := ∀ st, (m st).1.2 = st.

(** The call of the solver on the factors of [J], with the settings
    perturb passes. *)
Definition solve_call (J : mat) (RHS : list F) (Delta : value F) : tr_call F mat :=
  let '(u, s, vt) := svd J in
  let '(m, n) := shape J in
  {| tr_n := n; tr_m := m; tr_f := RHS; tr_u := u; tr_s := s;
     tr_v := transpose vt; tr_Delta := Delta;
     tr_initial_alpha := None; tr_rtol := of_Q 0.01;
     tr_max_iter := 10; tr_threshold := of_Q 1e-6 |}.

(** What the first-order block hands on when the solver returns [dx1]. *)
Definition first_order_of (J : mat) (dx1 : list F) : first_order_t :=
  let '(u, s, vt) := svd J in
  let '(m, n) := shape J in
  {| fo_n := n; fo_m := m; fo_u := u; fo_s := s; fo_vt := vt; fo_dx1 := dx1 |}.

(** The step a solver call returns. *)
Definition step_of (c : tr_call F mat) : result (list F) :=
  rbind (trust_region_step_exact c) (λ r, Ok r.1.1).

(** A parameter block after its delta: unchanged when the delta is None
    or zero. *)
Definition bump (d : option (value F)) (old : value F) : result (value F) :=
  match d with
  | Some v => if all_zero v then Ok old else vadd old v
  | None => Ok old
  end.

(** The store with the object at [l] replaced. *)
Definition put_obj (l : loc) (e : Equilibrium) (st : store) : store :=
  {| objs := <[l := e]> (objs st); lsts := lsts st |}.

(** A computation that writes no object but the one at [l]. *)
Definition writes_only {A} (l : loc) (m : M A) : Prop :=
  ∀ st l', l' ≠ l → objs (m st).1.2 !! l' = objs st !! l'.

(** The equilibrium at [eq] once it is built. *)
Definition built_eq (e : Equilibrium) : Equilibrium :=
  if built e then e else set_built true e.

(** Two equilibria with the same data; the lineage may differ. *)
Definition same_data (e1 e2 : Equilibrium) : Prop :=
  resolution e1 = resolution e2 ∧ bases e1 = bases e2 ∧ coeffs e1 = coeffs e2 ∧
  params e1 = params e2 ∧ objective e1 = objective e2 ∧ built e1 = built e2.
End PerturbVocabulary.

(** Vocabulary of the labels. *)

Section LabelVocabulary.

(** A string without a comma. *)
Fixpoint no_comma (s : string) : Prop :=
  match s with
  | EmptyString => True
  | String c s' => c ≠ ","%char ∧ no_comma s'
  end.

(** The list [x_label] of [_make_labels]. *)
Definition x_label (b : Bases) : list string :=
  map (format3 "R_") (modes (_R_basis b)) ++
  map (format3 "Z_") (modes (_Z_basis b)) ++
  map (format3 "L_") (modes (_L_basis b)).

End LabelVocabulary.

(** Vocabulary of the calls of the Jacobian. *)

Section CallVocabulary.
Context {F mat : Type}.

(** The arguments of the calls of [objective.jac_x] in a trace. *)
Definition jac_calls (ev : list (event F mat)) : list (args F) :=
  omap (λ e, match e with CallJacX a => Some a | _ => None end) ev.

(** An event that is no call of [objective.jac_x]. *)
Definition no_jac_x (ev : event F mat) : Prop :=
  match ev with CallJacX _ => False | _ => True end.

End CallVocabulary.

(** Vocabulary of the construction from inputs. *)

Section InputVocabulary.
Context {F : Type} `{Float64 F} `{Backend F}.

(** [put(arr, inds, val)] is the assignment [arr[inds] = val]. *)
Definition put_assigns : Prop :=
  ∀ (arr : list F) (inds : list nat) (v : F),
    put arr inds v = foldr (λ i a, <[i := v]> a) arr inds.

(** [int(x)] returns [z]. *)
Definition int_is (x : F) (z : Z) : bool :=
  match to_int x with Ok z' => Z.eqb z' z | Raise _ => false end.

(** The last entry of a list that satisfies [P]. *)
Fixpoint last_where {A} (P : A → bool) (l : list A) : option A :=
  match l with
  | [] => None
  | a :: l' =>
      match last_where P l' with
      | Some b => Some b
      | None => if P a then Some a else None
      end
  end.

(** The coefficient that the rows give to a mode: that of the last row
    that names the mode, and zero when no row does. *)
Definition coefficient {A} (P : A → bool) (val : A → F) (rows : list A) : F :=
  match last_where P rows with Some row => val row | None => of_Q 0 end.

(** The row of [boundary] names the mode [(m, n)]. *)
Definition row_is (m n : Z) (row : F * F * F * F) : bool :=
  int_is row.1.1.1 m && int_is row.1.1.2 n.

End InputVocabulary.

Section GuessVocabulary.

(** The modes of the state basis that [initial_guess] writes for the
    boundary mode [md]: those with the [m] and [n] of [md] and [l = |m|],
    and for [m = 0] also [l = 2]. *)
Definition guess_writes (md xm : Z * Z * Z) : Prop :=
  mode_m xm = mode_m md ∧ mode_n xm = mode_n md ∧
  (mode_l xm = Z.abs (mode_m md) ∨ (mode_m md = 0 ∧ mode_l xm = 2)).

(** [m] and [n] of a mode. *)
Definition mode_mn (md : Z * Z * Z) : Z * Z := (mode_m md, mode_n md).

End GuessVocabulary.

Section InitVocabulary.
Context {F : Type}.

(** Two dictionaries that differ at most in the keys [R_lmn], [Z_lmn],
    [L_lmn] and [axis]. *)
Definition same_but_guess (d d' : InputsDict F) : Prop :=
  in_Psi d = in_Psi d' ∧ in_NFP d = in_NFP d' ∧ in_L d = in_L d' ∧
  in_M d = in_M d' ∧ in_N d = in_N d' ∧ in_profiles d = in_profiles d' ∧
  in_boundary d = in_boundary d' ∧ in_sym d = in_sym d' ∧
  in_index d = in_index d' ∧ in_bdry_mode d = in_bdry_mode d' ∧
  in_zeta_ratio d = in_zeta_ratio d' ∧ in_x d = in_x d'.

(** A required key is missing. *)
Definition missing_key (d : InputsDict F) : Prop :=
  in_Psi d = None ∨ in_NFP d = None ∨ in_L d = None ∨ in_M d = None ∨
  in_N d = None ∨ in_profiles d = None ∨ in_boundary d = None.

End InitVocabulary.

(** * Properties *)

(** ** Running computations *)

Section Runs.
Context {F mat : Type}.

Local Abbreviation M := (Desc.M F mat).
Local Abbreviation store := (Desc.store F mat).
Local Abbreviation Equilibrium := (Desc.Equilibrium F mat).

Lemma bind_ok {A B} (m : M A) (k : A → M B) st a st1 ev1 :
  m st = (Ok a, st1, ev1) →
  bind m k st = (let '(r, st2, ev2) := k a st1 in (r, st2, ev1 ++ ev2)).
Proof. intros Hm. unfold bind. rewrite Hm. destruct (k a st1) as [[r st2] ev2]. done. Qed.

Lemma bind_raise {A B} (m : M A) (k : A → M B) st e st1 ev1 :
  m st = (Raise e, st1, ev1) → bind m k st = (Raise e, st1, ev1).
Proof. intros Hm. unfold bind. by rewrite Hm. Qed.

Lemma bind_pure {A B} (m : M A) (k : A → M B) st a :
  m st = (Ok a, st, []) → bind m k st = k a st.
Proof.
  intros Hm. rewrite (bind_ok _ _ _ _ _ _ Hm).
  destruct (k a st) as [[r st2] ev2]. done.
Qed.

Lemma get_obj_run l (st : store) e :
  objs st !! l = Some e → get_obj l st = (Ok e, st, []).
Proof. intros Hl. unfold get_obj. by rewrite Hl. Qed.

Lemma get_list_run l (st : store) c :
  lsts st !! l = Some c → get_list l st = (Ok c, st, []).
Proof. intros Hl. unfold get_list. by rewrite Hl. Qed.

Lemma update_run self (f : Equilibrium → Equilibrium) (st : store) e :
  objs st !! self = Some e →
  update self f st =
    (Ok tt, {| objs := <[self := f e]> (objs st); lsts := lsts st |}, []).
Proof.
  intros Hl. unfold update.
  rewrite (bind_pure _ _ _ _ (get_obj_run _ _ _ Hl)). done.
Qed.

End Runs.

(** ** The state vector of a configuration and its blocks *)

Section StateVector.
Context {F mat : Type} `{Collaborators F mat}.

Local Abbreviation store := (Desc.store F mat).
Local Abbreviation Equilibrium := (Desc.Equilibrium F mat).

Lemma unpack_concat (x : list F) nR nZ :
  take nR x ++ take nZ (drop nR x) ++ drop (nR + nZ) x = x.
Proof.
  rewrite <- drop_drop, take_drop. apply take_drop.
Qed.

Lemma unpack_sized (R Z L : list F) :
  unpack_state (concatenate R Z L) (length R) (length Z) = (R, Z, L).
Proof.
  unfold unpack_state, concatenate.
  rewrite take_app_length, drop_app_length, take_app_length.
  rewrite <- drop_drop, drop_app_length, drop_app_length. done.
Qed.

Lemma concat_sized_unpacked b (c : Coeffs F) :
  x_is_concat c → sized b c → blocks_unpacked b c.
Proof.
  unfold x_is_concat, sized, blocks_unpacked. intros -> [<- <-].
  apply unpack_sized.
Qed.

Lemma block_setter_post_intro (e' : Equilibrium) :
  x_is_concat (coeffs e') → block_setter_post e'.
Proof. intros Hx. split; [done|]. by apply concat_sized_unpacked. Qed.

Lemma with_x_consistent x (e : Equilibrium) : state_consistent (with_x x e).
Proof.
  unfold state_consistent, x_is_concat, blocks_unpacked, with_x, unpack_state.
  simpl. split; [|done]. unfold concatenate. by rewrite unpack_concat.
Qed.

Lemma leaves_update self f (st : store) e (P : Equilibrium → Prop) :
  objs st !! self = Some e → P (f e) → leaves (update self f) self st P.
Proof.
  intros Hl HP. eexists _, (f e). split; [by apply update_run|].
  split; [|done]. simpl. apply list_lookup_insert_eq.
  by eapply lookup_lt_Some.
Qed.

Lemma change_resolution_sized L M N (e : Equilibrium) :
  (∀ c old new, length (copy_coeffs c old new) = length new) →
  change_resolution_rec L M N e = e ∨
  (x_is_concat (coeffs (change_resolution_rec L M N e)) ∧
   sized (bases (change_resolution_rec L M N e))
         (coeffs (change_resolution_rec L M N e))).
Proof.
  intros Hcc. unfold change_resolution_rec.
  destruct (negb _); [by left|right].
  split; [done|]. unfold sized, num_modes. simpl. by rewrite !Hcc.
Qed.

(** C10, as amended.  After construction, after each of the setters of
    [x], [R_lmn], [Z_lmn] and [L_lmn] and after [change_resolution], the
    state vector is the concatenation of the three blocks
    ([change_resolution] with nothing to change leaves the configuration
    as it was).  The blocks are the unpacking of [x] at the mode counts of
    the bases after the setter of [x] and after a construction from [x];
    after a block setter or a construction from blocks they are so when
    [R_lmn] and [Z_lmn] have one coefficient per mode, which nothing
    checks; [change_resolution] keeps the whole invariant, given that
    [copy_coeffs] returns one coefficient per new mode. *)
Theorem state_vector_invariant (self : loc) (st : store) (e : Equilibrium) :
  objs st !! self = Some e →
  (∀ c old new, length (copy_coeffs c old new) = length new) →
  (∀ b (x R Z L : option (list F)) gR gZ zL,
      let c := init_coeffs b x R Z L gR gZ zL in
      x_is_concat c ∧ (is_Some x ∨ sized b c → blocks_unpacked b c)) ∧
  (∀ x, leaves (x_setter self x) self st state_consistent) ∧
  (∀ v, leaves (R_lmn_setter self v) self st block_setter_post) ∧
  (∀ v, leaves (Z_lmn_setter self v) self st block_setter_post) ∧
  (∀ v, leaves (L_lmn_setter self v) self st block_setter_post) ∧
  (∀ L M N, leaves (change_resolution self L M N) self st
              (λ e', (x_is_concat (coeffs e) → x_is_concat (coeffs e')) ∧
                     (state_consistent e → state_consistent e'))).
Proof.
  intros Hself Hcc. split_and!.
  - intros b x R Z L gR gZ zL c.
    assert (Hc : x_is_concat c).
    { subst c. unfold init_coeffs. destruct x as [x|]; simpl; [|done].
      unfold x_is_concat, unpack_state, concatenate. simpl.
      by rewrite unpack_concat. }
    split; [done|]. intros [[x0 ->]|Hs]; [done|].
    by apply concat_sized_unpacked.
  - intros x. apply (leaves_update _ _ _ e); [done|]. apply with_x_consistent.
  - intros v. apply (leaves_update _ _ _ e); [done|]. by apply block_setter_post_intro.
  - intros v. apply (leaves_update _ _ _ e); [done|]. by apply block_setter_post_intro.
  - intros v. apply (leaves_update _ _ _ e); [done|]. by apply block_setter_post_intro.
  - intros L M N. apply (leaves_update _ _ _ e); [done|].
    destruct (change_resolution_sized L M N e Hcc) as [->|[Hx Hs]]; [done|].
    split; [done|]. intros _. split; [done|]. by apply concat_sized_unpacked.
Qed.

End StateVector.

Section StateVectorExamples.
Import OneDim.

Lemma resize_length c n : length (resize c n) = n.
Proof. unfold resize. rewrite length_app, length_take, length_replicate. lia. Qed.

Lemma state_vector_invariant_witness :
  objs (store0 None true) !! 0%nat = Some (eq0 None true) ∧
  (∀ c old new, length (copy_coeffs c old new) = length new) ∧
  leaves (x_setter 0%nat [5%Q]) 0%nat (store0 None true) state_consistent ∧
  leaves (R_lmn_setter 0%nat [5%Q]) 0%nat (store0 None true) block_setter_post.
Proof.
  assert (H1 : objs (store0 None true) !! 0%nat = Some (eq0 None true))
    by reflexivity.
  assert (H2 : ∀ (c : list Q) (old new : list (Z * Z * Z)),
             length (copy_coeffs c old new) = length new)
    by (intros; apply resize_length).
  destruct (state_vector_invariant 0%nat _ _ H1 H2) as (_ & Hx & HR & _).
  split; [exact H1|]. split; [exact H2|]. split; [apply Hx|apply HR].
Defined.

(** C10, as stated, fails: the setter of [R_lmn] stores a block of any
    length.  With one mode per basis, [Z_lmn = [0]] and [L_lmn = [0]],
    setting [R_lmn = [1, 2]] gives [x = [1, 2, 0, 0]], which unpacks to
    [[1]], [[2]], [[0, 0]]. *)
Lemma R_lmn_setter_breaks_unpacking :
  ¬ leaves (R_lmn_setter 0%nat [1%Q; 2%Q]) 0%nat (store0 None true)
      state_consistent.
Proof.
  intros (st' & e' & Hrun & Hl & _ & Hb).
  vm_compute in Hrun. inversion Hrun; subst; clear Hrun.
  vm_compute in Hl. inversion Hl; subst; clear Hl.
  vm_compute in Hb. discriminate Hb.
Qed.

End StateVectorExamples.


(** ** perturb *)

Section PerturbFacts.
Context {F mat : Type} `{Float64 F} `{Linalg F mat} `{Collaborators F mat}.
Local Abbreviation store := (Desc.store F mat).
Local Abbreviation Equilibrium := (Desc.Equilibrium F mat).
Local Abbreviation M := (Desc.M F mat).
Local Abbreviation ObjectiveFunction := (Desc.ObjectiveFunction F mat).

Lemma bind_emit {B} ev (k : unit → M B) (st : store) :
  bind (emit ev) k st = (let '(r, st2, ev2) := k tt st in (r, st2, ev :: ev2)).
Proof. by rewrite (bind_ok _ _ st tt st [ev]). Qed.

Lemma bind_when_emit {B} b ev (k : unit → M B) (st : store) :
  bind (when b (emit ev)) k st
  = (let '(r, st2, ev2) := k tt st in (r, st2, (if b then [ev] else []) ++ ev2)).
Proof.
  destruct b; simpl.
  - by rewrite (bind_ok _ _ st tt st [ev]).
  - rewrite (bind_pure _ _ st tt) by done. by destruct (k tt st) as [[??]?].
Qed.

Lemma bind_lift_ok {A B} (a : A) (k : A → M B) (st : store) :
  bind (lift (Ok a)) k st = k a st.
Proof. by apply bind_pure. Qed.

Lemma bind_lift_raise {A B} e (k : A → M B) (st : store) :
  bind (lift (Raise e)) k st = (Raise e, st, []).
Proof. by apply bind_raise. Qed.

Lemma bind_ret {A B} (a : A) (k : A → M B) (st : store) :
  bind (ret a) k st = k a st.
Proof. by apply bind_pure. Qed.

Lemma perturb_raise_run use_jax eq dRb dZb dp di dPsi dzeta_ratio
    order tr_ratio cutoff Jx verbose copy (st : store) (e : Equilibrium) :
  objs st !! eq = Some e →
  (objective e = None ∨ ∃ o, objective e = Some o ∧ scalar o = true) →
  ∃ msg,
    perturb use_jax eq dRb dZb dp di dPsi dzeta_ratio order tr_ratio cutoff Jx
      verbose copy st
    = (Raise (AttributeError msg), st,
       if use_jax then [] else [Warn jax_warning]).
Proof.
  intros He Hobj. unfold perturb.
  destruct use_jax; simpl.
  - rewrite bind_pure with (a := tt) by done.
    rewrite (bind_pure _ _ _ _ (get_obj_run _ _ _ He)).
    destruct Hobj as [->|(o & -> & ->)]; eexists; reflexivity.
  - rewrite (bind_ok _ _ st tt st [Warn jax_warning]) by done.
    rewrite (bind_pure _ _ _ _ (get_obj_run _ _ _ He)).
    destruct Hobj as [->|(o & -> & ->)]; eexists; reflexivity.
Qed.

(** C5, as amended.  When the equilibrium has no objective, or its
    objective has [scalar = True], perturb raises an AttributeError: the
    store is as it was, and nothing has been shown but the warning of a
    run without JAX; no method of the objective and no solver has been
    called. *)
Theorem perturb_rejects_objective use_jax eq dRb dZb dp di dPsi dzeta_ratio
    order tr_ratio cutoff Jx verbose copy (st : store) (e : Equilibrium) :
  objs st !! eq = Some e →
  (objective e = None ∨ ∃ o, objective e = Some o ∧ scalar o = true) →
  let run := perturb use_jax eq dRb dZb dp di dPsi dzeta_ratio order tr_ratio
               cutoff Jx verbose copy st in
  ∃ msg,
    run.1.1 = Raise (AttributeError msg) ∧
    run.1.2 = st ∧
    run.2 = warning use_jax ∧
    Forall (λ ev, is_objective_call ev = false) run.2 ∧
    solve_calls run.2 = [].
Proof.
  intros He Hobj run.
  destruct (perturb_raise_run use_jax eq dRb dZb dp di dPsi dzeta_ratio order
              tr_ratio cutoff Jx verbose copy st e He Hobj) as [msg Hrun].
  exists msg. subst run. rewrite Hrun. cbn [fst snd].
  split_and!; try done; destruct use_jax; simpl; by repeat constructor.
Qed.

(** C8.  Without JAX, perturb shows the warning and then does what it
    does with JAX: same result (returned or raised), same store, same
    trace after the warning. *)
Theorem perturb_without_jax eq dRb dZb dp di dPsi dzeta_ratio
    order tr_ratio cutoff Jx verbose copy (st : store) :
  perturb false eq dRb dZb dp di dPsi dzeta_ratio order tr_ratio cutoff Jx
    verbose copy st
  = (let '(r, st', ev) :=
       perturb true eq dRb dZb dp di dPsi dzeta_ratio order tr_ratio cutoff Jx
         verbose copy st in
     (r, st', Warn jax_warning :: ev)).
Proof.
  unfold perturb. simpl.
  rewrite (bind_ok _ _ st tt st [Warn jax_warning]) by done.
  rewrite (bind_pure _ _ st tt) by done.
  by destruct (bind _ _ st) as [[r st'] ev].
Qed.

Lemma perturb_ignores_cutoff_run (cutoff cutoff' : F) use_jax eq dRb dZb dp di
    dPsi dzeta_ratio order tr_ratio Jx verbose copy (st : store) :
  perturb use_jax eq dRb dZb dp di dPsi dzeta_ratio order tr_ratio cutoff Jx
    verbose copy st
  = perturb use_jax eq dRb dZb dp di dPsi dzeta_ratio order tr_ratio cutoff' Jx
    verbose copy st.
Proof. reflexivity. Qed.

(** *** Silent and read-only computations *)

Lemma silent_bind {A B} (m : M A) (k : A → M B) :
  silent m → (∀ a, silent (k a)) → silent (bind m k).
Proof.
  intros Hm Hk st. unfold bind. specialize (Hm st).
  destruct (m st) as [[[a|e] st1] ev1]; simpl in *; subst; [|done].
  specialize (Hk a st1). by destruct (k a st1) as [[r st2] ev2]; simpl in *; subst.
Qed.

Lemma silent_ret {A} (a : A) : silent (ret a : M A).
Proof. done. Qed.
Lemma silent_raise {A} e : silent (raise e : M A).
Proof. done. Qed.
Lemma silent_lift {A} (r : result A) : silent (lift r : M A).
Proof. done. Qed.
Lemma silent_get_obj l : silent (get_obj l : M _).
Proof. intros st. unfold get_obj. by destruct (objs st !! l). Qed.
Lemma silent_set_obj l e : silent (set_obj l e : M _).
Proof. done. Qed.
Lemma silent_get_list l : silent (get_list l : M _).
Proof. intros st. unfold get_list. by destruct (lsts st !! l). Qed.
Lemma silent_set_list l c : silent (set_list l c : M _).
Proof. done. Qed.
Lemma silent_when b (m : M unit) : silent m → silent (when b m).
Proof. by destruct b. Qed.

Lemma silent_update l (f : Equilibrium → Equilibrium) : silent (update l f : M unit).
Proof. apply silent_bind; [apply silent_get_obj|intros; apply silent_set_obj]. Qed.

Lemma silent_copy self deep : silent (Configuration.copy self deep : M _).
Proof.
  unfold Configuration.copy.
  apply silent_bind; [apply silent_get_obj|intros e].
  apply silent_bind.
  { intros st. by destruct (if deep then _ else _). }
  intros new. apply silent_bind; [apply silent_update|intros _].
  apply silent_bind; [apply silent_get_obj|intros e'].
  apply silent_bind; [apply silent_get_list|intros c].
  apply silent_bind; [apply silent_set_list|intros _]. apply silent_ret.
Qed.

Lemma silent_objective_of l : silent (objective_of l : M _).
Proof.
  apply silent_bind; [apply silent_get_obj|intros e].
  destruct (objective e); [apply silent_ret|apply silent_raise].
Qed.

Lemma silent_update_parameters l deltas : silent (update_parameters l deltas : M unit).
Proof.
  induction deltas as [|[key dc] rest IH]; simpl; [apply silent_ret|].
  apply silent_bind; [apply silent_get_obj|intros e].
  apply silent_bind; [apply silent_lift|intros old].
  apply silent_bind; [apply silent_lift|intros new].
  apply silent_bind; [apply silent_lift|intros p].
  apply silent_bind; [apply silent_set_obj|intros _]. apply IH.
Qed.

Lemma silent_apply_perturbation eq y deltas step copy :
  silent (apply_perturbation eq y deltas step copy : M loc).
Proof.
  unfold apply_perturbation.
  apply silent_bind; [destruct copy; [apply silent_copy|apply silent_ret]|intros eq_new].
  apply silent_bind; [apply silent_update_parameters|intros _].
  apply silent_bind.
  { apply silent_when. unfold update_boundary_constraint.
    apply silent_bind; [apply silent_objective_of|intros o].
    apply silent_bind; [apply silent_get_obj|intros e]. apply silent_set_obj. }
  intros _. apply silent_bind; [|intros _; apply silent_ret].
  destruct step as [[dx1 dx2]|]; [|apply silent_ret].
  apply silent_bind; [apply silent_lift|intros dy].
  apply silent_bind; [apply silent_lift|intros y'].
  apply silent_bind; [apply silent_objective_of|intros o].
  apply silent_update.
Qed.

(** *** The dictionary of deltas *)

Lemma add_delta_ignored key d (deltas : list (string * value F)) :
  ignored d → add_delta key d deltas = deltas.
Proof. intros [->|(v & -> & Hz)]; simpl; [done|]. by rewrite Hz. Qed.

Lemma collect_deltas_ignored (dRb dZb dp di dPsi dzeta_ratio : option (value F)) :
  ignored dRb → ignored dZb → ignored dp → ignored di → ignored dPsi →
  ignored dzeta_ratio →
  collect_deltas dRb dZb dp di dPsi dzeta_ratio = [].
Proof.
  intros. unfold collect_deltas. by rewrite !add_delta_ignored.
Qed.

Lemma inds_of_app (d1 d2 : list (string * value F)) i1 i2 :
  inds_of d1 = Ok i1 → inds_of d2 = Ok i2 → inds_of (d1 ++ d2) = Ok (i1 ++ i2).
Proof.
  unfold inds_of. revert i1. induction d1 as [|[k v] d1 IH]; intros i1; simpl.
  - intros ? ?. by simplify_eq.
  - destruct (arg_idx_get k) as [i|]; simpl; [|done].
    destruct (mapM_result _ _) as [js|] eqn:Hm; simpl; [|done].
    intros ? H2. simplify_eq. by rewrite (IH js eq_refl H2).
Qed.

Lemma inds_of_add_delta key i d (deltas : list (string * value F)) inds :
  arg_idx_get key = Ok i → inds_of deltas = Ok inds →
  ∃ inds', inds_of (add_delta key d deltas) = Ok inds'.
Proof.
  intros Hk Hd. unfold add_delta. destruct d as [v|]; [|by eexists].
  destruct (negb _); [|by eexists].
  eexists. apply inds_of_app; [done|]. unfold inds_of. simpl. by rewrite Hk.
Qed.

Lemma inds_of_collect_deltas (dRb dZb dp di dPsi dzeta_ratio : option (value F)) :
  ∃ inds, inds_of (collect_deltas dRb dZb dp di dPsi dzeta_ratio) = Ok inds.
Proof.
  unfold collect_deltas.
  assert (E0 : inds_of ([] : list (string * value F)) = Ok []) by done.
  destruct (inds_of_add_delta "Rb_mn" 1%nat dRb _ _ eq_refl E0) as [i1 E1].
  destruct (inds_of_add_delta "Zb_mn" 2%nat dZb _ _ eq_refl E1) as [i2 E2].
  destruct (inds_of_add_delta "p_l" 3%nat dp _ _ eq_refl E2) as [i3 E3].
  destruct (inds_of_add_delta "i_l" 4%nat di _ _ eq_refl E3) as [i4 E4].
  destruct (inds_of_add_delta "Psi" 5%nat dPsi _ _ eq_refl E4) as [i5 E5].
  exact (inds_of_add_delta "zeta_ratio" 6%nat dzeta_ratio _ _ eq_refl E5).
Qed.

(** *** The run of perturb up to the orders *)

Lemma perturb_run use_jax eq dRb dZb dp di dPsi dzeta_ratio order tr_ratio
    cutoff Jx verbose copy (st : store) (e : Equilibrium) obj tr :
  objs st !! eq = Some e → objective e = Some obj → scalar obj = false →
  unpack_tr_ratio tr_ratio = Ok tr →
  perturb use_jax eq dRb dZb dp di dPsi dzeta_ratio order tr_ratio cutoff Jx
    verbose copy st
  = (let y := project (BC_constraint obj) (_x (coeffs e)) in
     let deltas := collect_deltas dRb dZb dp di dPsi dzeta_ratio in
     let '(r, st', ev) :=
       (step <- perturb_step obj (y, params e) y deltas order tr_ratio cutoff
                  Jx verbose ;;
        apply_perturbation eq y deltas step copy) (built_store eq e st) in
     (r, st', warning use_jax ++ ev)).
Proof.
  intros He Hobj Hsc Htr. unfold perturb.
  rewrite bind_when_emit.
  rewrite (bind_pure _ _ _ _ (get_obj_run _ _ _ He)). rewrite Hobj, Hsc.
  assert (Hb : (when (negb (built e)) (build eq verbose)) st
               = (Ok tt, built_store eq e st, [])).
  { unfold built_store. destruct (built e); simpl; [done|].
    unfold build. by apply update_run. }
  rewrite (bind_ok _ _ _ _ _ _ Hb). rewrite Htr, bind_lift_ok.
  destruct tr as [t1 t2]. simpl.
  destruct (bind _ _ (built_store eq e st)) as [[r st'] ev].
  by destruct use_jax.
Qed.

(** *** The two orders *)

Lemma solve_calls_app (ev1 ev2 : list (event F mat)) :
  solve_calls (ev1 ++ ev2) = solve_calls ev1 ++ solve_calls ev2.
Proof. apply omap_app. Qed.

Lemma first_order_run obj (a : args F) y deltas tr cutoff (Jx : option mat)
    verbose (st : store) s0 inds RHS :
  let J := default (jac_x obj a) Jx in
  first (svd J).1.2 = Ok s0 →
  inds_of deltas = Ok inds →
  iadd (compute obj a) (jvp obj inds (map snd deltas) a) = Ok RHS →
  ∃ pre, solve_calls pre = [] ∧
    first_order obj a y deltas tr cutoff Jx verbose st
    = (rbind (step_of (solve_call J RHS (vscale tr (norm y))))
         (λ dx1, Ok (first_order_of J dx1)),
       st, pre ++ [CallSolve (solve_call J RHS (vscale tr (norm y)))]).
Proof.
  intros J Hs Hi Hadd. unfold first_order.
  exists ((match Jx with
           | None => (if (0 <? verbose)%Z then [Print "Computing df/dx"] else [])
                     ++ [CallJacX a]
           | Some _ => []
           end)
          ++ [CallCompute a]
          ++ (if (0 <? verbose)%Z
              then [Print ("Perturbing " +:+ String.concat ", " (map fst deltas))]
              else [])
          ++ [CallJvp inds (map snd deltas) a]).
  split.
  { rewrite !solve_calls_app. destruct Jx; destruct (0 <? verbose)%Z; done. }
  assert (HJ : ∀ B (k : mat → M B),
    bind (match Jx with
          | None => when (0 <? verbose)%Z (emit (Print "Computing df/dx")) ;;;
                    emit (CallJacX a) ;;; ret (jac_x obj a)
          | Some J0 => ret J0
          end) k st
    = (let '(r, st2, ev2) := k J st in
       (r, st2, (match Jx with
                 | None => (if (0 <? verbose)%Z then [Print "Computing df/dx"] else [])
                           ++ [CallJacX a]
                 | Some _ => []
                 end) ++ ev2))).
  { intros B k. subst J. destruct Jx as [J0|]; simpl.
    - rewrite bind_ret. by destruct (k J0 st) as [[??]?].
    - destruct (0 <? verbose)%Z; unfold bind, when, emit, ret; simpl;
        by destruct (k _ st) as [[??]?]. }
  rewrite HJ. unfold solve_call, first_order_of, step_of.
  destruct (svd J) as [[u s] vt]. destruct (shape J) as [m n].
  simpl in Hs. cbv beta iota zeta. rewrite Hs.
  rewrite bind_lift_ok; cbv beta. rewrite bind_emit; cbv beta.
  rewrite Hi, bind_lift_ok; cbv beta. rewrite bind_when_emit; cbv beta.
  rewrite bind_emit; cbv beta. rewrite Hadd, bind_lift_ok; cbv beta.
  rewrite bind_emit; cbv beta.
  destruct (trust_region_step_exact _) as [[[dx1 hit] alpha]|err].
  - rewrite bind_lift_ok. simpl.
    f_equal; destruct Jx; destruct (0 <? verbose)%Z; reflexivity.
  - rewrite bind_lift_raise. simpl.
    f_equal; destruct Jx; destruct (0 <? verbose)%Z; reflexivity.
Qed.

Lemma second_order_run obj (a : args F) deltas tr verbose J dx1 (st : store)
    inds t RHS :
  inds_of deltas = Ok inds →
  let dc := map snd deltas in
  iadd (scale (of_Q 0.5) (jvp2 obj (ArgInt 0) (ArgInt 0) (DirArr dx1) (DirArr dx1) a))
       (scale (of_Q 0.5)
          (jvp2 obj (ArgTuple inds) (ArgTuple inds) (DirTuple dc) (DirTuple dc) a))
  = Ok t →
  iadd t (jvp2 obj (ArgInt 0) (ArgTuple inds) (DirArr dx1) (DirTuple dc) a) = Ok RHS →
  ∃ pre, solve_calls pre = [] ∧
    second_order obj a deltas tr verbose (first_order_of J dx1) st
    = (step_of (solve_call J RHS (vscale tr (norm dx1))),
       st, pre ++ [CallSolve (solve_call J RHS (vscale tr (norm dx1)))]).
Proof.
  intros Hi dc Ht HR. unfold second_order, solve_call, first_order_of, step_of.
  destruct (svd J) as [[u s] vt]. destruct (shape J) as [m n]. simpl.
  exists ((if (0 <? verbose)%Z then [Print "Computing d^2f/dx^2"] else [])
          ++ [CallJvp2 (ArgInt 0) (ArgInt 0) (DirArr dx1) (DirArr dx1) a;
              CallJvp2 (ArgTuple inds) (ArgTuple inds) (DirTuple dc) (DirTuple dc) a;
              CallJvp2 (ArgInt 0) (ArgTuple inds) (DirArr dx1) (DirTuple dc) a]).
  split; [rewrite solve_calls_app; by destruct (0 <? verbose)%Z|].
  rewrite bind_when_emit; cbv beta. rewrite bind_emit; cbv beta.
  rewrite Hi, bind_lift_ok; cbv beta. rewrite bind_emit; cbv beta.
  fold dc. rewrite Ht, bind_lift_ok; cbv beta. rewrite bind_emit; cbv beta.
  rewrite HR, bind_lift_ok; cbv beta. rewrite bind_emit; cbv beta.
  destruct (trust_region_step_exact _) as [[[dx2 hit] alpha]|err].
  - rewrite bind_lift_ok. simpl. f_equal. by destruct (0 <? verbose)%Z.
  - rewrite bind_lift_raise. simpl. f_equal. by destruct (0 <? verbose)%Z.
Qed.

Lemma perturb_step_order0 obj (a : args F) y deltas order tr cutoff
    (Jx : option mat) verbose (st : store) :
  (order <= 0)%Z →
  perturb_step obj a y deltas order tr cutoff Jx verbose st = (Ok None, st, []).
Proof.
  intros Ho. unfold perturb_step.
  by replace (0 <? order)%Z with false by (symmetry; apply Z.ltb_ge; lia).
Qed.

Lemma perturb_step_order1 obj (a : args F) y deltas tr cutoff (Jx : option mat)
    verbose (st : store) s0 inds RHS :
  let J := default (jac_x obj a) Jx in
  first (svd J).1.2 = Ok s0 →
  inds_of deltas = Ok inds →
  iadd (compute obj a) (jvp obj inds (map snd deltas) a) = Ok RHS →
  ∃ pre, solve_calls pre = [] ∧
    perturb_step obj a y deltas 1 tr cutoff Jx verbose st
    = (rbind (step_of (solve_call J RHS (vscale tr (norm y))))
         (λ dx1, Ok (Some (dx1, Scal (of_Q 0)))),
       st, pre ++ [CallSolve (solve_call J RHS (vscale tr (norm y)))]).
Proof.
  intros J Hs Hi Hadd.
  destruct (first_order_run obj a y deltas tr cutoff Jx verbose st s0 inds RHS
              Hs Hi Hadd) as (pre & Hpre & Hrun).
  exists pre. split; [done|]. unfold perturb_step. simpl.
  fold J in Hrun. destruct (step_of _) as [dx1|err]; simpl in *.
  - rewrite (bind_ok _ _ _ _ _ _ Hrun). rewrite bind_ret. simpl.
    unfold first_order_of. destruct (svd J) as [[??]?], (shape J). simpl.
    by rewrite app_nil_r.
  - by rewrite (bind_raise _ _ _ _ _ _ Hrun).
Qed.

Lemma fo_dx1_first_order_of J (dx1 : list F) : fo_dx1 (first_order_of J dx1) = dx1.
Proof. unfold first_order_of. by destruct (svd J) as [[??]?], (shape J). Qed.

Lemma perturb_step_order2 obj (a : args F) y deltas order tr cutoff
    (Jx : option mat) verbose (st : store) s0 inds RHS dx1 t RHS2 :
  (1 < order)%Z →
  let J := default (jac_x obj a) Jx in
  let dc := map snd deltas in
  first (svd J).1.2 = Ok s0 →
  inds_of deltas = Ok inds →
  iadd (compute obj a) (jvp obj inds dc a) = Ok RHS →
  step_of (solve_call J RHS (vscale tr (norm y))) = Ok dx1 →
  iadd (scale (of_Q 0.5) (jvp2 obj (ArgInt 0) (ArgInt 0) (DirArr dx1) (DirArr dx1) a))
       (scale (of_Q 0.5)
          (jvp2 obj (ArgTuple inds) (ArgTuple inds) (DirTuple dc) (DirTuple dc) a))
  = Ok t →
  iadd t (jvp2 obj (ArgInt 0) (ArgTuple inds) (DirArr dx1) (DirTuple dc) a) = Ok RHS2 →
  ∃ pre1 pre2, solve_calls pre1 = [] ∧ solve_calls pre2 = [] ∧
    perturb_step obj a y deltas order tr cutoff Jx verbose st
    = (rbind (step_of (solve_call J RHS2 (vscale tr (norm dx1))))
         (λ dx2, Ok (Some (dx1, Arr dx2))),
       st,
       pre1 ++ [CallSolve (solve_call J RHS (vscale tr (norm y)))] ++
       pre2 ++ [CallSolve (solve_call J RHS2 (vscale tr (norm dx1)))]).
Proof.
  intros Ho J dc Hs Hi Hadd Hdx1 Ht HR2.
  destruct (first_order_run obj a y deltas tr cutoff Jx verbose st s0 inds RHS
              Hs Hi Hadd) as (pre1 & Hpre1 & Hrun1).
  destruct (second_order_run obj a deltas tr verbose J dx1 st inds t RHS2
              Hi Ht HR2) as (pre2 & Hpre2 & Hrun2).
  exists pre1, pre2. split; [done|]. split; [done|]. unfold perturb_step.
  replace (0 <? order)%Z with true by (symmetry; apply Z.ltb_lt; lia).
  replace (1 <? order)%Z with true by (symmetry; apply Z.ltb_lt; lia).
  fold J in Hrun1. rewrite Hdx1 in Hrun1. simpl in Hrun1.
  rewrite (bind_ok _ _ _ _ _ _ Hrun1).
  destruct (step_of (solve_call J RHS2 _)) as [dx2|err]; simpl in *.
  - erewrite (bind_ok _ (λ dx2, ret _)); last first.
    { rewrite (bind_ok _ _ _ _ _ _ Hrun2). unfold ret. by rewrite app_nil_r. }
    unfold ret. rewrite fo_dx1_first_order_of, app_nil_r.
    by rewrite <- !app_assoc.
  - erewrite (bind_raise _ (λ dx2, ret _)); last first.
    { by rewrite (bind_raise _ _ _ _ _ _ Hrun2). }
    by rewrite <- !app_assoc.
Qed.

(** The trace of perturb is the warning followed by the trace of the two
    orders: applying the perturbation shows nothing. *)
Lemma perturb_events use_jax eq dRb dZb dp di dPsi dzeta_ratio order tr_ratio
    cutoff Jx verbose copy (st : store) (e : Equilibrium) obj tr :
  objs st !! eq = Some e → objective e = Some obj → scalar obj = false →
  unpack_tr_ratio tr_ratio = Ok tr →
  (perturb use_jax eq dRb dZb dp di dPsi dzeta_ratio order tr_ratio cutoff Jx
     verbose copy st).2
  = warning use_jax ++
    (let y := project (BC_constraint obj) (_x (coeffs e)) in
     perturb_step obj (y, params e) y
       (collect_deltas dRb dZb dp di dPsi dzeta_ratio) order tr_ratio cutoff Jx
       verbose (built_store eq e st)).2.
Proof.
  intros He Hobj Hsc Htr. rewrite (perturb_run _ _ _ _ _ _ _ _ _ _ _ _ _ _ _ _ _ _
                                     He Hobj Hsc Htr). cbv zeta.
  unfold bind.
  destruct (perturb_step _ _ _ _ _ _ _ _ _ _) as [[[step|err] st1] ev1]; [|done].
  pose proof (silent_apply_perturbation eq
                (project (BC_constraint obj) (_x (coeffs e)))
                (collect_deltas dRb dZb dp di dPsi dzeta_ratio) step copy st1) as Hsil.
  destruct (apply_perturbation _ _ _ _ _ _) as [[r st2] ev2]. simpl in *.
  subst ev2. by rewrite app_nil_r.
Qed.

(** *** Arithmetic on arrays of one shape *)

Lemma iadd_same_length (a b : list F) :
  length a = length b → iadd a b = Ok (zip_with fadd a b).
Proof. intros Hl. unfold iadd. by rewrite Hl, Nat.eqb_refl. Qed.

Lemma length_scale c (a : list F) : length (scale c a) = length a.
Proof. apply length_map. Qed.

Lemma first_nonempty (s : list F) : s ≠ [] → ∃ s0, first s = Ok s0.
Proof. destruct s as [|s0 s]; [done|]. by exists s0. Qed.

Lemma unpack_tr_ratio_ok (tr : value F) :
  is_ok (unpack_tr_ratio tr) = true → ∃ t, unpack_tr_ratio tr = Ok t.
Proof. destruct (unpack_tr_ratio tr) as [t|]; [by exists t|done]. Qed.

Lemma solve_call_fields J RHS Delta :
  tr_f (solve_call J RHS Delta) = RHS ∧
  tr_Delta (solve_call J RHS Delta) = Delta ∧
  tr_u (solve_call J RHS Delta) = (svd J).1.1 ∧
  tr_s (solve_call J RHS Delta) = (svd J).1.2 ∧
  tr_v (solve_call J RHS Delta) = transpose (svd J).2.
Proof. unfold solve_call. by destruct (svd J) as [[??]?], (shape J). Qed.

(** C2.  When [order >= 2] and the first solve returns [dx1], the solver
    is called a second time; its right-hand side is
    0.5 jvp2(0, 0, dx1, dx1) + 0.5 jvp2(inds, inds, dc, dc)
    + jvp2(0, inds, dx1, dc), and its factors [u], [s], [v] are those of
    the first call, the SVD of [Jx]. *)
Theorem perturb_second_order_rhs use_jax eq dRb dZb dp di dPsi dzeta_ratio
    order tr_ratio cutoff Jx verbose copy (st : store) (e : Equilibrium) obj
    inds dx1 hit alpha :
  objs st !! eq = Some e → objective e = Some obj → scalar obj = false →
  is_ok (unpack_tr_ratio tr_ratio) = true →
  (2 <= order)%Z →
  let y := project (BC_constraint obj) (_x (coeffs e)) in
  let a : args F := (y, params e) in
  let J := default (jac_x obj a) Jx in
  let deltas := collect_deltas dRb dZb dp di dPsi dzeta_ratio in
  let dc := map snd deltas in
  (svd J).1.2 ≠ [] →
  inds_of deltas = Ok inds →
  (∀ i d, length (jvp obj i d a) = length (compute obj a)) →
  (∀ i1 i2 d1 d2, length (jvp2 obj i1 i2 d1 d2 a) = length (compute obj a)) →
  let RHS1 := zip_with fadd (compute obj a) (jvp obj inds dc a) in
  trust_region_step_exact (solve_call J RHS1 (vscale tr_ratio (norm y)))
  = Ok (dx1, hit, alpha) →
  let RHS2 :=
    zip_with fadd
      (zip_with fadd
         (scale (of_Q 0.5)
            (jvp2 obj (ArgInt 0) (ArgInt 0) (DirArr dx1) (DirArr dx1) a))
         (scale (of_Q 0.5)
            (jvp2 obj (ArgTuple inds) (ArgTuple inds) (DirTuple dc) (DirTuple dc) a)))
      (jvp2 obj (ArgInt 0) (ArgTuple inds) (DirArr dx1) (DirTuple dc) a) in
  ∃ c1 c2,
    solve_calls (perturb use_jax eq dRb dZb dp di dPsi dzeta_ratio order
                   tr_ratio cutoff Jx verbose copy st).2 = [c1; c2] ∧
    c1 = solve_call J RHS1 (vscale tr_ratio (norm y)) ∧
    tr_f c2 = RHS2 ∧
    (tr_u c2, tr_s c2, tr_v c2) = (tr_u c1, tr_s c1, tr_v c1) ∧
    (tr_u c1, tr_s c1, tr_v c1) = ((svd J).1.1, (svd J).1.2, transpose (svd J).2).
Proof.
  intros He Hobj Hsc Htr Ho y a J deltas dc Hs Hi Hjvp Hjvp2 RHS1 Hdx1 RHS2.
  destruct (unpack_tr_ratio_ok _ Htr) as [t Ht].
  destruct (first_nonempty _ Hs) as [s0 Hs0].
  exists (solve_call J RHS1 (vscale tr_ratio (norm y))),
         (solve_call J RHS2 (vscale tr_ratio (norm dx1))).
  split; last first.
  { split; [done|].
    destruct (solve_call_fields J RHS1 (vscale tr_ratio (norm y)))
      as (_ & _ & -> & -> & ->).
    destruct (solve_call_fields J RHS2 (vscale tr_ratio (norm dx1)))
      as (-> & _ & -> & -> & ->). done. }
  rewrite (perturb_events _ _ _ _ _ _ _ _ _ _ _ _ _ _ _ _ _ _ He Hobj Hsc Ht).
  cbv zeta. fold y a deltas.
  destruct (perturb_step_order2 obj a y deltas order tr_ratio cutoff Jx verbose
              (built_store eq e st) s0 inds RHS1 dx1
              (zip_with fadd
                 (scale (of_Q 0.5)
                    (jvp2 obj (ArgInt 0) (ArgInt 0) (DirArr dx1) (DirArr dx1) a))
                 (scale (of_Q 0.5)
                    (jvp2 obj (ArgTuple inds) (ArgTuple inds) (DirTuple dc)
                       (DirTuple dc) a)))
              RHS2)
    as (pre1 & pre2 & Hpre1 & Hpre2 & Hrun); try done.
  - lia.
  - apply iadd_same_length. by rewrite Hjvp.
  - unfold step_of. fold J RHS1. by rewrite Hdx1.
  - apply iadd_same_length. by rewrite !length_scale, !Hjvp2.
  - apply iadd_same_length.
    rewrite length_zip_with, !length_scale, !Hjvp2. lia.
  - fold J in Hrun. rewrite Hrun. cbn [snd].
    rewrite !solve_calls_app, Hpre1, Hpre2. by destruct use_jax.
Qed.
End PerturbFacts.

(** ** Copies *)

Section CopyFacts.
Context {F mat : Type} `{Float64 F} `{Linalg F mat} `{Collaborators F mat}.
Local Abbreviation store := (Desc.store F mat).
Local Abbreviation Equilibrium := (Desc.Equilibrium F mat).
Local Abbreviation M := (Desc.M F mat).

Lemma reachable_head (st : store) root :
  ∃ tl, reachable st root = root :: tl.
Proof.
  unfold reachable. induction (length (objs st)) as [|n [tl IH]]; simpl.
  - by exists [].
  - rewrite IH. unfold expand. simpl. by eexists.
Qed.

Lemma deepcopy_spec (st : store) root e :
  objs st !! root = Some e →
  ∃ e' clones ls,
    deepcopy st root
    = ({| objs := objs st ++ e' :: clones; lsts := lsts st ++ ls |},
       length (objs st)) ∧
    same_data e' e.
Proof.
  intros He. unfold deepcopy.
  destruct (reachable_head st root) as [tl ->]. simpl. rewrite He. simpl.
  eexists _, _, _. split; [reflexivity|]. done.
Qed.

Lemma copy_deep_run self (st : store) e c :
  objs st !! self = Some e → lsts st !! _children e = Some c →
  ∃ st' e_new,
    Configuration.copy self true st = (Ok (length (objs st)), st', []) ∧
    objs st' !! length (objs st) = Some e_new ∧
    same_data e_new e ∧
    _parent e_new = Some self ∧
    (∀ l, (l < length (objs st))%nat → objs st' !! l = objs st !! l) ∧
    lsts st' !! _children e = Some (c ++ [length (objs st)]) ∧
    (∀ l, (l < length (lsts st))%nat → l ≠ _children e →
          lsts st' !! l = lsts st !! l).
Proof.
  intros He Hc. unfold Configuration.copy.
  rewrite (bind_pure _ _ _ _ (get_obj_run _ _ _ He)).
  destruct (deepcopy_spec st self e He) as (e' & clones & ls & Hd & Hsame).
  pose proof (lookup_lt_Some _ _ _ He) as Hlt.
  pose proof (lookup_lt_Some _ _ _ Hc) as Hclt.
  erewrite bind_ok; last first. { rewrite Hd. reflexivity. }
  erewrite bind_ok; last first.
  { apply update_run. simpl. apply list_lookup_middle. done. }
  erewrite bind_ok; last first.
  { apply get_obj_run. simpl. rewrite list_lookup_insert_ne by lia.
    by apply lookup_app_l_Some. }
  erewrite bind_ok; last first.
  { apply get_list_run. simpl. by apply lookup_app_l_Some. }
  simpl. eexists _, _. split; [reflexivity|]. simpl.
  split_and!.
  - apply list_lookup_insert_eq. rewrite length_app. simpl. lia.
  - done.
  - done.
  - intros l Hl. rewrite list_lookup_insert_ne by lia. by apply lookup_app_l.
  - apply list_lookup_insert_eq. rewrite length_app. unfold loc in *. lia.
  - intros l Hl Hne. rewrite list_lookup_insert_ne by done. by apply lookup_app_l.
Qed.

(** *** Updating the parameter blocks *)

Lemma bind_assoc {A B C} (m : M A) (f : A → M B) (g : B → M C) (st : store) :
  bind (bind m f) g st = bind m (λ a, bind (f a) g) st.
Proof.
  unfold bind. destruct (m st) as [[[a|err] st1] ev1]; [|done].
  destruct (f a st1) as [[[b|err] st2] ev2]; [|done].
  destruct (g b st2) as [[r st3] ev3]. by rewrite app_assoc.
Qed.

Lemma bind_set_obj {B} l e (k : unit → M B) (st : store) :
  bind (set_obj l e) k st = k tt (put_obj l e st).
Proof.
  rewrite (bind_ok _ _ st tt (put_obj l e st) []) by done.
  by destruct (k tt _) as [[??]?].
Qed.

Lemma put_obj_put_obj l e1 e2 (st : store) :
  put_obj l e2 (put_obj l e1 st) = put_obj l e2 st.
Proof. unfold put_obj. simpl. by rewrite list_insert_insert_eq. Qed.

Lemma put_obj_id l e (st : store) : objs st !! l = Some e → put_obj l e st = st.
Proof. intros He. unfold put_obj. rewrite list_insert_id by done. by destruct st. Qed.

Lemma put_obj_lookup l e (st : store) :
  (l < length (objs st))%nat → objs (put_obj l e st) !! l = Some e.
Proof. intros Hl. by apply list_lookup_insert_eq. Qed.

Lemma put_obj_lookup_ne l l' e (st : store) :
  l ≠ l' → objs (put_obj l e st) !! l' = objs st !! l'.
Proof. intros Hl. by apply list_lookup_insert_ne. Qed.

Lemma put_obj_length l e (st : store) :
  length (objs (put_obj l e st)) = length (objs st).
Proof. apply length_insert. Qed.

Lemma set_params_id (e : Equilibrium) : set_params (params e) e = e.
Proof. by destruct e. Qed.

Lemma set_params_set_params p1 p2 (e : Equilibrium) :
  set_params p2 (set_params p1 e) = set_params p2 e.
Proof. done. Qed.

Lemma bind_ext {A B} (m : M A) (f g : A → M B) (st : store) :
  (∀ a st', f a st' = g a st') → bind m f st = bind m g st.
Proof.
  intros Hfg. unfold bind. destruct (m st) as [[[a|err] st1] ev1]; [|done].
  by rewrite Hfg.
Qed.

Lemma update_parameters_app l d1 d2 (st : store) :
  update_parameters l (d1 ++ d2) st
  = bind (update_parameters l d1) (λ _, update_parameters l d2) st.
Proof.
  revert st. induction d1 as [|[key dc] d1 IH]; intros st; simpl.
  - by rewrite bind_ret.
  - rewrite bind_assoc. apply bind_ext; intros e st1.
    rewrite bind_assoc. apply bind_ext; intros old st2.
    rewrite bind_assoc. apply bind_ext; intros new st3.
    rewrite bind_assoc. apply bind_ext; intros p st4.
    rewrite bind_assoc. apply bind_ext; intros [] st5.
    apply IH.
Qed.

Lemma setattr_getattr_id (p : Params F) key old :
  getattr p key = Ok old → setattr p key old = Ok p.
Proof.
  unfold getattr, setattr. destruct p.
  repeat (destruct (String.eqb key _); [intros; by simplify_eq|]). done.
Qed.

Lemma update_parameters_add l key d deltas (st : store) e p old v p1 :
  objs st !! l = Some e →
  update_parameters l deltas st = (Ok tt, put_obj l (set_params p e) st, []) →
  getattr p key = Ok old → bump d old = Ok v → setattr p key v = Ok p1 →
  update_parameters l (add_delta key d deltas) st
  = (Ok tt, put_obj l (set_params p1 e) st, []).
Proof.
  intros He Hrun Hget Hbump Hset.
  pose proof (lookup_lt_Some _ _ _ He) as Hlt.
  assert (Hsame : v = old → update_parameters l deltas st
                            = (Ok tt, put_obj l (set_params p1 e) st, [])).
  { intros ->. rewrite (setattr_getattr_id _ _ _ Hget) in Hset. by simplify_eq. }
  unfold add_delta, bump in *. destruct d as [v0|]; [|apply Hsame; by simplify_eq].
  destruct (all_zero v0); simpl; [apply Hsame; by simplify_eq|].
  rewrite update_parameters_app. rewrite (bind_ok _ _ _ _ _ _ Hrun). simpl.
  rewrite (bind_pure _ _ _ _ (get_obj_run _ _ _ (put_obj_lookup _ _ _ Hlt))).
  simpl. rewrite Hget, bind_lift_ok, Hbump, bind_lift_ok, Hset, bind_lift_ok.
  rewrite bind_set_obj. by rewrite put_obj_put_obj.
Qed.

Lemma update_parameters_collect l (st : store) e dRb dZb dp di dPsi dzeta_ratio
    rb zb pl il psi zr :
  objs st !! l = Some e →
  bump dRb (_Rb_mn (params e)) = Ok rb →
  bump dZb (_Zb_mn (params e)) = Ok zb →
  bump dp (_p_l (params e)) = Ok pl →
  bump di (_i_l (params e)) = Ok il →
  bump dPsi (_Psi (params e)) = Ok psi →
  bump dzeta_ratio (_zeta_ratio (params e)) = Ok zr →
  update_parameters l (collect_deltas dRb dZb dp di dPsi dzeta_ratio) st
  = (Ok tt,
     put_obj l (set_params {| _Rb_mn := rb; _Zb_mn := zb; _p_l := pl; _i_l := il;
                              _Psi := psi; _zeta_ratio := zr |} e) st, []).
Proof.
  intros He B1 B2 B3 B4 B5 B6. unfold collect_deltas.
  assert (R0 : update_parameters l [] st
               = (Ok tt, put_obj l (set_params (params e) e) st, [])).
  { simpl. unfold ret. by rewrite set_params_id, put_obj_id. }
  destruct (params e) as [rb0 zb0 pl0 il0 psi0 zr0] eqn:Hp. simpl in *.
  pose proof (update_parameters_add l "Rb_mn" dRb [] st e _ _ _ _ He R0 eq_refl B1 eq_refl) as R1.
  pose proof (update_parameters_add l "Zb_mn" dZb _ st e _ _ _ _ He R1 eq_refl B2 eq_refl) as R2.
  pose proof (update_parameters_add l "p_l" dp _ st e _ _ _ _ He R2 eq_refl B3 eq_refl) as R3.
  pose proof (update_parameters_add l "i_l" di _ st e _ _ _ _ He R3 eq_refl B4 eq_refl) as R4.
  pose proof (update_parameters_add l "Psi" dPsi _ st e _ _ _ _ He R4 eq_refl B5 eq_refl) as R5.
  exact (update_parameters_add l "zeta_ratio" dzeta_ratio _ st e _ _ _ _ He R5 eq_refl B6 eq_refl).
Qed.

(** *** Applying the perturbation to a copy *)

Lemma objective_of_run l (st : store) e o :
  objs st !! l = Some e → objective e = Some o →
  objective_of l st = (Ok o, st, []).
Proof.
  intros He Ho. unfold objective_of.
  rewrite (bind_pure _ _ _ _ (get_obj_run _ _ _ He)). by rewrite Ho.
Qed.

Lemma bind_update {B} l f (k : unit → M B) (st : store) e :
  objs st !! l = Some e →
  bind (update l f) k st = k tt (put_obj l (f e) st).
Proof.
  intros He. rewrite (bind_ok _ _ _ _ _ _ (update_run _ _ _ _ He)).
  fold (put_obj l (f e) st). by destruct (k tt _) as [[??]?].
Qed.

Lemma apply_perturbation_copy eq y (st : store) e c obj
    dRb dZb dp di dPsi dzeta_ratio rb zb pl il psi zr step x' :
  objs st !! eq = Some e → lsts st !! _children e = Some c →
  objective e = Some obj →
  bump dRb (_Rb_mn (params e)) = Ok rb →
  bump dZb (_Zb_mn (params e)) = Ok zb →
  bump dp (_p_l (params e)) = Ok pl →
  bump di (_i_l (params e)) = Ok il →
  bump dPsi (_Psi (params e)) = Ok psi →
  bump dzeta_ratio (_zeta_ratio (params e)) = Ok zr →
  let deltas := collect_deltas dRb dZb dp di dPsi dzeta_ratio in
  let b := bases e in
  let bc := if has_key "Rb_mn" deltas || has_key "Zb_mn" deltas
            then BoundaryConstraint (_R_basis b) (_Z_basis b) (_L_basis b)
                   (_Rb_basis b) (_Zb_basis b) rb zb
            else BC_constraint obj in
  match step with
  | Some (dx1, dx2) =>
      ∃ dy y', arr_add dx1 dx2 = Ok dy ∧ broadcast fadd y dy = Ok y' ∧
               x' = recover bc y'
  | None => x' = _x (coeffs e)
  end →
  ∃ st' e_new,
    apply_perturbation eq y deltas step true st
    = (Ok (length (objs st)), st', []) ∧
    objs st' !! length (objs st) = Some e_new ∧
    params e_new = {| _Rb_mn := rb; _Zb_mn := zb; _p_l := pl; _i_l := il;
                      _Psi := psi; _zeta_ratio := zr |} ∧
    coeffs e_new = match step with
                   | Some _ => coeffs (with_x x' e)
                   | None => coeffs e
                   end ∧
    _parent e_new = Some eq ∧
    (∀ l, (l < length (objs st))%nat → objs st' !! l = objs st !! l) ∧
    lsts st' !! _children e = Some (c ++ [length (objs st)]) ∧
    (∀ l, (l < length (lsts st))%nat → l ≠ _children e →
          lsts st' !! l = lsts st !! l).
Proof.
  intros He Hc Hobj B1 B2 B3 B4 B5 B6 deltas b bc Hstep.
  destruct (copy_deep_run eq st e c He Hc)
    as (st_c & e_c & Hcopy & Hnew & Hsame & Hpar & Hold & Hch & Hlst).
  destruct Hsame as (Hres & Hbas & Hco & Hpa & Hob & Hbu).
  set (new := length (objs st)) in *.
  pose proof (lookup_lt_Some _ _ _ Hnew) as Hlt.
  set (p' := {| _Rb_mn := rb; _Zb_mn := zb; _p_l := pl; _i_l := il;
                _Psi := psi; _zeta_ratio := zr |}).
  set (e1 := set_params p' e_c).
  set (e2 := if has_key "Rb_mn" deltas || has_key "Zb_mn" deltas
             then set_objective (Some (set_BC_constraint bc obj)) e1 else e1).
  assert (Ho2 : ∃ o2, objective e2 = Some o2 ∧ BC_constraint o2 = bc).
  { subst e2 bc. destruct (has_key "Rb_mn" deltas || has_key "Zb_mn" deltas).
    - by eexists.
    - exists obj. split; [|done]. simpl. by rewrite Hob. }
  destruct Ho2 as (o2 & Ho2 & Hbc2).
  assert (Hrun2 : (update_parameters new deltas ;;;
                   when (has_key "Rb_mn" deltas || has_key "Zb_mn" deltas)
                     (update_boundary_constraint new)) st_c
                  = (Ok tt, put_obj new e2 st_c, [])).
  { erewrite bind_ok; last first.
    { apply (update_parameters_collect new st_c e_c); [done|by rewrite Hpa..]. }
    fold p' e1. subst e2 bc.
    destruct (has_key "Rb_mn" deltas || has_key "Zb_mn" deltas); simpl.
    - unfold update_boundary_constraint.
      rewrite (bind_pure _ _ _ obj
                 (objective_of_run _ _ e1 obj (put_obj_lookup _ _ _ Hlt)
                    ltac:(simpl; by rewrite Hob))).
      rewrite (bind_pure _ _ _ _ (get_obj_run _ _ _ (put_obj_lookup _ _ _ Hlt))).
      unfold set_obj, put_obj. simpl. rewrite list_insert_insert_eq.
      by rewrite Hbas.
    - done. }
  unfold apply_perturbation. rewrite (bind_ok _ _ _ _ _ _ Hcopy).
  rewrite <- bind_assoc. rewrite (bind_ok _ _ _ _ _ _ Hrun2).
  assert (Hlt2 : (new < length (objs (put_obj new e2 st_c)))%nat)
    by by rewrite put_obj_length.
  destruct step as [[dx1 dx2]|].
  - destruct Hstep as (dy & y' & Hdy & Hy' & ->).
    rewrite Hdy, bind_assoc, bind_lift_ok, bind_assoc.
    rewrite Hy', bind_lift_ok, bind_assoc.
    rewrite (bind_pure _ _ _ o2
               (objective_of_run _ _ e2 o2 (put_obj_lookup _ _ _ Hlt) Ho2)).
    cbv beta. unfold x_setter.
    rewrite (bind_update _ _ _ _ e2 (put_obj_lookup _ _ _ Hlt)).
    rewrite put_obj_put_obj. unfold ret. simpl.
    eexists _, _. split; [reflexivity|]. split_and!.
    + by apply put_obj_lookup.
    + subst e2 e1. unfold with_x.
      by destruct (has_key "Rb_mn" deltas || has_key "Zb_mn" deltas).
    + rewrite Hbc2. subst e2 e1. unfold with_x, unpack_state. simpl.
      destruct (has_key "Rb_mn" deltas || has_key "Zb_mn" deltas);
        simpl; by rewrite Hbas.
    + subst e2 e1. unfold with_x.
      by destruct (has_key "Rb_mn" deltas || has_key "Zb_mn" deltas).
    + intros l Hl. rewrite put_obj_lookup_ne by lia. by apply Hold.
    + done.
    + done.
  - rewrite bind_ret. unfold ret. simpl.
    eexists _, _. split; [reflexivity|]. split_and!.
    + by apply put_obj_lookup.
    + subst e2 e1. by destruct (has_key "Rb_mn" deltas || has_key "Zb_mn" deltas).
    + subst e2 e1.
      destruct (has_key "Rb_mn" deltas || has_key "Zb_mn" deltas); simpl; done.
    + subst e2 e1. by destruct (has_key "Rb_mn" deltas || has_key "Zb_mn" deltas).
    + intros l Hl. rewrite put_obj_lookup_ne by lia. by apply Hold.
    + done.
    + done.
Qed.

(** *** What a run leaves untouched *)

Lemma readonly_bind {A B} (m : M A) (k : A → M B) :
  readonly m → (∀ a, readonly (k a)) → readonly (bind m k).
Proof.
  intros Hm Hk st. unfold bind. specialize (Hm st).
  destruct (m st) as [[[a|err] st1] ev1]; simpl in *; subst; [|done].
  specialize (Hk a st). by destruct (k a st) as [[r st2] ev2].
Qed.

Lemma readonly_emit ev : readonly (emit ev : M unit).
Proof. done. Qed.
Lemma readonly_ret {A} (a : A) : readonly (ret a : M A).
Proof. done. Qed.
Lemma readonly_lift {A} (r : result A) : readonly (lift r : M A).
Proof. done. Qed.
Lemma readonly_when b (m : M unit) : readonly m → readonly (when b m).
Proof. by destruct b. Qed.

Lemma readonly_first_order obj a y deltas tr cutoff Jx verbose :
  readonly (first_order obj a y deltas tr cutoff Jx verbose).
Proof.
  unfold first_order. apply readonly_bind.
  { destruct Jx; [apply readonly_ret|].
    apply readonly_bind; [apply readonly_when, readonly_emit|intros _].
    apply readonly_bind; [apply readonly_emit|intros _]. apply readonly_ret. }
  intros J. destruct (svd J) as [[u s] vt], (shape J) as [m n].
  apply readonly_bind; [apply readonly_lift|intros s0].
  apply readonly_bind; [apply readonly_emit|intros _].
  apply readonly_bind; [apply readonly_lift|intros inds].
  apply readonly_bind; [apply readonly_when, readonly_emit|intros _].
  apply readonly_bind; [apply readonly_emit|intros _].
  apply readonly_bind; [apply readonly_lift|intros RHS].
  apply readonly_bind; [apply readonly_emit|intros _].
  apply readonly_bind; [apply readonly_lift|intros [[dx1 hit] alpha]].
  apply readonly_ret.
Qed.

Lemma readonly_second_order obj a deltas tr verbose fo :
  readonly (second_order obj a deltas tr verbose fo).
Proof.
  unfold second_order.
  apply readonly_bind; [apply readonly_when, readonly_emit|intros _].
  apply readonly_bind; [apply readonly_emit|intros _].
  apply readonly_bind; [apply readonly_lift|intros inds].
  apply readonly_bind; [apply readonly_emit|intros _].
  apply readonly_bind; [apply readonly_lift|intros RHS].
  apply readonly_bind; [apply readonly_emit|intros _].
  apply readonly_bind; [apply readonly_lift|intros RHS2].
  apply readonly_bind; [apply readonly_emit|intros _].
  apply readonly_bind; [apply readonly_lift|intros [[dx2 hit] alpha]].
  apply readonly_ret.
Qed.

Lemma readonly_perturb_step obj a y deltas order tr cutoff Jx verbose :
  readonly (perturb_step obj a y deltas order tr cutoff Jx verbose).
Proof.
  unfold perturb_step. destruct (0 <? order)%Z; [|apply readonly_ret].
  apply readonly_bind; [apply readonly_first_order|intros fo].
  apply readonly_bind; [|intros; apply readonly_ret].
  destruct (1 <? order)%Z; [|apply readonly_ret].
  apply readonly_bind; [apply readonly_second_order|intros; apply readonly_ret].
Qed.

Lemma writes_only_bind {A B} l (m : M A) (k : A → M B) :
  writes_only l m → (∀ a, writes_only l (k a)) → writes_only l (bind m k).
Proof.
  intros Hm Hk st l' Hl. unfold bind. specialize (Hm st l' Hl).
  destruct (m st) as [[[a|err] st1] ev1]; simpl in *; [|done].
  specialize (Hk a st1 l' Hl). destruct (k a st1) as [[r st2] ev2].
  simpl in *. congruence.
Qed.

Lemma writes_only_readonly {A} l (m : M A) : readonly m → writes_only l m.
Proof. intros Hm st l' _. by rewrite Hm. Qed.

Lemma readonly_get_obj l : readonly (get_obj l : M _).
Proof. intros st. unfold get_obj. by destruct (objs st !! l). Qed.
Lemma readonly_raise {A} e : readonly (raise e : M A).
Proof. done. Qed.

Lemma writes_only_set_obj l e : writes_only l (set_obj l e : M _).
Proof. intros st l' Hl. simpl. by rewrite list_lookup_insert_ne. Qed.

Lemma writes_only_update l (f : Equilibrium → Equilibrium) :
  writes_only l (update l f : M unit).
Proof.
  apply writes_only_bind; [apply writes_only_readonly, readonly_get_obj|].
  intros e. apply writes_only_set_obj.
Qed.

Lemma readonly_objective_of l : readonly (objective_of l : M _).
Proof.
  apply readonly_bind; [apply readonly_get_obj|intros e].
  destruct (objective e); [apply readonly_ret|apply readonly_raise].
Qed.

Lemma writes_only_update_parameters l deltas :
  writes_only l (update_parameters l deltas : M unit).
Proof.
  induction deltas as [|[key dc] rest IH]; simpl.
  { apply writes_only_readonly, readonly_ret. }
  apply writes_only_bind; [apply writes_only_readonly, readonly_get_obj|intros e].
  apply writes_only_bind; [apply writes_only_readonly, readonly_lift|intros old].
  apply writes_only_bind; [apply writes_only_readonly, readonly_lift|intros new].
  apply writes_only_bind; [apply writes_only_readonly, readonly_lift|intros p].
  apply writes_only_bind; [apply writes_only_set_obj|intros _]. apply IH.
Qed.

Lemma writes_only_after_copy l y deltas step :
  writes_only l
    (update_parameters l deltas ;;;
     when (has_key "Rb_mn" deltas || has_key "Zb_mn" deltas)
       (update_boundary_constraint l) ;;;
     match step with
     | Some (dx1, dx2) =>
         dy <- lift (arr_add dx1 dx2) ;;
         y' <- lift (broadcast fadd y dy) ;;
         o <- objective_of l ;;
         x_setter l (recover (BC_constraint o) y')
     | None => ret tt
     end ;;;
     ret l : M loc).
Proof.
  apply writes_only_bind; [apply writes_only_update_parameters|intros _].
  apply writes_only_bind.
  { destruct (_ || _); simpl; [|apply writes_only_readonly, readonly_ret].
    unfold update_boundary_constraint.
    apply writes_only_bind; [apply writes_only_readonly, readonly_objective_of|].
    intros o.
    apply writes_only_bind; [apply writes_only_readonly, readonly_get_obj|].
    intros e. apply writes_only_set_obj. }
  intros _. apply writes_only_bind; [|intros; apply writes_only_readonly, readonly_ret].
  destruct step as [[dx1 dx2]|]; [|apply writes_only_readonly, readonly_ret].
  apply writes_only_bind; [apply writes_only_readonly, readonly_lift|intros dy].
  apply writes_only_bind; [apply writes_only_readonly, readonly_lift|intros y'].
  apply writes_only_bind; [apply writes_only_readonly, readonly_objective_of|].
  intros o. apply writes_only_update.
Qed.

(** A copy writes none of the objects that were there, and the location
    it returns is a new one. *)
Lemma copy_frame self deep (st : store) e :
  objs st !! self = Some e →
  (∀ l, (l < length (objs st))%nat →
        objs (Configuration.copy self deep st).1.2 !! l = objs st !! l) ∧
  (∀ new, (Configuration.copy self deep st).1.1 = Ok new →
          new = length (objs st)).
Proof.
  intros He. pose proof (lookup_lt_Some _ _ _ He) as Hlt.
  unfold Configuration.copy.
  rewrite (bind_pure _ _ _ _ (get_obj_run _ _ _ He)).
  assert (Hal : ∃ e' rest ls,
             (if deep then deepcopy st self else shallowcopy st e)
             = ({| objs := objs st ++ e' :: rest; lsts := ls |}, length (objs st))).
  { destruct deep.
    - destruct (deepcopy_spec st self e He) as (e' & clones & ls & -> & _).
      by eexists _, _, _.
    - by eexists _, _, _. }
  destruct Hal as (e' & rest & ls & Hal).
  erewrite bind_ok; last first. { rewrite Hal. reflexivity. }
  erewrite bind_ok; last first.
  { apply update_run. simpl. by apply list_lookup_middle. }
  erewrite bind_ok; last first.
  { apply get_obj_run. simpl. rewrite list_lookup_insert_ne by lia.
    by apply lookup_app_l_Some. }
  unfold bind, get_list, set_list, ret. simpl.
  destruct (ls !! _children e) as [c|]; simpl.
  - split; [|by intros ? [= <-]].
    intros l Hl. rewrite list_lookup_insert_ne by lia. by apply lookup_app_l.
  - split; [|done].
    intros l Hl. rewrite list_lookup_insert_ne by lia. by apply lookup_app_l.
Qed.

Lemma apply_perturbation_frame eq y deltas step (st : store) e :
  objs st !! eq = Some e →
  objs (apply_perturbation eq y deltas step true st).1.2 !! eq = Some e.
Proof.
  intros He. pose proof (lookup_lt_Some _ _ _ He) as Hlt.
  destruct (copy_frame eq true st e He) as [Hold Hnew].
  unfold apply_perturbation, bind at 1.
  destruct (Configuration.copy eq true st) as [[[new|err] st1] ev1] eqn:Hc;
    simpl in *; [|by rewrite Hold].
  specialize (Hnew new eq_refl). subst new.
  pose proof (writes_only_after_copy (length (objs st)) y deltas step st1 eq
                ltac:(lia)) as Hw.
  destruct (bind _ _ st1) as [[r st2] ev2]. simpl in *.
  by rewrite Hw, Hold.
Qed.

Lemma built_store_lookup eq (st : store) e :
  objs st !! eq = Some e →
  objs (built_store eq e st) !! eq = Some (built_eq e) ∧
  length (objs (built_store eq e st)) = length (objs st) ∧
  lsts (built_store eq e st) = lsts st.
Proof.
  intros He. unfold built_store, built_eq. destruct (built e); [done|]. simpl.
  split; [|by rewrite length_insert].
  apply list_lookup_insert_eq. by eapply lookup_lt_Some.
Qed.

Lemma built_eq_data (e : Equilibrium) :
  coeffs (built_eq e) = coeffs e ∧ params (built_eq e) = params e ∧
  bases (built_eq e) = bases e ∧ objective (built_eq e) = objective e ∧
  _children (built_eq e) = _children e.
Proof. unfold built_eq. by destruct (built e). Qed.

Lemma bump_ignored d (old : value F) : ignored d → bump d old = Ok old.
Proof. intros [->|(v & -> & Hz)]; simpl; [done|]. by rewrite Hz. Qed.

Lemma perturb_frame use_jax eq dRb dZb dp di dPsi dzeta_ratio order tr_ratio
    cutoff Jx verbose (st : store) e :
  objs st !! eq = Some e →
  ∃ e', objs (perturb use_jax eq dRb dZb dp di dPsi dzeta_ratio order tr_ratio
                cutoff Jx verbose true st).1.2 !! eq = Some e' ∧
        coeffs e' = coeffs e ∧ params e' = params e.
Proof.
  intros He.
  destruct (objective e) as [obj|] eqn:Hobj; last first.
  { destruct (perturb_raise_run use_jax eq dRb dZb dp di dPsi dzeta_ratio
                order tr_ratio cutoff Jx verbose true st e He) as [msg ->];
      [by left|]. by exists e. }
  destruct (scalar obj) eqn:Hsc.
  { destruct (perturb_raise_run use_jax eq dRb dZb dp di dPsi dzeta_ratio
                order tr_ratio cutoff Jx verbose true st e He) as [msg ->];
      [right; by exists obj|]. by exists e. }
  destruct (built_store_lookup eq st e He) as (Hb & _ & _).
  destruct (built_eq_data e) as (Hco & Hpa & _).
  exists (built_eq e). split; [|done].
  destruct (unpack_tr_ratio tr_ratio) as [t|err] eqn:Htr.
  - rewrite (perturb_run _ _ _ _ _ _ _ _ _ _ _ _ _ _ _ _ _ _ He Hobj Hsc Htr).
    cbv zeta. unfold bind at 1.
    pose proof (readonly_perturb_step obj
                  (project (BC_constraint obj) (_x (coeffs e)), params e)
                  (project (BC_constraint obj) (_x (coeffs e)))
                  (collect_deltas dRb dZb dp di dPsi dzeta_ratio) order tr_ratio
                  cutoff Jx verbose (built_store eq e st)) as Hro.
    destruct (perturb_step _ _ _ _ _ _ _ _ _ _) as [[[step|err] st1] ev1];
      simpl in Hro; subst st1; [|done].
    pose proof (apply_perturbation_frame eq
                  (project (BC_constraint obj) (_x (coeffs e)))
                  (collect_deltas dRb dZb dp di dPsi dzeta_ratio) step
                  _ _ Hb) as Hf.
    by destruct (apply_perturbation _ _ _ _ _ _) as [[r st2] ev2].
  - unfold perturb. rewrite bind_when_emit.
    rewrite (bind_pure _ _ _ _ (get_obj_run _ _ _ He)). rewrite Hobj, Hsc.
    assert (Hbs : (when (negb (built e)) (build eq verbose)) st
                  = (Ok tt, built_store eq e st, [])).
    { unfold built_store. destruct (built e); simpl; [done|].
      unfold build. by apply update_run. }
    rewrite (bind_ok _ _ _ _ _ _ Hbs). rewrite Htr, bind_lift_raise. done.
Qed.

Lemma perturb_copy_run use_jax eq dRb dZb dp di dPsi dzeta_ratio order tr_ratio
    cutoff Jx verbose (st : store) e :
  objs st !! eq = Some e →
  let run := perturb use_jax eq dRb dZb dp di dPsi dzeta_ratio order tr_ratio
               cutoff Jx verbose true st in
  (∀ obj c rb zb pl il psi zr step x',
     objective e = Some obj → scalar obj = false →
     is_ok (unpack_tr_ratio tr_ratio) = true →
     lsts st !! _children e = Some c →
     bump dRb (_Rb_mn (params e)) = Ok rb →
     bump dZb (_Zb_mn (params e)) = Ok zb →
     bump dp (_p_l (params e)) = Ok pl →
     bump di (_i_l (params e)) = Ok il →
     bump dPsi (_Psi (params e)) = Ok psi →
     bump dzeta_ratio (_zeta_ratio (params e)) = Ok zr →
     let y := project (BC_constraint obj) (_x (coeffs e)) in
     let deltas := collect_deltas dRb dZb dp di dPsi dzeta_ratio in
     let b := bases e in
     let bc := if has_key "Rb_mn" deltas || has_key "Zb_mn" deltas
               then BoundaryConstraint (_R_basis b) (_Z_basis b) (_L_basis b)
                      (_Rb_basis b) (_Zb_basis b) rb zb
               else BC_constraint obj in
     (perturb_step obj (y, params e) y deltas order tr_ratio cutoff Jx verbose
        (built_store eq e st)).1.1 = Ok step →
     match step with
     | Some (dx1, dx2) =>
         ∃ dy y', arr_add dx1 dx2 = Ok dy ∧ broadcast fadd y dy = Ok y' ∧
                  x' = recover bc y'
     | None => x' = _x (coeffs e)
     end →
     ∃ e_new,
       run.1.1 = Ok (length (objs st)) ∧
       objs st !! length (objs st) = None ∧
       objs run.1.2 !! length (objs st) = Some e_new ∧
       params e_new = {| _Rb_mn := rb; _Zb_mn := zb; _p_l := pl; _i_l := il;
                         _Psi := psi; _zeta_ratio := zr |} ∧
       coeffs e_new = match step with
                      | Some _ => coeffs (with_x x' e)
                      | None => coeffs e
                      end ∧
       _parent e_new = Some eq ∧
       lsts run.1.2 !! _children e = Some (c ++ [length (objs st)])).
Proof.
  intros He run.
  intros obj c rb zb pl il psi zr step x' Hobj Hsc Htr Hc B1 B2 B3 B4 B5 B6
    y deltas b bc Hstep Hx.
  destruct (unpack_tr_ratio_ok _ Htr) as [t Ht].
  destruct (built_store_lookup eq st e He) as (Hb & Hlen & Hls).
  destruct (built_eq_data e) as (Hco & Hpa & Hba & Hob & Hch).
  subst run.
  rewrite (perturb_run _ _ _ _ _ _ _ _ _ _ _ _ _ _ _ _ _ _ He Hobj Hsc Ht).
  cbv zeta. fold y deltas.
  pose proof (readonly_perturb_step obj (y, params e) y deltas order tr_ratio
                cutoff Jx verbose (built_store eq e st)) as Hro.
  destruct (perturb_step _ _ _ _ _ _ _ _ _ _) as [[r st1] ev1] eqn:Hps.
  simpl in Hro, Hstep. subst st1 r.
  rewrite (bind_ok _ _ _ _ _ _ Hps).
  destruct (apply_perturbation_copy eq y (built_store eq e st) (built_eq e) c obj
              dRb dZb dp di dPsi dzeta_ratio rb zb pl il psi zr step x')
    as (st' & e_new & Hrun & Hnew & Hp & Hcf & Hpar & _ & Hl & _).
  { done. }
  { by rewrite Hch, Hls. }
  { by rewrite Hob. }
  1-6: by rewrite Hpa.
  { rewrite Hba, Hco. exact Hx. }
  fold deltas in Hrun. rewrite Hrun, Hlen in *. simpl.
  exists e_new. split_and!; try done.
  - apply lookup_ge_None. lia.
  - rewrite Hcf. destruct step; [|done]. unfold with_x. by rewrite Hba.
  - by rewrite <- Hch.
Qed.


(** C6, as amended.  For an equilibrium whose objective is assigned and
    not scalar, perturb with every delta None or zero, [order = 0] and
    [copy = True] returns a new object whose state vector, blocks and
    parameter blocks are those of the input; the state vector and the
    parameter blocks of the input are as they were (its children list has
    gained the copy). *)
Theorem perturb_noop_copy use_jax eq dRb dZb dp di dPsi dzeta_ratio tr_ratio
    cutoff Jx verbose (st : store) e obj c :
  objs st !! eq = Some e →
  objective e = Some obj → scalar obj = false →
  lsts st !! _children e = Some c →
  ignored dRb → ignored dZb → ignored dp → ignored di → ignored dPsi →
  ignored dzeta_ratio →
  is_ok (unpack_tr_ratio tr_ratio) = true →
  let run := perturb use_jax eq dRb dZb dp di dPsi dzeta_ratio 0 tr_ratio
               cutoff Jx verbose true st in
  ∃ e_new e',
    run.1.1 = Ok (length (objs st)) ∧
    objs st !! length (objs st) = None ∧
    objs run.1.2 !! length (objs st) = Some e_new ∧
    coeffs e_new = coeffs e ∧ params e_new = params e ∧
    objs run.1.2 !! eq = Some e' ∧
    coeffs e' = coeffs e ∧ params e' = params e.
Proof.
  intros He Hobj Hsc Hc I1 I2 I3 I4 I5 I6 Htr run.
  destruct (perturb_frame use_jax eq dRb dZb dp di dPsi dzeta_ratio 0 tr_ratio
              cutoff Jx verbose st e He) as (e' & He' & Hco' & Hpa').
  destruct (perturb_copy_run use_jax eq dRb dZb dp di dPsi dzeta_ratio 0 tr_ratio
              cutoff Jx verbose st e He
              obj c _ _ _ _ _ _ None (_x (coeffs e)) Hobj Hsc Htr Hc
              (bump_ignored _ _ I1) (bump_ignored _ _ I2) (bump_ignored _ _ I3)
              (bump_ignored _ _ I4) (bump_ignored _ _ I5) (bump_ignored _ _ I6))
    as (e_new & Hr & Hfresh & Hnew & Hp & Hcf & _).
  { by rewrite perturb_step_order0. }
  { done. }
  exists e_new, e'. split_and!; try done.
  rewrite Hp. by destruct (params e).
Qed.
End CopyFacts.

(** ** The radius of the trust region *)

Section Radius.
Context {F mat : Type} `{Float64 F} `{Linalg F mat} `{Collaborators F mat}.
Local Abbreviation store := (Desc.store F mat).
Local Abbreviation Equilibrium := (Desc.Equilibrium F mat).
Local Abbreviation M := (Desc.M F mat).

Lemma bind_events_prefix {A B} (m : M A) (k : A → M B) (st : store) :
  ∃ rest, (bind m k st).2 = (m st).2 ++ rest.
Proof.
  unfold bind. destruct (m st) as [[[a|err] st1] ev1]; simpl.
  - destruct (k a st1) as [[r st2] ev2]. by exists ev2.
  - exists []. by rewrite app_nil_r.
Qed.

(** C1 (the code departs from the claim).  With [tr_ratio = (r1, r2)] and
    [order > 0] the radius of the first solve is the array
    [(r1 * norm(y), r2 * norm(y))], the whole of [tr_ratio] times the
    norm, and not the float [r1 * norm(y)]: [tr_ratio1] and [tr_ratio2] are
    unpacked and never used. *)
Theorem perturb_pair_tr_ratio_radius use_jax eq dRb dZb dp di dPsi dzeta_ratio
    order (r1 r2 : F) cutoff Jx verbose copy (st : store) (e : Equilibrium) obj :
  objs st !! eq = Some e → objective e = Some obj → scalar obj = false →
  (0 < order)%Z →
  let y := project (BC_constraint obj) (_x (coeffs e)) in
  let a : args F := (y, params e) in
  let J := default (jac_x obj a) Jx in
  (svd J).1.2 ≠ [] →
  (∀ i d, length (jvp obj i d a) = length (compute obj a)) →
  ∃ c rest,
    solve_calls (perturb use_jax eq dRb dZb dp di dPsi dzeta_ratio order
                   (Arr [r1; r2]) cutoff Jx verbose copy st).2 = c :: rest ∧
    tr_Delta c = Arr [fmul r1 (norm y); fmul r2 (norm y)] ∧
    tr_Delta c ≠ Scal (fmul r1 (norm y)).
Proof.
  intros He Hobj Hsc Ho y a J Hs Hjvp.
  destruct (first_nonempty _ Hs) as [s0 Hs0].
  destruct (inds_of_collect_deltas dRb dZb dp di dPsi dzeta_ratio) as [inds Hi].
  rewrite (perturb_events use_jax eq dRb dZb dp di dPsi dzeta_ratio order
             (Arr [r1; r2]) cutoff Jx verbose copy st e obj (r1, r2)
             He Hobj Hsc eq_refl).
  cbv zeta. fold y a. unfold perturb_step.
  replace (0 <? order)%Z with true by (symmetry; apply Z.ltb_lt; lia).
  destruct (first_order_run obj a y
              (collect_deltas dRb dZb dp di dPsi dzeta_ratio) (Arr [r1; r2])
              cutoff Jx verbose (built_store eq e st) s0 inds _ Hs0 Hi
              (iadd_same_length _ _ (eq_sym (Hjvp _ _))))
    as (pre & Hpre & Hrun).
  match goal with
  | |- context [bind ?m ?k ?s] =>
      destruct (bind_events_prefix m k s) as [rest ->]
  end.
  fold J in Hrun. rewrite Hrun. cbn [snd].
  eexists _, _. split.
  { rewrite !solve_calls_app, Hpre. destruct use_jax; reflexivity. }
  destruct (solve_call_fields J
              (zip_with fadd (compute obj a)
                 (jvp obj inds
                    (map snd (collect_deltas dRb dZb dp di dPsi dzeta_ratio)) a))
              (vscale (Arr [r1; r2]) (norm y))) as (_ & -> & _).
  done.
Qed.
End Radius.

(** ** The cutoff and the threshold of the solver *)

Section Threshold.
Context {F mat : Type} `{Float64 F} `{Linalg F mat} `{Collaborators F mat}.
Local Abbreviation store := (Desc.store F mat).
Local Abbreviation Equilibrium := (Desc.Equilibrium F mat).
Local Abbreviation M := (Desc.M F mat).

Lemma emits_bind {A B} P (m : M A) (k : A → M B) :
  emits P m → (∀ a, emits P (k a)) → emits P (bind m k).
Proof.
  intros Hm Hk st. unfold bind. specialize (Hm st).
  destruct (m st) as [[[a|err] st1] ev1]; simpl in *; [|done].
  specialize (Hk a st1). destruct (k a st1) as [[r st2] ev2]. simpl in *.
  by apply Forall_app.
Qed.

Lemma emits_silent {A} P (m : M A) : silent m → emits P m.
Proof. intros Hm st. rewrite Hm. constructor. Qed.

Lemma emits_emit P ev : P ev → emits P (emit ev : M unit).
Proof. intros HP st. simpl. by repeat constructor. Qed.

Lemma emits_when P b (m : M unit) : emits P m → emits P (when b m).
Proof. destruct b; [done|]. intros _. apply emits_silent, silent_ret. Qed.

Lemma emits_first_order obj a y deltas tr cutoff Jx verbose :
  emits constant_threshold (first_order obj a y deltas tr cutoff Jx verbose).
Proof.
  unfold first_order. apply emits_bind.
  { destruct Jx; [apply emits_silent, silent_ret|].
    apply emits_bind; [by apply emits_when, emits_emit|intros _].
    apply emits_bind; [by apply emits_emit|intros _].
    apply emits_silent, silent_ret. }
  intros J. destruct (svd J) as [[u s] vt], (shape J) as [m n].
  apply emits_bind; [apply emits_silent, silent_lift|intros s0].
  apply emits_bind; [by apply emits_emit|intros _].
  apply emits_bind; [apply emits_silent, silent_lift|intros inds].
  apply emits_bind; [by apply emits_when, emits_emit|intros _].
  apply emits_bind; [by apply emits_emit|intros _].
  apply emits_bind; [apply emits_silent, silent_lift|intros RHS].
  apply emits_bind; [by apply emits_emit|intros _].
  apply emits_bind; [apply emits_silent, silent_lift|intros [[dx1 hit] alpha]].
  apply emits_silent, silent_ret.
Qed.

Lemma emits_second_order obj a deltas tr verbose fo :
  emits constant_threshold (second_order obj a deltas tr verbose fo).
Proof.
  unfold second_order.
  apply emits_bind; [by apply emits_when, emits_emit|intros _].
  apply emits_bind; [by apply emits_emit|intros _].
  apply emits_bind; [apply emits_silent, silent_lift|intros inds].
  apply emits_bind; [by apply emits_emit|intros _].
  apply emits_bind; [apply emits_silent, silent_lift|intros RHS].
  apply emits_bind; [by apply emits_emit|intros _].
  apply emits_bind; [apply emits_silent, silent_lift|intros RHS2].
  apply emits_bind; [by apply emits_emit|intros _].
  apply emits_bind; [apply emits_silent, silent_lift|intros [[dx2 hit] alpha]].
  apply emits_silent, silent_ret.
Qed.

Lemma emits_perturb use_jax eq dRb dZb dp di dPsi dzeta_ratio order tr_ratio
    cutoff Jx verbose copy :
  emits constant_threshold
    (perturb use_jax eq dRb dZb dp di dPsi dzeta_ratio order tr_ratio cutoff Jx
       verbose copy).
Proof.
  unfold perturb.
  apply emits_bind; [by apply emits_when, emits_emit|intros _].
  apply emits_bind; [apply emits_silent, silent_get_obj|intros e].
  destruct (objective e) as [obj|]; [|apply emits_silent, silent_raise].
  destruct (scalar obj); [apply emits_silent, silent_raise|].
  apply emits_bind.
  { apply emits_silent, silent_when. unfold build. apply silent_update. }
  intros _. apply emits_bind; [apply emits_silent, silent_lift|intros [t1 t2]].
  apply emits_bind; [|intros step; apply emits_silent, silent_apply_perturbation].
  unfold perturb_step. destruct (0 <? order)%Z; [|apply emits_silent, silent_ret].
  apply emits_bind; [apply emits_first_order|intros fo].
  apply emits_bind; [|intros; apply emits_silent, silent_ret].
  destruct (1 <? order)%Z; [|apply emits_silent, silent_ret].
  apply emits_bind; [apply emits_second_order|intros; apply emits_silent, silent_ret].
Qed.

(** C4 (the code departs from the claim).  The argument [cutoff] has no
    effect on a run of perturb: the pseudo-inverse computed with it is not
    used, and every call of the solver is given the constant threshold
    1e-6. *)
Theorem perturb_ignores_cutoff use_jax eq dRb dZb dp di dPsi dzeta_ratio
    order tr_ratio (cutoff cutoff' : F) Jx verbose copy (st : store) :
  perturb use_jax eq dRb dZb dp di dPsi dzeta_ratio order tr_ratio cutoff Jx
    verbose copy st
  = perturb use_jax eq dRb dZb dp di dPsi dzeta_ratio order tr_ratio cutoff' Jx
      verbose copy st ∧
  Forall (λ c, tr_threshold c = of_Q 1e-6)
    (solve_calls (perturb use_jax eq dRb dZb dp di dPsi dzeta_ratio order
                    tr_ratio cutoff Jx verbose copy st).2).
Proof.
  split; [reflexivity|].
  pose proof (emits_perturb use_jax eq dRb dZb dp di dPsi dzeta_ratio order
                tr_ratio cutoff Jx verbose copy st) as Hev.
  induction Hev as [|ev evs Hev _ IH]; [constructor|].
  destruct ev; simpl; try done. by constructor.
Qed.

End Threshold.

(** ** Runs on explicit inputs *)

Section PerturbExamples.
Import OneDim.

Lemma perturb_pair_tr_ratio_radius_witness :
  ∃ c rest,
    solve_calls (perturb true 0%nat None None None None None None 1
                   (Arr [0.1%Q; 0.2%Q]) 1e-6%Q None 0 true square_store).2
    = c :: rest ∧
    tr_Delta c = Arr [(0.1 * norm [3%Q])%Q; (0.2 * norm [3%Q])%Q] ∧
    tr_Delta c ≠ Scal (0.1 * norm [3%Q])%Q.
Proof.
  refine (perturb_pair_tr_ratio_radius true 0%nat None None None None None None 1
            0.1%Q 0.2%Q 1e-6%Q None 0 true square_store square_eq
            (square_residual false) eq_refl eq_refl eq_refl eq_refl _ _).
  - intros Hn. vm_compute in Hn. discriminate Hn.
  - reflexivity.
Defined.

(** Copies of the child of a family.  A deep copy copies the child (to 2),
    its parent (to 3) and their lists; the copy of the parent has the copy
    of the child as its child.  A shallow copy shares the children list of
    the child, to which the copy is appended. *)
Example copy_family :
  (let r := Configuration.copy 1%nat true family in (r.1.1, lineage r.1.2))
  = (Ok 2%nat,
     ([(None, 0%nat); (Some 0%nat, 1%nat); (Some 1%nat, 2%nat); (None, 3%nat)],
      [[1%nat]; [2%nat]; []; [2%nat]])) ∧
  (let r := Configuration.copy 1%nat false family in (r.1.1, lineage r.1.2))
  = (Ok 2%nat,
     ([(None, 0%nat); (Some 0%nat, 1%nat); (Some 1%nat, 1%nat)],
      [[1%nat]; [2%nat]])).
Proof. split; vm_compute; reflexivity. Qed.

(** [perturb(eq, order=1, tr_ratio=(0.1, 0.2))] with [y = [3]]: the one
    solve is given the radius [(0.3, 0.6)]. *)
Example perturb_pair_radius_example :
  map tr_Delta
    (solve_calls (perturb true 0%nat None None None None None None 1
                    (Arr [0.1%Q; 0.2%Q]) 1e-6%Q None 0 true square_store).2)
  = [Arr [0.3%Q; 0.6%Q]].
Proof. vm_compute. reflexivity. Qed.

(** [perturb(eq, order=1, cutoff=c)] with [y = [3]], [Psi = 4]: the
    Jacobian has the singular value 6 and the residual is 5.  With
    [cutoff = 10] the threshold [cutoff * s[0]] is 60, above the singular
    value, so that the pseudo-inverse with cutoff is zero; the step is
    the same 0.3 as with [cutoff = 1e-6], and the new state is 3.3. *)
Example perturb_cutoff_example :
  ∀ cutoff, cutoff ∈ [1e-6%Q; 10%Q] →
    _x ∘ coeffs <$>
      objs (perturb true 0%nat None None None None None None 1 (Scal 0.1%Q)
              cutoff None 0 true square_store).1.2 !! 1%nat
    = Some [3.3%Q; 0%Q; 0%Q].
Proof.
  intros cutoff Hc.
  rewrite (perturb_ignores_cutoff_run cutoff 1e-6%Q). vm_compute. reflexivity.
Qed.

Lemma perturb_rejects_objective_witness :
  let run := perturb false 0%nat None None None None None None 2 (Scal 0.1%Q)
               1e-6%Q None 1 true (store0 None true) in
  ∃ msg,
    run.1.1 = Raise (AttributeError msg) ∧
    run.1.2 = store0 None true ∧
    run.2 = [Warn jax_warning] ∧
    Forall (λ ev, is_objective_call ev = false) run.2 ∧
    solve_calls run.2 = [].
Proof.
  refine (perturb_rejects_objective false 0%nat None None None None None None 2
            (Scal 0.1%Q) 1e-6%Q None 1 true (store0 None true) (eq0 None true)
            eq_refl _).
  left. reflexivity.
Defined.

(** C5, as stated, fails: the exception raised for a missing objective
    and for a scalar objective is an AttributeError, not a
    ConfigurationError. *)
Lemma perturb_raises_attribute_error :
  (∃ e, (perturb true 0%nat None None None None None None 2 (Scal 0.1%Q)
           1e-6%Q None 1 true (store0 None true)).1.1 = Raise e ∧
        exn_class e = "AttributeError" ∧ exn_class e ≠ "ConfigurationError") ∧
  (∃ e, (perturb true 0%nat None None None None None None 2 (Scal 0.1%Q)
           1e-6%Q None 1 true (store0 (Some (square_residual true)) true)).1.1
        = Raise e ∧
        exn_class e = "AttributeError" ∧ exn_class e ≠ "ConfigurationError").
Proof.
  split; eexists; (split; [vm_compute; reflexivity|]); split;
    [reflexivity|discriminate|reflexivity|discriminate].
Qed.

Lemma perturb_noop_copy_witness :
  ∃ e_new e',
    let run := perturb true 0%nat None (Some (Arr [0%Q])) None None
                 (Some (Scal 0%Q)) None 0 (Scal 0.1%Q) 1e-6%Q None 1 true
                 square_store in
    run.1.1 = Ok 1%nat ∧
    objs square_store !! 1%nat = None ∧
    objs run.1.2 !! 1%nat = Some e_new ∧
    coeffs e_new = coeffs square_eq ∧ params e_new = params square_eq ∧
    objs run.1.2 !! 0%nat = Some e' ∧
    coeffs e' = coeffs square_eq ∧ params e' = params square_eq.
Proof.
  refine (perturb_noop_copy true 0%nat None (Some (Arr [0%Q])) None None
            (Some (Scal 0%Q)) None (Scal 0.1%Q) 1e-6%Q None 1 square_store
            square_eq (square_residual false) [] eq_refl eq_refl eq_refl eq_refl
            _ _ _ _ _ _ eq_refl);
    first [by left | right; eexists; split; reflexivity].
Defined.

(** C6, as stated, fails: a built equilibrium whose objective is scalar.
    perturb with no delta and [order = 0] raises, and the store holds no
    new equilibrium. *)
Lemma perturb_noop_scalar_objective_raises :
  let run := perturb true 0%nat None None None None None None 0 (Scal 0.1%Q)
               1e-6%Q None 1 true (store0 (Some (square_residual true)) true) in
  built (eq0 (Some (square_residual true)) true) = true ∧
  run.1.1 = Raise (AttributeError
                     "Cannot perturb with a scalar objective square_residual") ∧
  length (objs run.1.2) = 1%nat.
Proof. vm_compute. done. Qed.

Lemma perturb_second_order_rhs_witness :
  ∃ c1 c2,
    solve_calls (perturb true 0%nat None None None None (Some (Scal 1%Q)) None 2
                   (Scal 0.1%Q) 1e-6%Q None 0 true square_store).2 = [c1; c2] ∧
    c1 = solve_call (jac_x (square_residual false) ([3%Q], params square_eq))
           [(5 + - (1 + 0))%Q] (vscale (Scal 0.1%Q) (norm [3%Q])) ∧
    tr_f c2 = [(0.5 * (2 * 0.3 * 0.3) + 0.5 * 0 + 0)%Q] ∧
    (tr_u c2, tr_s c2, tr_v c2) = (tr_u c1, tr_s c1, tr_v c1) ∧
    (tr_u c1, tr_s c1, tr_v c1) = (1%Q, [6%Q], 1%Q).
Proof.
  refine (perturb_second_order_rhs true 0%nat None None None None
            (Some (Scal 1%Q)) None 2 (Scal 0.1%Q) 1e-6%Q None 0 true square_store
            square_eq (square_residual false) [5%nat] [0.3%Q] true (132 # 3)%Q
            eq_refl eq_refl eq_refl eq_refl _ _ eq_refl _ _ eq_refl).
  - discriminate.
  - intros Hn. vm_compute in Hn. discriminate Hn.
  - reflexivity.
  - intros [] [] [] []; reflexivity.
Defined.


End PerturbExamples.

(** ** The labels of the state vector *)

Section DictFacts.
Context {K V : Type} `{EqDecision K}.
Implicit Types (d l : list (K * V)).

Lemma dict_get_set_eq k v d : dict_get k (dict_set k v d) = Some v.
Proof.
  induction d as [|[k' v'] d IH]; simpl.
  - by rewrite decide_True.
  - destruct (decide (k' = k)) as [->|Hne]; simpl.
    + by rewrite decide_True.
    + by rewrite decide_False.
Qed.

Lemma dict_get_set_ne k k' v d :
  k ≠ k' → dict_get k' (dict_set k v d) = dict_get k' d.
Proof.
  intros Hne. induction d as [|[k0 v0] d IH]; simpl.
  - by rewrite decide_False.
  - destruct (decide (k0 = k)) as [->|Hne0]; simpl.
    + by rewrite !decide_False.
    + destruct (decide (k0 = k')); [done|apply IH].
Qed.

Lemma dict_get_None k d : dict_get k d = None ↔ k ∉ d.*1.
Proof.
  induction d as [|[k' v'] d IH]; simpl.
  - split; [intros _; apply not_elem_of_nil|done].
  - destruct (decide (k' = k)) as [->|Hne].
    + split; [done|]. intros Hn. destruct Hn. by left.
    + rewrite IH, not_elem_of_cons.
      split; [intros Hn; split; [congruence|done]|by intros [_ Hn]].
Qed.

Lemma dict_get_Some_elem k v d : dict_get k d = Some v → (k, v) ∈ d.
Proof.
  induction d as [|[k' v'] d IH]; simpl; [done|].
  destruct (decide (k' = k)) as [->|Hne].
  - intros [= ->]. by left.
  - intros Hg. right. by apply IH.
Qed.

Lemma dict_get_elem k v d : NoDup d.*1 → (k, v) ∈ d → dict_get k d = Some v.
Proof.
  induction d as [|[k' v'] d IH]; simpl.
  - intros _ Hin. by apply elem_of_nil in Hin.
  - rewrite NoDup_cons. intros [Hnin Hnd] Hin.
    apply elem_of_cons in Hin as [[= -> ->]|Hin].
    + by rewrite decide_True.
    + destruct (decide (k' = k)) as [->|Hne]; [|by apply IH].
      destruct Hnin. apply list_elem_of_fmap. by exists (k, v).
Qed.

Lemma dict_set_fresh k v d : k ∉ d.*1 → dict_set k v d = d ++ [(k, v)].
Proof.
  induction d as [|[k' v'] d IH]; simpl; [done|].
  rewrite not_elem_of_cons. intros [Hne Hnin].
  rewrite decide_False by done. by rewrite IH.
Qed.

Lemma dict_set_keys k v d : (dict_set k v d).*1 ⊆ k :: d.*1.
Proof.
  induction d as [|[k' v'] d IH]; simpl; [done|].
  intros x. destruct (decide (k' = k)) as [->|Hne]; simpl.
  - intros Hx. by right.
  - rewrite !elem_of_cons. intros [->|Hx]; [auto|].
    apply IH in Hx. apply elem_of_cons in Hx as [->|Hx]; auto.
Qed.

Lemma foldl_dict_set_fresh d l :
  NoDup (d.*1 ++ l.*1) →
  foldl (λ d kv, dict_set kv.1 kv.2 d) d l = d ++ l.
Proof.
  revert d. induction l as [|[k v] l IH]; intros d Hnd; simpl.
  - by rewrite app_nil_r.
  - simpl in Hnd. rewrite dict_set_fresh.
    + rewrite IH; [by rewrite <- app_assoc|].
      rewrite fmap_app. simpl. by rewrite <- app_assoc.
    + apply NoDup_app in Hnd as (_ & Hd & _). intros Hin.
      apply (Hd k Hin). by left.
Qed.

Lemma dict_of_NoDup l : NoDup l.*1 → dict_of l = l.
Proof. intros Hnd. unfold dict_of. by rewrite foldl_dict_set_fresh. Qed.

Lemma foldl_dict_set_keys d l :
  (foldl (λ d kv, dict_set kv.1 kv.2 d) d l).*1 ⊆ d.*1 ++ l.*1.
Proof.
  revert d. induction l as [|[k v] l IH]; intros d; simpl.
  - by rewrite app_nil_r.
  - etrans; [apply IH|]. intros x. rewrite !elem_of_app, elem_of_cons.
    intros [Hx|Hx]; [|auto].
    apply dict_set_keys in Hx. apply elem_of_cons in Hx as [->|Hx]; auto.
Qed.

Lemma dict_of_keys l : (dict_of l).*1 ⊆ l.*1.
Proof. apply (foldl_dict_set_keys [] l). Qed.

Lemma foldl_dict_set_elem d l k v :
  dict_get k (foldl (λ d kv, dict_set kv.1 kv.2 d) d l) = Some v →
  (k, v) ∈ l ∨ dict_get k d = Some v.
Proof.
  revert d. induction l as [|[k0 v0] l IH]; intros d; simpl; [auto|].
  intros Hg. apply IH in Hg as [Hin|Hg]; [left; by right|].
  destruct (decide (k0 = k)) as [->|Hne].
  - rewrite dict_get_set_eq in Hg. simplify_eq. left. by left.
  - rewrite dict_get_set_ne in Hg by done. by right.
Qed.

Lemma dict_of_elem l k v : dict_get k (dict_of l) = Some v → (k, v) ∈ l.
Proof. intros Hg. by apply foldl_dict_set_elem in Hg as [?|?]. Qed.

End DictFacts.

Section LabelFacts.

Lemma append_inj_l (p s1 s2 : string) : p +:+ s1 = p +:+ s2 → s1 = s2.
Proof. induction p as [|c p IH]; simpl; [done|]. intros [= Hs]. by apply IH. Qed.

Lemma pretty_N_go_no_comma (x : N) (s : string) :
  no_comma s → no_comma (pretty_N_go x s).
Proof.
  revert s. induction (N.lt_wf_0 x) as [x _ IH]; intros s Hs.
  assert (x = 0 ∨ 0 < x)%N as [->|Hx] by lia.
  - by rewrite pretty_N_go_0.
  - rewrite pretty_N_go_step by done. apply IH.
    { by apply N.div_lt. }
    split; [|done]. unfold pretty_N_char. by repeat case_match.
Qed.

Lemma pretty_Z_no_comma (z : Z) : no_comma (pretty z).
Proof.
  assert (HN : ∀ n : N, no_comma (pretty n)).
  { intros n. unfold pretty, pretty_N. case_decide; [done|].
    by apply pretty_N_go_no_comma. }
  destruct z as [|p|p]; [done|apply HN|].
  split; [done|apply HN].
Qed.

Lemma comma_split (s1 s2 t1 t2 : string) :
  no_comma s1 → no_comma s2 →
  s1 +:+ String "," t1 = s2 +:+ String "," t2 → s1 = s2 ∧ t1 = t2.
Proof.
  revert s2. induction s1 as [|c s1 IH]; intros [|c2 s2]; simpl.
  - by intros _ _ [= ->].
  - intros _ [Hc _] [= <- _]. done.
  - intros [Hc _] _ [= -> _]. done.
  - intros [_ H1] [_ H2] [= -> Hs]. destruct (IH s2 H1 H2 Hs) as [-> ->]. done.
Qed.

Lemma format3_inj (p : string) : Inj (=) (=) (format3 p).
Proof.
  intros [[l m] n] [[l' m'] n']. unfold format3. intros Hs.
  apply append_inj_l in Hs.
  destruct (comma_split (pretty l) (pretty l') _ _ (pretty_Z_no_comma l)
              (pretty_Z_no_comma l') Hs) as [Hl Hs'].
  destruct (comma_split (pretty m) (pretty m') _ _ (pretty_Z_no_comma m)
              (pretty_Z_no_comma m') Hs') as [Hm Hn].
  by rewrite (inj pretty _ _ Hl), (inj pretty _ _ Hm), (inj pretty _ _ Hn).
Qed.

Lemma format3_head (c1 c2 : ascii) (p1 p2 : string) md1 md2 :
  c1 ≠ c2 → format3 (String c1 p1) md1 ≠ format3 (String c2 p2) md2.
Proof. destruct md1 as [[??]?], md2 as [[??]?]. simpl. by intros Hc [= ? _]. Qed.

Lemma format3_not_char (c : ascii) (p : string) md x :
  format3 (String c (String x p)) md ≠ String c EmptyString.
Proof. by destruct md as [[??]?]. Qed.

(** *** [enumerate] *)

Lemma enumerate_keys {A} (l : list A) :
  (enumerate l).*1 = Z.of_nat <$> seq 0 (length l).
Proof.
  unfold enumerate. apply list_eq. intros i.
  rewrite !list_lookup_fmap, list_lookup_imap.
  destruct (l !! i) as [a|] eqn:Hl; simpl.
  - rewrite lookup_seq_lt; [done|]. by eapply lookup_lt_Some.
  - rewrite lookup_seq_ge; [done|]. by apply lookup_ge_None.
Qed.

Lemma enumerate_NoDup {A} (l : list A) : NoDup (enumerate l).*1.
Proof.
  rewrite enumerate_keys. apply NoDup_fmap_2; [apply _|apply NoDup_seq].
Qed.

Lemma elem_of_enumerate {A} (l : list A) (i : Z) (a : A) :
  (i, a) ∈ enumerate l ↔ (0 ≤ i)%Z ∧ l !! Z.to_nat i = Some a.
Proof.
  unfold enumerate. rewrite elem_of_lookup_imap. split.
  - intros (k & y & [= -> ->] & Hl). split; [lia|]. by rewrite Nat2Z.id.
  - intros [Hi Hl]. exists (Z.to_nat i), a. split; [|done].
    f_equal. lia.
Qed.

Lemma dict_get_enumerate {A} (l : list A) (i : Z) :
  dict_get i (enumerate l) = if decide (0 ≤ i)%Z then l !! Z.to_nat i else None.
Proof.
  destruct (dict_get i (enumerate l)) as [a|] eqn:Hg.
  - apply dict_get_Some_elem, elem_of_enumerate in Hg as [Hi Hl].
    by rewrite decide_True.
  - apply dict_get_None in Hg. case_decide as Hi; [|done].
    destruct (l !! Z.to_nat i) as [a|] eqn:Hl; [|done].
    destruct Hg. apply list_elem_of_fmap. exists (i, a). split; [done|].
    by apply elem_of_enumerate.
Qed.

Lemma xlabel_make (b : Bases) : xlabel (_make_labels b) = enumerate (x_label b).
Proof. unfold _make_labels. simpl. apply dict_of_NoDup, enumerate_NoDup. Qed.

Lemma xlabel_get (b : Bases) (i : Z) :
  dict_get i (xlabel (_make_labels b))
  = if decide (0 ≤ i)%Z then x_label b !! Z.to_nat i else None.
Proof. rewrite xlabel_make. apply dict_get_enumerate. Qed.

Lemma rev_xlabel_make (b : Bases) :
  rev_xlabel (_make_labels b)
  = dict_of (map (λ iv, (iv.2, iv.1)) (enumerate (x_label b))).
Proof.
  unfold _make_labels. simpl. f_equal. f_equal.
  apply dict_of_NoDup, enumerate_NoDup.
Qed.

Lemma x_label_length (b : Bases) :
  length (x_label b)
  = (num_modes (_R_basis b) + num_modes (_Z_basis b) + num_modes (_L_basis b))%nat.
Proof. unfold x_label, num_modes. rewrite !length_app, !length_map. lia. Qed.

Lemma x_label_NoDup (b : Bases) :
  NoDup (modes (_R_basis b)) → NoDup (modes (_Z_basis b)) →
  NoDup (modes (_L_basis b)) → NoDup (x_label b).
Proof.
  intros HR HZ HL. unfold x_label.
  apply NoDup_app. split; [apply (NoDup_fmap_2 _ (Inj0 := format3_inj _)); done|].
  split.
  - intros s Hs Hin. apply list_elem_of_fmap in Hs as (md & -> & _).
    apply elem_of_app in Hin as [Hin|Hin];
      apply list_elem_of_fmap in Hin as (md' & Heq & _);
      by apply format3_head in Heq.
  - apply NoDup_app. split; [apply (NoDup_fmap_2 _ (Inj0 := format3_inj _)); done|].
    split; [|apply (NoDup_fmap_2 _ (Inj0 := format3_inj _)); done].
    intros s Hs Hin. apply list_elem_of_fmap in Hs as (md & -> & _).
    apply list_elem_of_fmap in Hin as (md' & Heq & _).
    by apply format3_head in Heq.
Qed.

End LabelFacts.

Section LabelTheorems.
Context {F : Type}.

Lemma x_label_lookup (b : Bases) (k : nat) md :
  let nR := num_modes (_R_basis b) in
  let nZ := num_modes (_Z_basis b) in
  (modes (_R_basis b) !! k = Some md → x_label b !! k = Some (format3 "R_" md)) ∧
  (modes (_Z_basis b) !! k = Some md →
     x_label b !! (nR + k)%nat = Some (format3 "Z_" md)) ∧
  (modes (_L_basis b) !! k = Some md →
     x_label b !! (nR + nZ + k)%nat = Some (format3 "L_" md)).
Proof.
  intros nR nZ. unfold x_label. split_and!; intros Hk.
  - apply lookup_app_l_Some. by rewrite list_lookup_fmap, Hk.
  - rewrite lookup_app_r by (rewrite length_map; unfold nR, num_modes; lia).
    rewrite length_map. replace (nR + k - _)%nat with k by (unfold nR, num_modes; lia).
    apply lookup_app_l_Some. by rewrite list_lookup_fmap, Hk.
  - rewrite lookup_app_r by (rewrite length_map; unfold nR, num_modes; lia).
    rewrite lookup_app_r by (rewrite !length_map; unfold nR, nZ, num_modes; lia).
    rewrite !length_map.
    replace (nR + nZ + k - _ - _)%nat with k by (unfold nR, nZ, num_modes; lia).
    by rewrite list_lookup_fmap, Hk.
Qed.

Lemma get_xlabel_int (b : Bases) (k : nat) :
  get_xlabel_by_idx (_make_labels b) (IdxInt (Z.of_nat k)) = [x_label b !! k].
Proof.
  unfold get_xlabel_by_idx, atleast_1d. cbn [map]. rewrite xlabel_get.
  rewrite decide_True by lia. by rewrite Nat2Z.id.
Qed.

(** X1.  The labels follow the layout of the state vector
    [x = concatenate([R_lmn, Z_lmn, L_lmn])]: when [R_lmn] and [Z_lmn] have
    one coefficient per mode, the label at the index of the [k]-th
    coefficient of a block is the prefix of the block ([R_], [Z_], [L_])
    followed by the [k]-th mode [l,m,n] of its basis. *)
Theorem xlabel_names_block_entry (b : Bases) (R Z L : list F) (k : nat) md :
  length R = num_modes (_R_basis b) → length Z = num_modes (_Z_basis b) →
  let lab := _make_labels b in
  let x := concatenate R Z L in
  let nR := num_modes (_R_basis b) in
  let nZ := num_modes (_Z_basis b) in
  (modes (_R_basis b) !! k = Some md →
     get_xlabel_by_idx lab (IdxInt (Z.of_nat k)) = [Some (format3 "R_" md)] ∧
     x !! k = R !! k) ∧
  (modes (_Z_basis b) !! k = Some md →
     get_xlabel_by_idx lab (IdxInt (Z.of_nat (nR + k))) = [Some (format3 "Z_" md)] ∧
     x !! (nR + k)%nat = Z !! k) ∧
  (modes (_L_basis b) !! k = Some md →
     get_xlabel_by_idx lab (IdxInt (Z.of_nat (nR + nZ + k)))
     = [Some (format3 "L_" md)] ∧
     x !! (nR + nZ + k)%nat = L !! k).
Proof.
  intros HR HZ lab x nR nZ.
  destruct (x_label_lookup b k md) as (LR & LZ & LL).
  subst lab x nR nZ. unfold concatenate. split_and!; intros Hk.
  - rewrite get_xlabel_int, (LR Hk). split; [done|].
    apply lookup_app_l. rewrite HR. by eapply lookup_lt_Some.
  - rewrite get_xlabel_int, (LZ Hk). split; [done|].
    rewrite lookup_app_r by lia. rewrite <- HR.
    replace (length R + k - length R)%nat with k by lia.
    apply lookup_app_l. rewrite HZ. by eapply lookup_lt_Some.
  - rewrite get_xlabel_int, (LL Hk). split; [done|].
    rewrite lookup_app_r by lia. rewrite lookup_app_r by lia.
    f_equal. lia.
Qed.

(** X2.  [get_xlabel_by_idx] returns one entry per index asked for, and
    the entry is None exactly for the indices outside
    [0 .. num_modes(R) + num_modes(Z) + num_modes(L) - 1]: a negative index
    does not count from the end. *)
Theorem xlabel_defined_on_range (b : Bases) (idx : list Z) :
  let n := (num_modes (_R_basis b) + num_modes (_Z_basis b)
            + num_modes (_L_basis b))%nat in
  Forall2 (λ i r, r = None ↔ (i < 0 ∨ Z.of_nat n ≤ i)%Z) idx
    (get_xlabel_by_idx (_make_labels b) (IdxArr idx)).
Proof.
  intros n. unfold get_xlabel_by_idx. cbn [atleast_1d].
  apply Forall2_fmap_r, Forall_Forall2_diag, Forall_forall. intros i _.
  unfold compose. rewrite xlabel_get. case_decide as Hi.
  - rewrite lookup_ge_None, x_label_length. fold n. lia.
  - split; [lia|done].
Qed.

(** X3.  From an index to its label and back: when no basis lists a mode
    twice, the index that [get_idx_by_xlabel] finds for the label of the
    index [i] is [i]. *)
Theorem xlabel_idx_round_trip (b : Bases) (i : Z) (s : string) :
  NoDup (modes (_R_basis b)) → NoDup (modes (_Z_basis b)) →
  NoDup (modes (_L_basis b)) →
  get_xlabel_by_idx (_make_labels b) (IdxInt i) = [Some s] →
  get_idx_by_xlabel (_make_labels b) (LSeq [s]) = [Some i].
Proof.
  intros HR HZ HL. unfold get_xlabel_by_idx, get_idx_by_xlabel, atleast_1d.
  cbn [map].
  intros Hg0.
  assert (Hg : dict_get i (xlabel (_make_labels b)) = Some s) by congruence.
  clear Hg0. f_equal. rewrite xlabel_make in Hg.
  apply dict_get_Some_elem in Hg.
  rewrite rev_xlabel_make.
  assert (Hnd : NoDup (map (λ iv : Z * string, (iv.2, iv.1))
                          (enumerate (x_label b))).*1).
  { rewrite <- list_fmap_compose.
    assert (Hv : (enumerate (x_label b)).*2 = x_label b).
    { unfold enumerate. apply list_eq. intros j.
      rewrite list_lookup_fmap, list_lookup_imap. by destruct (_ !! j). }
    change (NoDup (enumerate (x_label b)).*2). rewrite Hv.
    by apply x_label_NoDup. }
  rewrite dict_of_NoDup by done. apply dict_get_elem; [done|].
  apply list_elem_of_fmap. by exists (i, s).
Qed.

(** X4.  From a label to its index and back: the index that
    [get_idx_by_xlabel] finds for a label carries that label, and a
    string that is no label of the configuration gets None. *)
Theorem xlabel_label_round_trip (b : Bases) (s : string) :
  (∀ i, get_idx_by_xlabel (_make_labels b) (LSeq [s]) = [Some i] →
        get_xlabel_by_idx (_make_labels b) (IdxInt i) = [Some s]) ∧
  (s ∉ x_label b → get_idx_by_xlabel (_make_labels b) (LSeq [s]) = [None]).
Proof.
  unfold get_xlabel_by_idx, get_idx_by_xlabel, atleast_1d. cbn [map]. split.
  - intros i Hg0.
    assert (Hg : dict_get s (rev_xlabel (_make_labels b)) = Some i) by congruence.
    clear Hg0. f_equal. rewrite rev_xlabel_make in Hg.
    apply dict_of_elem, list_elem_of_fmap in Hg as ([j t] & [= -> ->] & Hin).
    rewrite xlabel_make. apply dict_get_elem; [apply enumerate_NoDup|done].
  - intros Hs. f_equal. apply dict_get_None. rewrite rev_xlabel_make.
    intros Hin. apply dict_of_keys in Hin.
    apply list_elem_of_fmap in Hin as ([t j] & -> & Hin).
    apply list_elem_of_fmap in Hin as ([j' t'] & [= -> ->] & Hin).
    apply elem_of_enumerate in Hin as [_ Hl]. simpl in Hs.
    destruct Hs. by eapply list_elem_of_lookup_2.
Qed.

Lemma x_label_not_char (b : Bases) (c : ascii) :
  String c EmptyString ∉ x_label b.
Proof.
  unfold x_label. rewrite !elem_of_app. intros [Hin|[Hin|Hin]];
    apply list_elem_of_fmap in Hin as ([[l m] n] & Heq & _); simpl in Heq;
    discriminate Heq.
Qed.

(** X5.  A label given to [get_idx_by_xlabel] as a string, not in a
    list or tuple, is split into its characters: the result has one entry
    per character, and every entry is None. *)
Theorem xlabel_of_string_is_none (b : Bases) (s : string) :
  get_idx_by_xlabel (_make_labels b) (LStr s)
  = replicate (String.length s) None.
Proof.
  unfold get_idx_by_xlabel.
  induction s as [|c s IH]; cbn [chars map String.length replicate]; [done|].
  f_equal; [|done].
  apply dict_get_None. rewrite rev_xlabel_make. intros Hin.
  apply dict_of_keys in Hin.
  apply list_elem_of_fmap in Hin as ([t j] & Heq & Hin). simpl in Heq. subst t.
  apply list_elem_of_fmap in Hin as ([j' t'] & [= <- <-] & Hin).
  apply elem_of_enumerate in Hin as [_ Hl].
  apply (x_label_not_char b c). by eapply list_elem_of_lookup_2.
Qed.

End LabelTheorems.

(** ** Changing the resolution *)

Section ResolutionFacts.
Context {F mat : Type} `{Collaborators F mat}.
Local Abbreviation store := (Desc.store F mat).
Local Abbreviation Equilibrium := (Desc.Equilibrium F mat).

Lemma changed_default (new : option Z) (old : Z) :
  (if changed new old then default old new else old) = default old new.
Proof.
  unfold changed. destruct new as [v|]; simpl; [|done].
  destruct (Z.eqb_spec v old) as [->|Hne]; done.
Qed.

Lemma changed_after (new : option Z) (old : Z) :
  changed new (default old new) = false.
Proof. unfold changed. destruct new as [v|]; simpl; [|done]. by rewrite Z.eqb_refl. Qed.

Lemma change_resolution_rec_resolution L M N (e : Equilibrium) :
  let r := resolution e in
  resolution (change_resolution_rec L M N e)
  = {| _sym := _sym r; _NFP := _NFP r;
       _L := default (_L r) L; _M := default (_M r) M; _N := default (_N r) N;
       _index := _index r; _bdry_mode := _bdry_mode r;
       _R_sym := _R_sym r; _Z_sym := _Z_sym r |}.
Proof.
  intros r. unfold change_resolution_rec. fold r.
  pose proof (changed_default L (_L r)) as DL.
  pose proof (changed_default M (_M r)) as DM.
  pose proof (changed_default N (_N r)) as DN.
  revert DL DM DN.
  destruct (changed L (_L r)), (changed M (_M r)), (changed N (_N r));
    intros DL DM DN; simpl; rewrite <- ?DL, <- ?DM, <- ?DN; try done.
  subst r. by destruct (resolution e).
Qed.

Lemma change_resolution_rec_fixed L M N (e : Equilibrium) :
  change_resolution_rec L M N (change_resolution_rec L M N e)
  = change_resolution_rec L M N e.
Proof.
  set (e' := change_resolution_rec L M N e).
  unfold change_resolution_rec at 1.
  unfold e' at 1 2 3. rewrite change_resolution_rec_resolution. cbn [_L _M _N].
  by rewrite !changed_after.
Qed.

(** X6.  [change_resolution] is idempotent: a second call with the same
    arguments finds nothing to change and leaves the store as the first
    call left it. *)
Theorem change_resolution_idempotent (self : loc) L M N (st : store) :
  (change_resolution self L M N ;;; change_resolution self L M N) st
  = change_resolution self L M N st.
Proof.
  unfold change_resolution.
  destruct (objs st !! self) as [e|] eqn:He.
  - rewrite (bind_ok _ _ _ _ _ _ (update_run _ _ _ _ He)).
    erewrite update_run; last first.
    { simpl. apply list_lookup_insert_eq. by eapply lookup_lt_Some. }
    rewrite (update_run _ _ _ _ He). simpl.
    by rewrite list_insert_insert_eq, change_resolution_rec_fixed.
  - unfold update, bind, get_obj. by rewrite He.
Qed.

Lemma changed_false (new : option Z) (old : Z) :
  changed new old = false ↔ default old new = old.
Proof.
  unfold changed. destruct new as [v|]; simpl; [|done].
  destruct (Z.eqb_spec v old); simpl; split; done.
Qed.

Lemma change_resolution_rec_same L M N (e : Equilibrium) :
  let r := resolution e in
  (default (_L r) L, default (_M r) M, default (_N r) N) = (_L r, _M r, _N r) →
  change_resolution_rec L M N e = e.
Proof.
  intros r [= HL HM HN]. unfold change_resolution_rec. fold r.
  apply changed_false in HL, HM, HN. by rewrite HL, HM, HN.
Qed.

Lemma change_resolution_rec_new L M N (e : Equilibrium) :
  let r := resolution e in
  let b := bases e in
  let c := coeffs e in
  (default (_L r) L, default (_M r) M, default (_N r) N) ≠ (_L r, _M r, _N r) →
  let r' := {| _sym := _sym r; _NFP := _NFP r;
               _L := default (_L r) L; _M := default (_M r) M;
               _N := default (_N r) N;
               _index := _index r; _bdry_mode := _bdry_mode r;
               _R_sym := _R_sym r; _Z_sym := _Z_sym r |} in
  let fzb sym :=
    FourierZernikeBasis (_L r') (_M r') (_N r') (_NFP r) sym (_index r) in
  let R_lmn := copy_coeffs (_R_lmn c) (modes (_R_basis b)) (modes (fzb (_R_sym r))) in
  let Z_lmn := copy_coeffs (_Z_lmn c) (modes (_Z_basis b)) (modes (fzb (_Z_sym r))) in
  let L_lmn := copy_coeffs (_L_lmn c) (modes (_L_basis b)) (modes (fzb (_Z_sym r))) in
  change_resolution_rec L M N e
  = set_coeffs {| _x := concatenate R_lmn Z_lmn L_lmn;
                  _R_lmn := R_lmn; _Z_lmn := Z_lmn; _L_lmn := L_lmn |}
      (set_bases {| _R_basis := fzb (_R_sym r); _Z_basis := fzb (_Z_sym r);
                    _L_basis := fzb (_Z_sym r);
                    _Rb_basis := _Rb_basis b; _Zb_basis := _Zb_basis b;
                    _p_basis := _p_basis b; _i_basis := _i_basis b |}
         (set_resolution r' e)).
Proof.
  intros r b c Hne r' fzb R_lmn Z_lmn L_lmn.
  unfold change_resolution_rec. fold r b c.
  rewrite !changed_default.
  assert (Hc : negb (changed L (_L r) || changed M (_M r) || changed N (_N r))
               = false).
  { apply negb_false_iff.
    destruct (changed L (_L r)) eqn:HL; [done|].
    destruct (changed M (_M r)) eqn:HM; [done|].
    destruct (changed N (_N r)) eqn:HN; [done|].
    apply changed_false in HL, HM, HN. destruct Hne. by rewrite HL, HM, HN. }
  rewrite Hc. done.
Qed.

(** X7.  What [change_resolution] changes and what it keeps.  The
    resolution takes the values given for [L], [M], [N] (a None keeps the
    old value).  When one of them differs from the old value, the bases of
    R, Z and lambda are rebuilt at the new resolution and the coefficient
    blocks are carried over by [copy_coeffs]; otherwise the configuration
    is as it was.  In both cases the boundary and profile bases
    ([Rb_basis], [Zb_basis], [p_basis], [i_basis]), the parameter blocks
    and the lineage stay as they were: the boundary bases are not rebuilt
    for a new [M] or [N]. *)
Theorem change_resolution_frame (self : loc) L M N (st : store) (e : Equilibrium) :
  objs st !! self = Some e →
  let r := resolution e in
  let e' := change_resolution_rec L M N e in
  let r' := resolution e' in
  change_resolution self L M N st
  = (Ok tt, {| objs := <[self := e']> (objs st); lsts := lsts st |}, []) ∧
  (_L r', _M r', _N r') = (default (_L r) L, default (_M r) M, default (_N r) N) ∧
  (_sym r', _NFP r', _index r', _bdry_mode r', _R_sym r', _Z_sym r')
  = (_sym r, _NFP r, _index r, _bdry_mode r, _R_sym r, _Z_sym r) ∧
  (_Rb_basis (bases e'), _Zb_basis (bases e'), _p_basis (bases e'), _i_basis (bases e'))
  = (_Rb_basis (bases e), _Zb_basis (bases e), _p_basis (bases e), _i_basis (bases e)) ∧
  params e' = params e ∧ _parent e' = _parent e ∧ _children e' = _children e ∧
  objective e' = objective e ∧
  (if decide ((_L r', _M r', _N r') = (_L r, _M r, _N r)) then e' = e
   else
     let fzb sym := FourierZernikeBasis (_L r') (_M r') (_N r') (_NFP r) sym (_index r) in
     (_R_basis (bases e'), _Z_basis (bases e'), _L_basis (bases e'))
     = (fzb (_R_sym r), fzb (_Z_sym r), fzb (_Z_sym r)) ∧
     _R_lmn (coeffs e')
     = copy_coeffs (_R_lmn (coeffs e)) (modes (_R_basis (bases e)))
         (modes (fzb (_R_sym r))) ∧
     _Z_lmn (coeffs e')
     = copy_coeffs (_Z_lmn (coeffs e)) (modes (_Z_basis (bases e)))
         (modes (fzb (_Z_sym r))) ∧
     _L_lmn (coeffs e')
     = copy_coeffs (_L_lmn (coeffs e)) (modes (_L_basis (bases e)))
         (modes (fzb (_Z_sym r)))).
Proof.
  intros He r e' r'.
  split; [by apply update_run|].
  assert (Hr : r' = {| _sym := _sym r; _NFP := _NFP r;
       _L := default (_L r) L; _M := default (_M r) M; _N := default (_N r) N;
       _index := _index r; _bdry_mode := _bdry_mode r;
       _R_sym := _R_sym r; _Z_sym := _Z_sym r |})
    by apply change_resolution_rec_resolution.
  rewrite Hr. cbn [_L _M _N _sym _NFP _index _bdry_mode _R_sym _Z_sym].
  split; [done|]. split; [done|].
  case_decide as Hd.
  - subst e'. by rewrite change_resolution_rec_same.
  - subst e'. by rewrite change_resolution_rec_new.
Qed.

End ResolutionFacts.

(** ** Shallow and deep copies *)

Section LineageFacts.
Context {F mat : Type} `{Float64 F} `{Linalg F mat} `{Collaborators F mat}.
Local Abbreviation store := (Desc.store F mat).
Local Abbreviation Equilibrium := (Desc.Equilibrium F mat).
Local Abbreviation M := (Desc.M F mat).

(** X8.  A shallow copy shares the children list of the original: after
    [copy(deepcopy=False)] the new configuration has the data of the
    original and the original as parent, its children list is the very
    list of the original, and the copy has been appended to it, so that
    the copy is among its own children.  No list is created and the
    original is as it was. *)
Theorem copy_shallow_shares_children (self : loc) (st : store) (e : Equilibrium) c :
  objs st !! self = Some e → lsts st !! _children e = Some c →
  let new := length (objs st) in
  ∃ st' e_new,
    Configuration.copy self false st = (Ok new, st', []) ∧
    objs st' !! new = Some e_new ∧
    same_data e_new e ∧ _parent e_new = Some self ∧
    _children e_new = _children e ∧
    lsts st' !! _children e_new = Some (c ++ [new]) ∧
    new ∈ c ++ [new] ∧
    objs st' !! self = Some e ∧
    length (lsts st') = length (lsts st).
Proof.
  intros He Hc new. pose proof (lookup_lt_Some _ _ _ He) as Hlt.
  pose proof (lookup_lt_Some _ _ _ Hc) as Hclt.
  unfold Configuration.copy.
  rewrite (bind_pure _ _ _ _ (get_obj_run _ _ _ He)).
  erewrite bind_ok; last first. { unfold shallowcopy. reflexivity. }
  erewrite bind_ok; last first.
  { apply update_run. simpl. apply list_lookup_middle. done. }
  erewrite bind_ok; last first.
  { apply get_obj_run. simpl. rewrite list_lookup_insert_ne by lia.
    by apply lookup_app_l_Some. }
  erewrite bind_ok; last first. { by apply get_list_run. }
  simpl. eexists _, _. split; [reflexivity|]. simpl. split_and!.
  - apply list_lookup_insert_eq. rewrite length_app. simpl. lia.
  - done.
  - done.
  - done.
  - by apply list_lookup_insert_eq.
  - apply elem_of_app. right. by left.
  - rewrite list_lookup_insert_ne by lia. by apply lookup_app_l_Some.
  - by rewrite length_insert.
Qed.

(** *** What a deep copy reaches *)

Lemma succs_valid (st : store) l :
  Forall (λ l', l' < length (objs st))%nat (succs st l).
Proof.
  unfold succs. destruct (objs st !! l) as [e|]; [|constructor].
  apply Forall_forall. intros l' Hin. by apply list_elem_of_filter in Hin as [? _].
Qed.

Lemma elem_of_flat_map {A B} (f : A → list B) (l : list A) (y : B) :
  y ∈ flat_map f l ↔ ∃ x, x ∈ l ∧ y ∈ f x.
Proof.
  rewrite list_elem_of_In, in_flat_map. split; intros (x & Hx & Hy); exists x.
  - by rewrite !list_elem_of_In.
  - by rewrite <- !list_elem_of_In.
Qed.

Lemma expand_valid (st : store) seen :
  Forall (λ l, l < length (objs st))%nat seen →
  Forall (λ l, l < length (objs st))%nat (expand st seen).
Proof.
  intros Hs. unfold expand. apply Forall_app. split; [done|].
  apply Forall_forall. intros l Hl.
  apply elem_of_remove_dups, list_elem_of_difference in Hl as [Hl _].
  apply elem_of_flat_map in Hl as (l0 & _ & Hl).
  pose proof (succs_valid st l0) as Hv. rewrite Forall_forall in Hv. by apply Hv.
Qed.

Lemma reachable_valid (st : store) root :
  (root < length (objs st))%nat →
  Forall (λ l, l < length (objs st))%nat (reachable st root).
Proof.
  intros Hr. unfold reachable. apply Nat.iter_invariant.
  - apply expand_valid.
  - by repeat constructor.
Qed.

Lemma expand_succs (st : store) seen l l' :
  l ∈ seen → l' ∈ succs st l → l' ∈ expand st seen.
Proof.
  intros Hl Hl'. unfold expand. apply elem_of_app.
  destruct (decide (l' ∈ seen)) as [Hin|Hnin]; [by left|right].
  apply elem_of_remove_dups, list_elem_of_difference. split; [|done].
  apply elem_of_flat_map. by exists l.
Qed.

Lemma reachable_succs (st : store) root l' :
  l' ∈ succs st root → l' ∈ reachable st root.
Proof.
  intros Hl'.
  assert (Hne : (0 < length (objs st))%nat).
  { pose proof (succs_valid st root) as Hv. rewrite Forall_forall in Hv.
    specialize (Hv l' Hl'). lia. }
  unfold reachable. destruct (length (objs st)) as [|n]; [lia|]. simpl.
  apply (expand_succs _ _ root); [|done].
  apply (Nat.iter_invariant n _ _ (λ seen, root ∈ seen)).
  - intros seen Hs. unfold expand. apply elem_of_app. by left.
  - by left.
Qed.

Lemma succs_children (st : store) l e c l' :
  objs st !! l = Some e → lsts st !! _children e = Some c →
  l' ∈ c → (l' < length (objs st))%nat → l' ∈ succs st l.
Proof.
  intros He Hc Hin Hlt. unfold succs. rewrite He, Hc. simpl.
  apply list_elem_of_filter. split; [done|]. apply elem_of_app. by right.
Qed.

Lemma rename_elem (reach : list loc) base l :
  l ∈ reach → ∃ i, reach !! i = Some l ∧ rename reach base l = (base + i)%nat.
Proof.
  intros Hin. unfold rename.
  destruct (list_find_elem_of (λ l', l' = l) reach l Hin eq_refl) as [[i x] Hf].
  rewrite Hf. apply list_find_Some in Hf as (Hi & -> & _). by exists i.
Qed.

Lemma omap_lookup_total {A B} (f : A → option B) (l : list A) i a b :
  Forall (λ x, is_Some (f x)) l → l !! i = Some a → f a = Some b →
  omap f l !! i = Some b.
Proof.
  intros Hall. revert i. induction Hall as [|x l [y Hy] Hall IH]; intros i.
  - done.
  - simpl. rewrite Hy. destruct i as [|i]; simpl.
    + intros [= ->] Hfa. congruence.
    + apply IH.
Qed.


Lemma reachable_lists_valid (st : store) ro :
  Forall (λ l, l < length (lsts st))%nat (reachable_lists st ro).
Proof.
  unfold reachable_lists. apply Forall_forall. intros l Hl.
  by apply elem_of_remove_dups, list_elem_of_filter in Hl as [? _].
Qed.

Lemma reachable_lists_children (st : store) ro l e :
  l ∈ ro → objs st !! l = Some e → (_children e < length (lsts st))%nat →
  _children e ∈ reachable_lists st ro.
Proof.
  intros Hl He Hc. unfold reachable_lists.
  apply elem_of_remove_dups, list_elem_of_filter. split; [done|].
  apply list_elem_of_omap. exists l. split; [done|]. by rewrite He.
Qed.

Lemma copy_deep_store (self : loc) (st : store) (e : Equilibrium) c :
  objs st !! self = Some e → lsts st !! _children e = Some c →
  let ro := reachable st self in
  let rl := reachable_lists st ro in
  let ren_o := rename ro (length (objs st)) in
  let ren_l := rename rl (length (lsts st)) in
  let clone (e0 : Equilibrium) :=
    set_children (ren_l (_children e0)) (set_parent (ren_o <$> _parent e0) e0) in
  Configuration.copy self true st
  = (Ok (length (objs st)),
     {| objs := <[length (objs st) := set_parent (Some self) (clone e)]>
                  (objs st ++ omap (λ l, clone <$> objs st !! l) ro);
        lsts := <[_children e := c ++ [length (objs st)]]>
                  (lsts st ++ omap (λ l, map ren_o <$> lsts st !! l) rl) |},
     []).
Proof.
  intros He Hc ro rl ren_o ren_l clone.
  pose proof (lookup_lt_Some _ _ _ He) as Hlt.
  unfold Configuration.copy.
  rewrite (bind_pure _ _ _ _ (get_obj_run _ _ _ He)).
  erewrite bind_ok; last first. { unfold deepcopy. reflexivity. }
  fold ro rl ren_o ren_l. fold clone.
  assert (Hhead : (objs st ++ omap (λ l, clone <$> objs st !! l) ro)
                  !! length (objs st) = Some (clone e)).
  { subst ro. destruct (reachable_head st self) as [tl ->]. simpl.
    rewrite He. simpl. by apply list_lookup_middle. }
  erewrite bind_ok; last first. { apply update_run. simpl. exact Hhead. }
  erewrite bind_ok; last first.
  { apply get_obj_run. simpl. rewrite list_lookup_insert_ne by lia.
    by apply lookup_app_l_Some. }
  erewrite bind_ok; last first.
  { apply get_list_run. simpl. by apply lookup_app_l_Some. }
  done.
Qed.

(** X9.  A deep copy copies the children too: after
    [copy(deepcopy=True)] the children list of the new configuration is a
    new list, with one entry for each child of the original; each entry
    is a new object with the data of the corresponding child, and is the
    copy itself only where the original is its own child.  The children
    list of the original has gained the copy. *)
Theorem copy_deep_copies_children (self : loc) (st : store) (e : Equilibrium) c :
  objs st !! self = Some e → lsts st !! _children e = Some c →
  Forall (λ l, l < length (objs st))%nat c →
  let new := length (objs st) in
  ∃ st' e_new lc,
    Configuration.copy self true st = (Ok new, st', []) ∧
    objs st' !! new = Some e_new ∧
    same_data e_new e ∧ _parent e_new = Some self ∧
    (length (lsts st) ≤ _children e_new)%nat ∧
    lsts st' !! _children e_new = Some lc ∧
    Forall2 (λ l l', (length (objs st) ≤ l')%nat ∧ (l ≠ self → l' ≠ new) ∧
               ∃ el el', objs st !! l = Some el ∧ objs st' !! l' = Some el' ∧
                         same_data el' el) c lc ∧
    lsts st' !! _children e = Some (c ++ [new]).
Proof.
  intros He Hc Hvalid new.
  pose proof (lookup_lt_Some _ _ _ He) as Hlt.
  pose proof (lookup_lt_Some _ _ _ Hc) as Hclt.
  rewrite (copy_deep_store self st e c He Hc). cbv zeta.
  set (ro := reachable st self).
  set (rl := reachable_lists st ro).
  set (ren_o := rename ro (length (objs st))).
  set (ren_l := rename rl (length (lsts st))).
  set (clone := λ e0 : Equilibrium,
         set_children (ren_l (_children e0))
           (set_parent (ren_o <$> _parent e0) e0)).
  set (clones := omap (λ l, clone <$> objs st !! l) ro).
  set (newl := omap (λ l, map ren_o <$> lsts st !! l) rl).
  assert (Hro : Forall (λ l, l < length (objs st))%nat ro)
    by by apply reachable_valid.
  assert (Hroot : self ∈ ro).
  { subst ro. destruct (reachable_head st self) as [tl ->]. by left. }
  assert (Hrl : Forall (λ l, l < length (lsts st))%nat rl)
    by apply reachable_lists_valid.
  assert (Hclone : ∀ i l el, ro !! i = Some l → objs st !! l = Some el →
            clones !! i = Some (clone el)).
  { intros i l el Hi Hl. apply (omap_lookup_total _ _ _ l); [|done|cbv beta; by rewrite Hl].
    eapply Forall_impl; [exact Hro|]. intros l0 Hl0. cbv beta in *.
    destruct (objs st !! l0) eqn:Hl0'; [by eexists|].
    apply lookup_ge_None in Hl0'. lia. }
  destruct (rename_elem rl (length (lsts st)) (_children e)
              (reachable_lists_children st ro self e Hroot He Hclt))
    as (j & Hj & Hren).
  fold ren_l in Hren.
  assert (Hnewl : newl !! j = Some (map ren_o c)).
  { apply (omap_lookup_total _ _ _ (_children e)); [|done|unfold loc in *; cbv beta; by rewrite Hc].
    eapply Forall_impl; [exact Hrl|]. intros l0 Hl0. cbv beta in *.
    destruct (lsts st !! l0) eqn:Hl0'; [by eexists|].
    apply lookup_ge_None in Hl0'. lia. }
  eexists _, (set_parent (Some self) (clone e)), (map ren_o c).
  split; [reflexivity|]. cbn [objs lsts].
  split_and!.
  - apply list_lookup_insert_eq. rewrite length_app.
    enough (0 < length clones)%nat by (unfold new; lia).
    subst clones ro. destruct (reachable_head st self) as [tl ->]. simpl.
    rewrite He. simpl. lia.
  - done.
  - done.
  - simpl. rewrite Hren. lia.
  - simpl. rewrite Hren. unfold loc in *. rewrite list_lookup_insert_ne by lia.
    rewrite lookup_app_r by lia.
    match goal with |- _ !! ?i = _ => replace i with j by lia end.
    exact Hnewl.
  - apply Forall2_fmap_r, Forall_Forall2_diag, Forall_forall. intros l Hl.
    rewrite Forall_forall in Hvalid. specialize (Hvalid l Hl).
    destruct (lookup_lt_is_Some_2 (objs st) l Hvalid) as [el Hel].
    assert (Hin : l ∈ ro).
    { apply reachable_succs. by apply (succs_children st self e c). }
    destruct (rename_elem ro (length (objs st)) l Hin) as (i & Hi & Hri).
    fold ren_o in Hri. unfold compose. rewrite Hri. split; [lia|].
    assert (Hi0 : i = 0%nat → l = self).
    { intros ->. subst ro. destruct (reachable_head st self) as [tl Hro'].
      rewrite Hro' in Hi. simpl in Hi. congruence. }
    split. { intros Hne Heq. apply Hne, Hi0. unfold new in Heq. lia. }
    exists el. destruct (decide (i = 0%nat)) as [Hz|Hnz].
    + exists (set_parent (Some self) (clone e)). split; [done|].
      rewrite (Hi0 Hz) in *. subst i.
      assert (el = e) as -> by (unfold loc in *; congruence).
      split; [|done]. rewrite Nat.add_0_r. apply list_lookup_insert_eq.
      rewrite length_app.
      enough (0 < length clones)%nat by lia.
      pose proof (lookup_lt_Some _ _ _ (Hclone _ _ _ Hi He)). lia.
    + exists (clone el). split; [done|]. split; [|done].
      rewrite list_lookup_insert_ne by lia. rewrite lookup_app_r by lia.
      match goal with |- _ !! ?k = _ => replace k with i by lia end.
      by apply (Hclone i l).
  - apply list_lookup_insert_eq. rewrite length_app. unfold loc in *. lia.
Qed.

End LineageFacts.

(** ** perturb in place, and what it calls *)

Section InPlace.
Context {F mat : Type} `{Float64 F} `{Linalg F mat} `{Collaborators F mat}.
Local Abbreviation store := (Desc.store F mat).
Local Abbreviation Equilibrium := (Desc.Equilibrium F mat).
Local Abbreviation M := (Desc.M F mat).

Lemma silent_perturb_tail use_jax eq dRb dZb dp di dPsi dzeta_ratio order
    tr_ratio cutoff Jx verbose copy (st : store) :
  (order <= 0)%Z →
  (perturb use_jax eq dRb dZb dp di dPsi dzeta_ratio order tr_ratio cutoff Jx
     verbose copy st).2 = warning use_jax.
Proof.
  intros Ho. unfold perturb. rewrite bind_when_emit.
  match goal with
  | |- context [bind ?m ?k] => assert (Hs : silent (bind m k))
  end.
  { apply silent_bind; [apply silent_get_obj|intros e].
    destruct (objective e) as [obj|]; [|apply silent_raise].
    destruct (scalar obj); [apply silent_raise|].
    apply silent_bind; [apply silent_when, silent_update|intros _].
    apply silent_bind; [apply silent_lift|intros [t1 t2]].
    apply silent_bind; [|intros step; apply silent_apply_perturbation].
    intros st1. by rewrite perturb_step_order0. }
  specialize (Hs st). destruct (bind _ _ st) as [[r st'] ev]. simpl in *.
  subst ev. unfold warning. by destruct use_jax.
Qed.

(** X10.  With [order <= 0] perturb computes nothing: it calls no method
    of the objective and no solver and prints no progress message, so
    that the trace holds the warning of a run without JAX and nothing
    else.  (The timers and what [Equilibrium.build] shows are outside the
    trace.) *)
Theorem perturb_order0_calls_nothing use_jax eq dRb dZb dp di dPsi dzeta_ratio
    order tr_ratio cutoff Jx verbose copy (st : store) :
  (order <= 0)%Z →
  let run := perturb use_jax eq dRb dZb dp di dPsi dzeta_ratio order tr_ratio
               cutoff Jx verbose copy st in
  run.2 = warning use_jax ∧
  Forall (λ ev, is_objective_call ev = false) run.2 ∧
  solve_calls run.2 = [].
Proof.
  intros Ho run. subst run.
  rewrite (silent_perturb_tail _ _ _ _ _ _ _ _ _ _ _ _ _ _ _ Ho).
  split; [done|]. unfold warning. destruct use_jax; simpl; by repeat constructor.
Qed.

Lemma apply_perturbation_in_place eq y (st : store) e obj
    dRb dZb dp di dPsi dzeta_ratio rb zb pl il psi zr step x' :
  objs st !! eq = Some e → objective e = Some obj →
  bump dRb (_Rb_mn (params e)) = Ok rb →
  bump dZb (_Zb_mn (params e)) = Ok zb →
  bump dp (_p_l (params e)) = Ok pl →
  bump di (_i_l (params e)) = Ok il →
  bump dPsi (_Psi (params e)) = Ok psi →
  bump dzeta_ratio (_zeta_ratio (params e)) = Ok zr →
  let deltas := collect_deltas dRb dZb dp di dPsi dzeta_ratio in
  let b := bases e in
  let rebuilt := has_key "Rb_mn" deltas || has_key "Zb_mn" deltas in
  let bc := if rebuilt
            then BoundaryConstraint (_R_basis b) (_Z_basis b) (_L_basis b)
                   (_Rb_basis b) (_Zb_basis b) rb zb
            else BC_constraint obj in
  match step with
  | Some (dx1, dx2) =>
      ∃ dy y', arr_add dx1 dx2 = Ok dy ∧ broadcast fadd y dy = Ok y' ∧
               x' = recover bc y'
  | None => x' = _x (coeffs e)
  end →
  let e1 := set_params {| _Rb_mn := rb; _Zb_mn := zb; _p_l := pl; _i_l := il;
                          _Psi := psi; _zeta_ratio := zr |} e in
  let e2 := if rebuilt then set_objective (Some (set_BC_constraint bc obj)) e1
            else e1 in
  let e3 := match step with Some _ => with_x x' e2 | None => e2 end in
  apply_perturbation eq y deltas step false st = (Ok eq, put_obj eq e3 st, []).
Proof.
  intros He Hobj B1 B2 B3 B4 B5 B6 deltas b rebuilt bc Hstep e1 e2 e3.
  pose proof (lookup_lt_Some _ _ _ He) as Hlt.
  assert (Ho2 : ∃ o2, objective e2 = Some o2 ∧ BC_constraint o2 = bc).
  { subst e2 bc. destruct rebuilt; [by eexists|]. by exists obj. }
  destruct Ho2 as (o2 & Ho2 & Hbc2).
  assert (Hrun2 : (update_parameters eq deltas ;;;
                   when rebuilt (update_boundary_constraint eq)) st
                  = (Ok tt, put_obj eq e2 st, [])).
  { erewrite bind_ok; last first.
    { by apply (update_parameters_collect eq st e). }
    fold e1. subst e2 bc. destruct rebuilt; simpl; [|done].
    unfold update_boundary_constraint.
    rewrite (bind_pure _ _ _ obj
               (objective_of_run _ _ e1 obj (put_obj_lookup _ _ _ Hlt) Hobj)).
    rewrite (bind_pure _ _ _ _ (get_obj_run _ _ _ (put_obj_lookup _ _ _ Hlt))).
    unfold set_obj, put_obj. simpl. by rewrite list_insert_insert_eq. }
  unfold apply_perturbation. rewrite bind_ret.
  rewrite <- bind_assoc. fold deltas rebuilt. rewrite (bind_ok _ _ _ _ _ _ Hrun2).
  assert (Hlt2 : (eq < length (objs (put_obj eq e2 st)))%nat)
    by by rewrite put_obj_length.
  subst e3. destruct step as [[dx1 dx2]|].
  - destruct Hstep as (dy & y' & Hdy & Hy' & ->).
    rewrite Hdy, bind_assoc, bind_lift_ok, bind_assoc.
    rewrite Hy', bind_lift_ok, bind_assoc.
    rewrite (bind_pure _ _ _ o2
               (objective_of_run _ _ e2 o2 (put_obj_lookup _ _ _ Hlt) Ho2)).
    cbv beta. unfold x_setter.
    rewrite (bind_update _ _ _ _ e2 (put_obj_lookup _ _ _ Hlt)).
    rewrite put_obj_put_obj. unfold ret. simpl. by rewrite Hbc2.
  - rewrite bind_ret. unfold ret. simpl. done.
Qed.

(** The run of perturb with [copy = False]. *)
Lemma perturb_in_place_run use_jax eq dRb dZb dp di dPsi dzeta_ratio order
    tr_ratio cutoff Jx verbose (st : store) e obj rb zb pl il psi zr step x' :
  objs st !! eq = Some e →
  objective e = Some obj → scalar obj = false →
  is_ok (unpack_tr_ratio tr_ratio) = true →
  bump dRb (_Rb_mn (params e)) = Ok rb →
  bump dZb (_Zb_mn (params e)) = Ok zb →
  bump dp (_p_l (params e)) = Ok pl →
  bump di (_i_l (params e)) = Ok il →
  bump dPsi (_Psi (params e)) = Ok psi →
  bump dzeta_ratio (_zeta_ratio (params e)) = Ok zr →
  let y := project (BC_constraint obj) (_x (coeffs e)) in
  let deltas := collect_deltas dRb dZb dp di dPsi dzeta_ratio in
  let b := bases e in
  let rebuilt := has_key "Rb_mn" deltas || has_key "Zb_mn" deltas in
  let bc := if rebuilt
            then BoundaryConstraint (_R_basis b) (_Z_basis b) (_L_basis b)
                   (_Rb_basis b) (_Zb_basis b) rb zb
            else BC_constraint obj in
  (perturb_step obj (y, params e) y deltas order tr_ratio cutoff Jx verbose
     (built_store eq e st)).1.1 = Ok step →
  match step with
  | Some (dx1, dx2) =>
      ∃ dy y', arr_add dx1 dx2 = Ok dy ∧ broadcast fadd y dy = Ok y' ∧
               x' = recover bc y'
  | None => x' = _x (coeffs e)
  end →
  let run := perturb use_jax eq dRb dZb dp di dPsi dzeta_ratio order tr_ratio
               cutoff Jx verbose false st in
  ∃ e_new,
    run.1.1 = Ok eq ∧
    run.1.2 = put_obj eq e_new st ∧
    length (objs run.1.2) = length (objs st) ∧ lsts run.1.2 = lsts st ∧
    (∀ l, l ≠ eq → objs run.1.2 !! l = objs st !! l) ∧
    built e_new = true ∧
    params e_new = {| _Rb_mn := rb; _Zb_mn := zb; _p_l := pl; _i_l := il;
                      _Psi := psi; _zeta_ratio := zr |} ∧
    match step with
    | Some _ =>
        _x (coeffs e_new) = x' ∧
        (_R_lmn (coeffs e_new), _Z_lmn (coeffs e_new), _L_lmn (coeffs e_new))
        = unpack_state x' (num_modes (_R_basis b)) (num_modes (_Z_basis b))
    | None => coeffs e_new = coeffs e
    end ∧
    (BC_constraint <$> objective e_new) = Some bc ∧
    (resolution e_new, bases e_new, _parent e_new, _children e_new)
    = (resolution e, bases e, _parent e, _children e).
Proof.
  intros He Hobj Hsc Htr B1 B2 B3 B4 B5 B6 y deltas b rebuilt bc Hstep Hx run.
  destruct (unpack_tr_ratio_ok _ Htr) as [t Ht].
  destruct (built_store_lookup eq st e He) as (Hb & Hlen & Hls).
  destruct (built_eq_data e) as (Hco & Hpa & Hba & Hob & Hch).
  subst run.
  rewrite (perturb_run _ _ _ _ _ _ _ _ _ _ _ _ _ _ _ _ _ _ He Hobj Hsc Ht).
  cbv zeta. fold y deltas.
  pose proof (readonly_perturb_step obj (y, params e) y deltas order tr_ratio
                cutoff Jx verbose (built_store eq e st)) as Hro.
  destruct (perturb_step _ _ _ _ _ _ _ _ _ _) as [[r st1] ev1] eqn:Hps.
  simpl in Hro, Hstep. subst st1 r.
  rewrite (bind_ok _ _ _ _ _ _ Hps).
  pose proof (apply_perturbation_in_place eq y (built_store eq e st) (built_eq e)
                obj dRb dZb dp di dPsi dzeta_ratio rb zb pl il psi zr step x')
    as Hrun.
  cbv zeta in Hrun. rewrite Hpa, Hba, Hco, Hob in Hrun.
  fold deltas rebuilt b in Hrun. fold bc in Hrun.
  specialize (Hrun Hb Hobj B1 B2 B3 B4 B5 B6 Hx).
  set (e1 := set_params _ (built_eq e)) in Hrun.
  set (e2 := if rebuilt then _ else e1) in Hrun.
  set (e3 := match step with Some _ => with_x x' e2 | None => e2 end) in Hrun.
  rewrite Hrun.
  exists e3. cbn [fst snd].
  assert (Hput : put_obj eq e3 (built_store eq e st) = put_obj eq e3 st).
  { unfold built_store. destruct (built e); [done|].
    fold (put_obj eq (set_built true e) st). apply put_obj_put_obj. }
  rewrite Hput.
  assert (Hbuilt : built (built_eq e) = true).
  { unfold built_eq. by destruct (built e) eqn:Hbe. }
  split_and!; try done.
  - apply put_obj_length.
  - intros l Hl. by apply put_obj_lookup_ne.
  - subst e3 e2 e1. unfold with_x. by destruct step, rebuilt.
  - subst e3 e2 e1. unfold with_x. by destruct step, rebuilt.
  - subst e3 e2 e1 b. unfold with_x, unpack_state.
    destruct step, rebuilt; simpl; by rewrite ?Hba, ?Hco.
  - subst e3 e2 e1 bc. unfold with_x. destruct step, rebuilt; simpl; by rewrite ?Hob, ?Hobj.
  - subst e3 e2 e1. unfold with_x, built_eq.
    destruct step, rebuilt, (built e); done.
Qed.

(** X11.  With [copy = False] perturb changes the equilibrium it is
    given and returns it: no object and no list is created, the other
    objects are as they were.  The equilibrium has become built; its
    parameter blocks are the old ones with the deltas added; when [dRb]
    or [dZb] is a delta its boundary constraint has been rebuilt from the
    new boundary coefficients; and when [order > 0] its state vector is
    [recover(y + dx1 + dx2)], recovered through the rebuilt constraint. *)
Theorem perturb_in_place use_jax eq dRb dZb dp di dPsi dzeta_ratio order
    tr_ratio cutoff Jx verbose (st : store) e obj rb zb pl il psi zr step x' :
  objs st !! eq = Some e →
  objective e = Some obj → scalar obj = false →
  is_ok (unpack_tr_ratio tr_ratio) = true →
  bump dRb (_Rb_mn (params e)) = Ok rb →
  bump dZb (_Zb_mn (params e)) = Ok zb →
  bump dp (_p_l (params e)) = Ok pl →
  bump di (_i_l (params e)) = Ok il →
  bump dPsi (_Psi (params e)) = Ok psi →
  bump dzeta_ratio (_zeta_ratio (params e)) = Ok zr →
  let y := project (BC_constraint obj) (_x (coeffs e)) in
  let deltas := collect_deltas dRb dZb dp di dPsi dzeta_ratio in
  let b := bases e in
  let rebuilt := has_key "Rb_mn" deltas || has_key "Zb_mn" deltas in
  let bc := if rebuilt
            then BoundaryConstraint (_R_basis b) (_Z_basis b) (_L_basis b)
                   (_Rb_basis b) (_Zb_basis b) rb zb
            else BC_constraint obj in
  (perturb_step obj (y, params e) y deltas order tr_ratio cutoff Jx verbose
     (built_store eq e st)).1.1 = Ok step →
  match step with
  | Some (dx1, dx2) =>
      ∃ dy y', arr_add dx1 dx2 = Ok dy ∧ broadcast fadd y dy = Ok y' ∧
               x' = recover bc y'
  | None => x' = _x (coeffs e)
  end →
  let run := perturb use_jax eq dRb dZb dp di dPsi dzeta_ratio order tr_ratio
               cutoff Jx verbose false st in
  ∃ e_new,
    run.1.1 = Ok eq ∧
    run.1.2 = put_obj eq e_new st ∧
    length (objs run.1.2) = length (objs st) ∧ lsts run.1.2 = lsts st ∧
    (∀ l, l ≠ eq → objs run.1.2 !! l = objs st !! l) ∧
    built e_new = true ∧
    params e_new = {| _Rb_mn := rb; _Zb_mn := zb; _p_l := pl; _i_l := il;
                      _Psi := psi; _zeta_ratio := zr |} ∧
    match step with
    | Some _ =>
        _x (coeffs e_new) = x' ∧
        (_R_lmn (coeffs e_new), _Z_lmn (coeffs e_new), _L_lmn (coeffs e_new))
        = unpack_state x' (num_modes (_R_basis b)) (num_modes (_Z_basis b))
    | None => coeffs e_new = coeffs e
    end ∧
    (BC_constraint <$> objective e_new) = Some bc ∧
    (resolution e_new, bases e_new, _parent e_new, _children e_new)
    = (resolution e, bases e, _parent e, _children e).
Proof.
  exact (perturb_in_place_run use_jax eq dRb dZb dp di dPsi dzeta_ratio order
           tr_ratio cutoff Jx verbose st e obj rb zb pl il psi zr step x').
Qed.

End InPlace.

(** ** The first-order step without deltas *)

Section FirstOrderStep.
Context {F mat : Type} `{Float64 F} `{Linalg F mat} `{Collaborators F mat}.
Local Abbreviation store := (Desc.store F mat).
Local Abbreviation Equilibrium := (Desc.Equilibrium F mat).
Local Abbreviation M := (Desc.M F mat).

(** perturb raises what the two orders raise. *)
Lemma perturb_step_raise use_jax eq dRb dZb dp di dPsi dzeta_ratio order
    tr_ratio cutoff Jx verbose copy (st : store) (e : Equilibrium) obj err :
  objs st !! eq = Some e → objective e = Some obj → scalar obj = false →
  is_ok (unpack_tr_ratio tr_ratio) = true →
  let y := project (BC_constraint obj) (_x (coeffs e)) in
  (perturb_step obj (y, params e) y
     (collect_deltas dRb dZb dp di dPsi dzeta_ratio) order tr_ratio cutoff Jx
     verbose (built_store eq e st)).1.1 = Raise err →
  (perturb use_jax eq dRb dZb dp di dPsi dzeta_ratio order tr_ratio cutoff Jx
     verbose copy st).1.1 = Raise err.
Proof.
  intros He Hobj Hsc Htr y Hps.
  destruct (unpack_tr_ratio_ok _ Htr) as [t Ht].
  rewrite (perturb_run _ _ _ _ _ _ _ _ _ _ _ _ _ _ _ _ _ _ He Hobj Hsc Ht).
  cbv zeta. fold y.
  destruct (perturb_step _ _ _ _ _ _ _ _ _ _) as [[r st1] ev1] eqn:Hrun.
  simpl in Hps. subst r. by rewrite (bind_raise _ _ _ _ _ _ Hrun).
Qed.

(** The parameter blocks after deltas that are all ignored. *)
Lemma params_eta (p : Params F) :
  {| _Rb_mn := _Rb_mn p; _Zb_mn := _Zb_mn p; _p_l := _p_l p; _i_l := _i_l p;
     _Psi := _Psi p; _zeta_ratio := _zeta_ratio p |} = p.
Proof. by destruct p. Qed.

(** C7.  With every delta None or zero and [order = 1], the solver is
    called once, on the factors of [Jx] and with [objective.compute] at
    the arguments of the equilibrium as right-hand side, and [dx1] is the
    step it returns: the state vector of the equilibrium that perturb
    returns (the copy, or the input when [copy = False]) is
    [recover(y + (dx1 + 0))], its parameter blocks are those of the input,
    and an error of the solver is the error of perturb.  The code still
    adds [jvp((), (), *args)], the product over no parameter block; the
    hypothesis is that adding it leaves the residual as it is. *)
Theorem perturb_zero_deltas_first_order use_jax eq dRb dZb dp di dPsi
    dzeta_ratio tr_ratio cutoff Jx verbose copy (st : store) (e : Equilibrium)
    obj kids :
  objs st !! eq = Some e → objective e = Some obj → scalar obj = false →
  lsts st !! _children e = Some kids →
  ignored dRb → ignored dZb → ignored dp → ignored di → ignored dPsi →
  ignored dzeta_ratio →
  is_ok (unpack_tr_ratio tr_ratio) = true →
  let y := project (BC_constraint obj) (_x (coeffs e)) in
  let a : args F := (y, params e) in
  let J := default (jac_x obj a) Jx in
  (svd J).1.2 ≠ [] →
  iadd (compute obj a) (jvp obj [] [] a) = Ok (compute obj a) →
  let c := solve_call J (compute obj a) (vscale tr_ratio (norm y)) in
  let run := perturb use_jax eq dRb dZb dp di dPsi dzeta_ratio 1 tr_ratio
               cutoff Jx verbose copy st in
  let new := if copy then length (objs st) else eq in
  solve_calls run.2 = [c] ∧
  tr_f c = compute obj a ∧
  match trust_region_step_exact c with
  | Ok (dx1, hit, alpha) =>
      ∀ dy y', arr_add dx1 (Scal (of_Q 0)) = Ok dy →
               broadcast fadd y dy = Ok y' →
        ∃ e_new,
          run.1.1 = Ok new ∧ objs run.1.2 !! new = Some e_new ∧
          _x (coeffs e_new) = recover (BC_constraint obj) y' ∧
          params e_new = params e
  | Raise err => run.1.1 = Raise err
  end.
Proof.
  intros He Hobj Hsc Hkids I1 I2 I3 I4 I5 I6 Htr y a J Hs Hjvp c run new.
  destruct (unpack_tr_ratio_ok _ Htr) as [t Ht].
  destruct (first_nonempty _ Hs) as [s0 Hs0].
  pose proof (collect_deltas_ignored _ _ _ _ _ _ I1 I2 I3 I4 I5 I6) as Hd.
  destruct (perturb_step_order1 obj a y [] tr_ratio cutoff Jx verbose
              (built_store eq e st) s0 [] (compute obj a) Hs0 eq_refl Hjvp)
    as (pre & Hpre & Hrun).
  fold J c in Hrun.
  split_and!.
  - subst run.
    rewrite (perturb_events _ _ _ _ _ _ _ _ _ _ _ _ _ _ _ _ _ _ He Hobj Hsc Ht).
    cbv zeta. rewrite Hd. fold y a. rewrite Hrun. simpl.
    rewrite !solve_calls_app, Hpre. by destruct use_jax.
  - apply solve_call_fields.
  - destruct (trust_region_step_exact c) as [[[dx1 hit] alpha]|err] eqn:Hsolve.
    + intros dy y' Hdy Hy'.
      assert (Hstep : (perturb_step obj (y, params e) y
                         (collect_deltas dRb dZb dp di dPsi dzeta_ratio) 1
                         tr_ratio cutoff Jx verbose (built_store eq e st)).1.1
                      = Ok (Some (dx1, Scal (of_Q 0)))).
      { rewrite Hd. fold a. rewrite Hrun. unfold step_of. by rewrite Hsolve. }
      assert (Hx : ∃ dy0 y0, arr_add dx1 (Scal (of_Q 0)) = Ok dy0 ∧
                             broadcast fadd y dy0 = Ok y0 ∧
                             recover (BC_constraint obj) y'
                             = recover (BC_constraint obj) y0).
      { by exists dy, y'. }
      subst run new. destruct copy.
      * destruct (perturb_copy_run use_jax eq dRb dZb dp di dPsi dzeta_ratio 1
                    tr_ratio cutoff Jx verbose st e He obj kids _ _ _ _ _ _
                    (Some (dx1, Scal (of_Q 0))) (recover (BC_constraint obj) y')
                    Hobj Hsc Htr Hkids
                    (bump_ignored _ _ I1) (bump_ignored _ _ I2)
                    (bump_ignored _ _ I3) (bump_ignored _ _ I4)
                    (bump_ignored _ _ I5) (bump_ignored _ _ I6) Hstep)
          as (e_new & Hr & _ & Hnew & Hpa & Hco & _).
        { cbv zeta. by rewrite Hd. }
        exists e_new. split_and!; try done.
        -- rewrite Hco. unfold with_x.
           by destruct (unpack_state _ _ _) as [[??]?].
        -- by rewrite Hpa, params_eta.
      * destruct (perturb_in_place_run use_jax eq dRb dZb dp di dPsi dzeta_ratio
                    1 tr_ratio cutoff Jx verbose st e obj _ _ _ _ _ _
                    (Some (dx1, Scal (of_Q 0))) (recover (BC_constraint obj) y')
                    He Hobj Hsc Htr
                    (bump_ignored _ _ I1) (bump_ignored _ _ I2)
                    (bump_ignored _ _ I3) (bump_ignored _ _ I4)
                    (bump_ignored _ _ I5) (bump_ignored _ _ I6) Hstep)
          as (e_new & Hr & Hst & Hlen & _ & _ & _ & Hpa & [Hxn _] & _).
        { cbv zeta. by rewrite Hd. }
        exists e_new. split_and!; try done.
        -- rewrite Hst. apply put_obj_lookup. by eapply lookup_lt_Some.
        -- by rewrite Hpa, params_eta.
    + subst run.
      apply (perturb_step_raise use_jax eq dRb dZb dp di dPsi dzeta_ratio 1
               tr_ratio cutoff Jx verbose copy st e obj err He Hobj Hsc Htr).
      cbv zeta. rewrite Hd. fold y a. rewrite Hrun. unfold step_of.
      by rewrite Hsolve.
Qed.

End FirstOrderStep.

Section JacobianCalls.
Context {F mat : Type} `{Float64 F} `{Linalg F mat} `{Collaborators F mat}.
Local Abbreviation store := (Desc.store F mat).
Local Abbreviation Equilibrium := (Desc.Equilibrium F mat).
Local Abbreviation M := (Desc.M F mat).

Lemma jac_calls_app (ev1 ev2 : list (event F mat)) :
  jac_calls (ev1 ++ ev2) = jac_calls ev1 ++ jac_calls ev2.
Proof. apply omap_app. Qed.

Lemma jac_calls_free (ev : list (event F mat)) :
  Forall no_jac_x ev → jac_calls ev = [].
Proof.
  induction 1 as [|e ev He _ IH]; [done|].
  destruct e; simpl in He; try done; exact IH.
Qed.

(** The trace of [m ;; k] is that of [m] followed by that of [k]. *)
Lemma bind_events {A B} (m : M A) (k : A → M B) (st : store) :
  (bind m k st).2
  = (m st).2 ++ match (m st).1.1 with
                | Ok a => (k a (m st).1.2).2
                | Raise _ => []
                end.
Proof.
  unfold bind. destruct (m st) as [[[a|err] st1] ev1]; simpl.
  - by destruct (k a st1) as [[r st2] ev2].
  - by rewrite app_nil_r.
Qed.

Lemma jac_free_tail (obj : Desc.ObjectiveFunction F mat) (a : args F)
    (u : mat) (s : list F) (vt : mat) (m n : nat) (y : list F)
    (deltas : list (string * value F)) (tr : value F) (cutoff : F) verbose :
  emits no_jac_x
    (s0 <- lift (first s) ;;
     let cutoff := fmul cutoff s0 in
     emit (CallCompute a) ;;;
     let RHS := compute obj a in
     inds <- lift (inds_of deltas) ;;
     let dc := map snd deltas in
     when (0 <? verbose)%Z
       (emit (Print ("Perturbing " +:+ String.concat ", " (map fst deltas)))) ;;;
     emit (CallJvp inds dc a) ;;;
     let temp := jvp obj inds dc a in
     RHS <- lift (iadd RHS temp) ;;
     let c := {| tr_n := n; tr_m := m; tr_f := RHS; tr_u := u; tr_s := s;
                 tr_v := transpose vt;
                 tr_Delta := vscale tr (norm y);
                 tr_initial_alpha := None; tr_rtol := of_Q 0.01;
                 tr_max_iter := 10; tr_threshold := of_Q 1e-6 |} in
     emit (CallSolve c) ;;;
     r <- lift (trust_region_step_exact c) ;;
     let '(dx1, hit, alpha) := r in
     ret {| fo_n := n; fo_m := m; fo_u := u; fo_s := s; fo_vt := vt;
            fo_dx1 := dx1 |} : M first_order_t).
Proof.
  apply emits_bind; [apply emits_silent, silent_lift|intros s0].
  apply emits_bind; [by apply emits_emit|intros _].
  apply emits_bind; [apply emits_silent, silent_lift|intros inds].
  apply emits_bind; [by apply emits_when, emits_emit|intros _].
  apply emits_bind; [by apply emits_emit|intros _].
  apply emits_bind; [apply emits_silent, silent_lift|intros RHS].
  apply emits_bind; [by apply emits_emit|intros _].
  apply emits_bind; [apply emits_silent, silent_lift|intros [[dx1 hit] alpha]].
  apply emits_silent, silent_ret.
Qed.

Lemma jac_calls_first_order obj a y deltas tr cutoff Jx verbose (st : store) :
  jac_calls (first_order obj a y deltas tr cutoff Jx verbose st).2
  = match Jx with None => [a] | Some _ => [] end.
Proof.
  unfold first_order. rewrite bind_events, jac_calls_app.
  destruct Jx as [J|].
  - simpl. apply jac_calls_free.
    destruct (svd J) as [[u s] vt], (shape J) as [m n].
    apply (jac_free_tail obj a u s vt m n y deltas tr cutoff verbose st).
  - assert (Hpre : ∀ st0 : store,
              (when (0 <? verbose)%Z (emit (Print "Computing df/dx")) ;;;
               emit (CallJacX a) ;;; ret (jac_x obj a)) st0
              = (Ok (jac_x obj a), st0,
                 (if (0 <? verbose)%Z then [Print "Computing df/dx"] else [])
                 ++ [CallJacX a])).
    { intros st0. rewrite bind_when_emit, bind_emit. unfold ret.
      by destruct (0 <? verbose)%Z. }
    rewrite Hpre. cbn [fst snd]. rewrite jac_calls_app.
    replace (jac_calls (if (0 <? verbose)%Z then [Print "Computing df/dx"] else []))
      with ([] : list (args F)) by by destruct (0 <? verbose)%Z.
    simpl. f_equal. apply jac_calls_free.
    destruct (svd (jac_x obj a)) as [[u s] vt], (shape (jac_x obj a)) as [m n].
    apply (jac_free_tail obj a u s vt m n y deltas tr cutoff verbose st).
Qed.

Lemma jac_free_second_order obj a deltas tr verbose fo :
  emits no_jac_x (second_order obj a deltas tr verbose fo).
Proof.
  unfold second_order.
  apply emits_bind; [by apply emits_when, emits_emit|intros _].
  apply emits_bind; [by apply emits_emit|intros _].
  apply emits_bind; [apply emits_silent, silent_lift|intros inds].
  apply emits_bind; [by apply emits_emit|intros _].
  apply emits_bind; [apply emits_silent, silent_lift|intros RHS].
  apply emits_bind; [by apply emits_emit|intros _].
  apply emits_bind; [apply emits_silent, silent_lift|intros RHS2].
  apply emits_bind; [by apply emits_emit|intros _].
  apply emits_bind; [apply emits_silent, silent_lift|intros [[dx2 hit] alpha]].
  apply emits_silent, silent_ret.
Qed.

Lemma jac_calls_perturb_step obj a y deltas order tr cutoff Jx verbose (st : store) :
  jac_calls (perturb_step obj a y deltas order tr cutoff Jx verbose st).2
  = if (0 <? order)%Z then match Jx with None => [a] | Some _ => [] end else [].
Proof.
  unfold perturb_step. destruct (0 <? order)%Z; [|done].
  rewrite bind_events, jac_calls_app, jac_calls_first_order.
  rewrite <- (app_nil_r (match Jx with None => _ | Some _ => _ end)) at 2.
  f_equal. destruct (_.1.1) as [fo|err]; [|done].
  apply jac_calls_free.
  apply (emits_bind no_jac_x); [|intros; apply emits_silent, silent_ret].
  destruct (1 <? order)%Z; [|apply emits_silent, silent_ret].
  apply emits_bind; [apply jac_free_second_order|].
  intros; apply emits_silent, silent_ret.
Qed.

(** X12.  perturb evaluates the Jacobian [objective.jac_x] at most
    once, also at second order, at the arguments
    [(y, Rb_mn, Zb_mn, p_l, i_l, Psi, zeta_ratio)] of the equilibrium
    before the perturbation; and it does not evaluate it when the caller
    gives [Jx] or when [order <= 0]. *)
Theorem perturb_jacobian_calls use_jax eq dRb dZb dp di dPsi dzeta_ratio
    order tr_ratio cutoff Jx verbose copy (st : store) :
  let run := perturb use_jax eq dRb dZb dp di dPsi dzeta_ratio order tr_ratio
               cutoff Jx verbose copy st in
  (is_Some Jx ∨ (order <= 0)%Z → jac_calls run.2 = []) ∧
  (jac_calls run.2 = [] ∨
   ∃ e obj, objs st !! eq = Some e ∧ objective e = Some obj ∧
     jac_calls run.2
     = [(project (BC_constraint obj) (_x (coeffs e)), params e)]).
Proof.
  intros run.
  assert (Hcases :
    jac_calls run.2 = [] ∨
    ∃ e obj, objs st !! eq = Some e ∧ objective e = Some obj ∧
      jac_calls run.2
      = if (0 <? order)%Z
        then match Jx with
             | None => [(project (BC_constraint obj) (_x (coeffs e)), params e)]
             | Some _ => []
             end
        else []).
  { subst run.
    destruct (objs st !! eq) as [e|] eqn:He; last first.
    { left. unfold perturb. rewrite bind_when_emit.
      unfold bind, get_obj. rewrite He. simpl. by destruct use_jax. }
    destruct (objective e) as [obj|] eqn:Hobj; last first.
    { left. destruct (perturb_raise_run use_jax eq dRb dZb dp di dPsi dzeta_ratio
                        order tr_ratio cutoff Jx verbose copy st e He)
        as [msg ->]; [by left|]. by destruct use_jax. }
    destruct (scalar obj) eqn:Hsc.
    { left. destruct (perturb_raise_run use_jax eq dRb dZb dp di dPsi dzeta_ratio
                        order tr_ratio cutoff Jx verbose copy st e He)
        as [msg ->]; [right; by exists obj|]. by destruct use_jax. }
    destruct (unpack_tr_ratio tr_ratio) as [t|err] eqn:Htr; last first.
    { left. unfold perturb. rewrite bind_when_emit.
      rewrite (bind_pure _ _ _ _ (get_obj_run _ _ _ He)). rewrite Hobj, Hsc.
      assert (Hbs : (when (negb (built e)) (build eq verbose)) st
                    = (Ok tt, built_store eq e st, [])).
      { unfold built_store. destruct (built e); simpl; [done|].
        unfold build. by apply update_run. }
      rewrite (bind_ok _ _ _ _ _ _ Hbs). rewrite Htr, bind_lift_raise.
      by destruct use_jax. }
    right. exists e, obj. split; [done|]. split; [done|].
    rewrite (perturb_events _ _ _ _ _ _ _ _ _ _ _ _ _ _ _ _ _ _ He Hobj Hsc Htr).
    cbv zeta. rewrite jac_calls_app, jac_calls_perturb_step.
    unfold warning. by destruct use_jax. }
  split.
  - intros Hno. destruct Hcases as [Hc|(e & obj & _ & _ & Hc)]; [done|].
    rewrite Hc. destruct Hno as [[J ->]|Ho].
    + by destruct (0 <? order)%Z.
    + by replace (0 <? order)%Z with false by (symmetry; apply Z.ltb_ge; lia).
  - destruct Hcases as [Hc|(e & obj & He & Hobj & Hc)]; [by left|].
    destruct (0 <? order)%Z; [|by left].
    destruct Jx; [by left|]. right. by exists e, obj.
Qed.

(** X13.  A [tr_ratio] that is a sequence of a length other than two
    makes perturb raise a ValueError when it unpacks it, whatever the
    order, also [order = 0] where no radius is needed: by then the
    equilibrium has been built, and nothing else has happened (no
    derivative, no solve, no copy). *)
Theorem perturb_rejects_tr_ratio use_jax eq dRb dZb dp di dPsi dzeta_ratio
    order (tr : list F) cutoff Jx verbose copy (st : store) (e : Equilibrium)
    obj :
  objs st !! eq = Some e → objective e = Some obj → scalar obj = false →
  length tr ≠ 2%nat →
  let run := perturb use_jax eq dRb dZb dp di dPsi dzeta_ratio order (Arr tr)
               cutoff Jx verbose copy st in
  ∃ err,
    run.1.1 = Raise err ∧ exn_class err = "ValueError" ∧
    run.1.2 = built_store eq e st ∧
    run.2 = warning use_jax.
Proof.
  intros He Hobj Hsc Hlen run. subst run.
  unfold perturb. rewrite bind_when_emit.
  rewrite (bind_pure _ _ _ _ (get_obj_run _ _ _ He)). rewrite Hobj, Hsc.
  assert (Hbs : (when (negb (built e)) (build eq verbose)) st
                = (Ok tt, built_store eq e st, [])).
  { unfold built_store. destruct (built e); simpl; [done|].
    unfold build. by apply update_run. }
  rewrite (bind_ok _ _ _ _ _ _ Hbs).
  assert (Hun : ∃ msg, unpack_tr_ratio (Arr tr) = Raise (ValueError msg)).
  { destruct tr as [|r1 [|r2 [|r3 tr]]]; simpl in *;
      [by eexists|by eexists|by destruct Hlen|by eexists]. }
  destruct Hun as [msg ->]. rewrite bind_lift_raise.
  exists (ValueError msg). unfold warning. by destruct use_jax.
Qed.

End JacobianCalls.

(** ** Formatting the inputs *)

Section InputFacts.
Context {F mat : Type} `{Float64 F} `{Backend F} `{Collaborators F mat}.

Lemma elem_of_where_ {A} (P : A → bool) (l : list A) (i : nat) :
  i ∈ where_ P l ↔ ∃ a, l !! i = Some a ∧ P a = true.
Proof.
  unfold where_. rewrite list_elem_of_omap. split.
  - intros ([j a] & Hin & Hp). apply elem_of_lookup_imap in Hin
      as (j' & a' & [= -> ->] & Hl). simpl in Hp.
    destruct (P a') eqn:HP; [|done]. simplify_eq. by exists a'.
  - intros (a & Hl & HP). exists (i, a). split.
    + apply elem_of_lookup_imap. by exists i, a.
    + simpl. by rewrite HP.
Qed.

Lemma foldr_insert_length (arr : list F) (inds : list nat) (v : F) :
  length (foldr (λ i a, <[i := v]> a) arr inds) = length arr.
Proof. induction inds; simpl; [done|]. by rewrite length_insert. Qed.

Lemma foldr_insert_lookup (arr : list F) (inds : list nat) (v : F) (k : nat) :
  foldr (λ i a, <[i := v]> a) arr inds !! k
  = if decide (k ∈ inds) then (λ _, v) <$> arr !! k else arr !! k.
Proof.
  induction inds as [|i inds IH]; cbn [foldr].
  - case_decide as Hin; [by apply elem_of_nil in Hin|done].
  - destruct (decide (i = k)) as [->|Hne].
    + rewrite decide_True by by left.
      destruct (arr !! k) as [x|] eqn:Hk.
      * apply list_lookup_insert_eq. rewrite foldr_insert_length.
        by eapply lookup_lt_Some.
      * apply lookup_ge_None. rewrite length_insert, foldr_insert_length.
        by apply lookup_ge_None.
    + rewrite list_lookup_insert_ne by done. rewrite IH.
      case_decide as Hin.
      * rewrite decide_True by by right. done.
      * rewrite decide_False; [done|]. by intros [->|?]%elem_of_cons.
Qed.

Lemma put_length (arr : list F) inds v :
  put_assigns → length (put arr inds v) = length arr.
Proof. intros ->. apply foldr_insert_length. Qed.

(** What [put] leaves at the index of a mode, when the indices are those
    of the modes that satisfy [P]. *)
Lemma put_where_lookup {A} (P : A → bool) (ms : list A) (arr : list F) v k a :
  put_assigns → length arr = length ms → ms !! k = Some a →
  put arr (where_ P ms) v !! k = if P a then Some v else arr !! k.
Proof.
  intros -> Hlen Hk. rewrite foldr_insert_lookup.
  destruct (P a) eqn:HP.
  - rewrite decide_True by (apply elem_of_where_; by exists a).
    destruct (lookup_lt_is_Some_2 arr k) as [x ->]; [|done].
    rewrite Hlen. by eapply lookup_lt_Some.
  - rewrite decide_False; [done|]. intros (a' & Hk' & HP')%elem_of_where_.
    congruence.
Qed.

Lemma zeros_lookup (n k : nat) : (k < n)%nat → zeros n !! k = Some (of_Q 0 : F).
Proof. intros Hk. unfold zeros. by apply lookup_replicate_2. Qed.

Lemma zeros_length (n : nat) : length (zeros n : list F) = n.
Proof. apply length_replicate. Qed.

End InputFacts.

Section FormatFacts.
Context {F mat : Type} `{Float64 F} `{Backend F} `{Collaborators F mat}.

Lemma format_profiles_loop_spec rows pb ib (p0 i0 : list F) :
  put_assigns → length p0 = num_modes pb → length i0 = num_modes ib →
  Forall (λ row : F * F * F, is_ok (to_int row.1.1) = true) rows →
  ∃ p i,
    format_profiles_loop rows pb ib p0 i0 = Ok (p, i) ∧
    length p = num_modes pb ∧ length i = num_modes ib ∧
    (∀ k md, modes pb !! k = Some md →
       p !! k = match last_where (λ row, int_is row.1.1 (mode_l md)) rows with
                | Some row => Some row.1.2
                | None => p0 !! k
                end) ∧
    (∀ k md, modes ib !! k = Some md →
       i !! k = match last_where (λ row, int_is row.1.1 (mode_l md)) rows with
                | Some row => Some row.2
                | None => i0 !! k
                end).
Proof.
  intros Hput Hp Hi Hrows. revert p0 i0 Hp Hi.
  induction Hrows as [|[[l p] i] rows Hl Hrows IH]; intros p0 i0 Hp Hi.
  - exists p0, i0. by split_and!.
  - simpl in Hl. destruct (to_int l) as [z|err] eqn:Hz; [|done].
    cbn [format_profiles_loop]. rewrite Hz. cbn [rbind].
    destruct (IH (put p0 (where_ (λ md, Z.eqb (mode_l md) z) (modes pb)) p)
                 (put i0 (where_ (λ md, Z.eqb (mode_l md) z) (modes ib)) i))
      as (pf & jf & Hrun & Hlp & Hli & Hpk & Hik).
    { by rewrite put_length. }
    { by rewrite put_length. }
    exists pf, jf. split; [done|]. split; [done|]. split; [done|].
    split; intros k md Hk; cbn [last_where].
    + rewrite (Hpk k md Hk). destruct (last_where _ rows); [done|].
      rewrite (put_where_lookup _ _ _ _ k md Hput Hp Hk).
      unfold int_is. cbn [fst snd]. rewrite Hz, (Z.eqb_sym z). by destruct (_ =? _)%Z.
    + rewrite (Hik k md Hk). destruct (last_where _ rows); [done|].
      rewrite (put_where_lookup _ _ _ _ k md Hput Hi Hk).
      unfold int_is. cbn [fst snd]. rewrite Hz, (Z.eqb_sym z). by destruct (_ =? _)%Z.
Qed.

(** X14.  [format_profiles] returns one pressure and one iota
    coefficient per mode of the bases.  The coefficient of a mode is that
    of the last row of [profiles] whose [l] is the mode's (the later row
    wins over an earlier one), and zero when no row has that [l]; a row
    whose [l] is no mode of the basis is dropped without notice. *)
Theorem format_profiles_last_row_wins (profiles : list (F * F * F))
    (p_basis i_basis : Basis) :
  put_assigns →
  Forall (λ row, is_ok (to_int row.1.1) = true) profiles →
  ∃ p_l i_l,
    format_profiles profiles p_basis i_basis = Ok (p_l, i_l) ∧
    length p_l = num_modes p_basis ∧ length i_l = num_modes i_basis ∧
    (∀ k md, modes p_basis !! k = Some md →
       p_l !! k
       = Some (coefficient (λ row, int_is row.1.1 (mode_l md)) (λ row, row.1.2)
                 profiles)) ∧
    (∀ k md, modes i_basis !! k = Some md →
       i_l !! k
       = Some (coefficient (λ row, int_is row.1.1 (mode_l md)) (λ row, row.2)
                 profiles)).
Proof.
  intros Hput Hrows. unfold format_profiles.
  destruct (format_profiles_loop_spec profiles p_basis i_basis
              (zeros (num_modes p_basis)) (zeros (num_modes i_basis)) Hput
              (zeros_length _) (zeros_length _) Hrows)
    as (p & i & Hrun & Hlp & Hli & Hpk & Hik).
  exists p, i. split; [done|]. split; [done|]. split; [done|].
  unfold coefficient.
  split; intros k md Hk.
  - rewrite (Hpk k md Hk). destruct (last_where _ _); [done|].
    apply zeros_lookup. by eapply lookup_lt_Some.
  - rewrite (Hik k md Hk). destruct (last_where _ _); [done|].
    apply zeros_lookup. by eapply lookup_lt_Some.
Qed.

Lemma format_boundary_loop_spec rows Rb Zb (R0 Z0 : list F) :
  put_assigns → length R0 = num_modes Rb → length Z0 = num_modes Zb →
  Forall (λ row : F * F * F * F,
            is_ok (to_int row.1.1.1) = true ∧ is_ok (to_int row.1.1.2) = true) rows →
  ∃ R Z,
    format_boundary_loop rows Rb Zb R0 Z0 = Ok (R, Z) ∧
    length R = num_modes Rb ∧ length Z = num_modes Zb ∧
    (∀ k md, modes Rb !! k = Some md →
       R !! k = match last_where (row_is (mode_m md) (mode_n md)) rows with
                | Some row => Some row.1.2
                | None => R0 !! k
                end) ∧
    (∀ k md, modes Zb !! k = Some md →
       Z !! k = match last_where (row_is (mode_m md) (mode_n md)) rows with
                | Some row => Some row.2
                | None => Z0 !! k
                end).
Proof.
  intros Hput HR HZ Hrows. revert R0 Z0 HR HZ.
  induction Hrows as [|[[[m n] R1] Z1] rows [Hm Hn] Hrows IH]; intros R0 Z0 HR HZ.
  - exists R0, Z0. by split_and!.
  - simpl in Hm, Hn.
    destruct (to_int m) as [zm|err] eqn:Hzm; [|done].
    destruct (to_int n) as [zn|err] eqn:Hzn; [|done].
    cbn [format_boundary_loop]. rewrite Hzm, Hzn. cbn [rbind].
    destruct (IH (put R0 (where_ (λ md, Z.eqb (mode_m md) zm && Z.eqb (mode_n md) zn)
                            (modes Rb)) R1)
                 (put Z0 (where_ (λ md, Z.eqb (mode_m md) zm && Z.eqb (mode_n md) zn)
                            (modes Zb)) Z1))
      as (Rf & Zf & Hrun & HlR & HlZ & HRk & HZk).
    { by rewrite put_length. }
    { by rewrite put_length. }
    exists Rf, Zf. split; [done|]. split; [done|]. split; [done|].
    split; intros k md Hk; cbn [last_where].
    + rewrite (HRk k md Hk). destruct (last_where _ rows); [done|].
      rewrite (put_where_lookup _ _ _ _ k md Hput HR Hk).
      unfold row_is, int_is. cbn [fst snd]. rewrite Hzm, Hzn.
      rewrite (Z.eqb_sym zm), (Z.eqb_sym zn). by destruct (_ && _).
    + rewrite (HZk k md Hk). destruct (last_where _ rows); [done|].
      rewrite (put_where_lookup _ _ _ _ k md Hput HZ Hk).
      unfold row_is, int_is. cbn [fst snd]. rewrite Hzm, Hzn.
      rewrite (Z.eqb_sym zm), (Z.eqb_sym zn). by destruct (_ && _).
Qed.

(** X15.  [format_boundary] treats every [mode] other than ["real"] as
    spectral.  It then returns one coefficient per mode of the boundary
    bases: that of the last row of [boundary] whose [m] and [n] are the
    mode's, and zero when no row names the mode; a row that names no mode
    of the basis is dropped without notice. *)
Theorem format_boundary_spectral (boundary : list (F * F * F * F))
    (Rb_basis Zb_basis : Basis) (mode : string) :
  put_assigns → mode ≠ "real" →
  Forall (λ row, is_ok (to_int row.1.1.1) = true ∧
                 is_ok (to_int row.1.1.2) = true) boundary →
  ∃ Rb_mn Zb_mn,
    format_boundary boundary Rb_basis Zb_basis mode = Ok (Rb_mn, Zb_mn) ∧
    format_boundary boundary Rb_basis Zb_basis "spectral" = Ok (Rb_mn, Zb_mn) ∧
    length Rb_mn = num_modes Rb_basis ∧ length Zb_mn = num_modes Zb_basis ∧
    (∀ k md, modes Rb_basis !! k = Some md →
       Rb_mn !! k
       = Some (coefficient (row_is (mode_m md) (mode_n md)) (λ row, row.1.2)
                 boundary)) ∧
    (∀ k md, modes Zb_basis !! k = Some md →
       Zb_mn !! k
       = Some (coefficient (row_is (mode_m md) (mode_n md)) (λ row, row.2)
                 boundary)).
Proof.
  intros Hput Hmode Hrows. unfold format_boundary.
  apply String.eqb_neq in Hmode. rewrite Hmode. cbn [String.eqb Ascii.eqb].
  destruct (format_boundary_loop_spec boundary Rb_basis Zb_basis
              (zeros (num_modes Rb_basis)) (zeros (num_modes Zb_basis)) Hput
              (zeros_length _) (zeros_length _) Hrows)
    as (R & Z & Hrun & HlR & HlZ & HRk & HZk).
  exists R, Z. split; [done|]. split; [done|]. split; [done|]. split; [done|].
  unfold coefficient.
  split; intros k md Hk.
  - rewrite (HRk k md Hk). destruct (last_where _ _); [done|].
    apply zeros_lookup. by eapply lookup_lt_Some.
  - rewrite (HZk k md Hk). destruct (last_where _ _); [done|].
    apply zeros_lookup. by eapply lookup_lt_Some.
Qed.

End FormatFacts.

(** ** The initial guess *)

Section GuessFacts.
Context {F mat : Type} `{Float64 F} `{Backend F} `{Collaborators F mat}.

Lemma eqb3_true (a1 a2 b1 b2 c1 c2 : Z) :
  Z.eqb a1 a2 && Z.eqb b1 b2 && Z.eqb c1 c2 = true ↔ a1 = a2 ∧ b1 = b2 ∧ c1 = c2.
Proof. rewrite !andb_true_iff, !Z.eqb_eq. tauto. Qed.

(** One step of the loop, when it returns. *)
Lemma initial_guess_step k md rest xb (b_mn : list F) axis (x0 x : list F) :
  put_assigns → length x0 = num_modes xb →
  initial_guess_loop ((k, md) :: rest) xb b_mn axis x0 = Ok x →
  ∃ x1,
    initial_guess_loop rest xb b_mn axis x1 = Ok x ∧
    length x1 = num_modes xb ∧
    (∀ j xm, modes xb !! j = Some xm → ¬ guess_writes md xm → x1 !! j = x0 !! j) ∧
    (∀ j xm, modes xb !! j = Some xm →
       mode_m xm = mode_m md → mode_n xm = mode_n md →
       (mode_m md ≠ 0 → mode_l xm = Z.abs (mode_m md) → x1 !! j = b_mn !! k) ∧
       (mode_m md = 0 →
          ∃ b_k v, b_mn !! k = Some b_k ∧ axis_or axis (mode_n md) b_k = Ok v ∧
            (mode_l xm = 0 → x1 !! j = Some v) ∧
            (mode_l xm = 2 → x1 !! j = Some (fsub b_k v)))).
Proof.
  intros Hput Hlen. cbn [initial_guess_loop].
  destruct (Z.eqb_spec (mode_m md) 0) as [Hm0|Hm0].
  - unfold getitem. destruct (b_mn !! k) as [b_k|] eqn:Hbk; [|done]. cbn [rbind].
    destruct (axis_or axis (mode_n md) b_k) as [v|err] eqn:Hax; [|done]. cbn [rbind].
    intros Hrun. eexists. split; [exact Hrun|].
    split; [by rewrite !(put_length _ _ _ Hput)|].
    split.
    + intros j xm Hj Hnw.
      rewrite (put_where_lookup _ _ _ _ j xm Hput) by (by rewrite ?(put_length _ _ _ Hput)).
      rewrite (put_where_lookup _ _ _ _ j xm Hput Hlen Hj).
      assert (E2 : Z.eqb (mode_l xm) (Z.abs (mode_m md) + 2)
                   && Z.eqb (mode_m xm) (mode_m md)
                   && Z.eqb (mode_n xm) (mode_n md) = false).
      { apply not_true_is_false. intros (Hl & Hm & Hn)%eqb3_true. destruct Hnw.
        split; [done|]. split; [done|]. right. split; [done|]. rewrite Hl, Hm0. done. }
      assert (E1 : Z.eqb (mode_l xm) (Z.abs (mode_m md))
                   && Z.eqb (mode_m xm) (mode_m md)
                   && Z.eqb (mode_n xm) (mode_n md) = false).
      { apply not_true_is_false. intros (Hl & Hm & Hn)%eqb3_true. destruct Hnw.
        split; [done|]. split; [done|]. by left. }
      by rewrite E1, E2.
    + intros j xm Hj Hm Hn. split; [done|]. intros _.
      exists b_k, v. split; [done|]. split; [done|].
      rewrite (put_where_lookup _ _ _ _ j xm Hput) by (by rewrite ?(put_length _ _ _ Hput)).
      rewrite (put_where_lookup _ _ _ _ j xm Hput Hlen Hj).
      rewrite Hm, Hn, !Z.eqb_refl, !andb_true_r, Hm0. simpl.
      split; intros ->; done.
  - unfold getitem. destruct (b_mn !! k) as [b_k|] eqn:Hbk; [|done]. cbn [rbind].
    intros Hrun. eexists. split; [exact Hrun|].
    split; [by rewrite !(put_length _ _ _ Hput)|].
    split.
    + intros j xm Hj Hnw.
      rewrite (put_where_lookup _ _ _ _ j xm Hput Hlen Hj).
      assert (E1 : Z.eqb (mode_l xm) (Z.abs (mode_m md))
                   && Z.eqb (mode_m xm) (mode_m md)
                   && Z.eqb (mode_n xm) (mode_n md) = false).
      { apply not_true_is_false. intros (Hl & Hm & Hn)%eqb3_true. destruct Hnw.
        split; [done|]. split; [done|]. by left. }
      by rewrite E1.
    + intros j xm Hj Hm Hn. split; [|done]. intros _ Hl.
      rewrite (put_where_lookup _ _ _ _ j xm Hput Hlen Hj).
      by rewrite Hl, Hm, Hn, !Z.eqb_refl.
Qed.

Lemma initial_guess_loop_frame ks xb (b_mn : list F) axis (x0 x : list F) :
  put_assigns → length x0 = num_modes xb →
  initial_guess_loop ks xb b_mn axis x0 = Ok x →
  length x = num_modes xb ∧
  ∀ j xm, modes xb !! j = Some xm →
    (∀ k md, (k, md) ∈ ks → ¬ guess_writes md xm) → x !! j = x0 !! j.
Proof.
  intros Hput. revert x0. induction ks as [|[k md] ks IH]; intros x0 Hlen Hrun.
  - simpl in Hrun. by simplify_eq.
  - destruct (initial_guess_step k md ks xb b_mn axis x0 x Hput Hlen Hrun)
      as (x1 & Hrun1 & Hlen1 & Hframe & _).
    destruct (IH x1 Hlen1 Hrun1) as [Hl Hf]. split; [done|].
    intros j xm Hj Hnw. rewrite (Hf j xm Hj).
    + apply (Hframe j xm Hj). apply (Hnw k md). by left.
    + intros k' md' Hin. apply (Hnw k' md'). by right.
Qed.

Lemma elem_of_imap_pair {A} (l : list A) (k : nat) (a : A) :
  (k, a) ∈ imap (λ k a, (k, a)) l ↔ l !! k = Some a.
Proof.
  rewrite elem_of_lookup_imap. split.
  - by intros (i & y & [= -> ->] & Hl).
  - intros Hl. by exists k, a.
Qed.

(** X16.  The guess has one coefficient per mode of the state basis, and
    it is zero wherever no boundary mode is written: at the modes whose
    [(m, n)] is that of no boundary mode, and at the modes with [l] other
    than [|m|] and, for [m = 0], other than 2. *)
Theorem initial_guess_support (x_basis : Basis) (b_mn : list F) (b_basis : Basis)
    axis (x : list F) :
  put_assigns →
  initial_guess x_basis b_mn b_basis axis = Ok x →
  length x = num_modes x_basis ∧
  ∀ j xm, modes x_basis !! j = Some xm →
    (mode_l xm ≠ Z.abs (mode_m xm) ∧ ¬ (mode_m xm = 0 ∧ mode_l xm = 2)) ∨
    (∀ md, md ∈ modes b_basis → mode_mn md ≠ mode_mn xm) →
    x !! j = Some (of_Q 0).
Proof.
  intros Hput Hrun. unfold initial_guess in Hrun.
  destruct (initial_guess_loop_frame _ _ _ _ _ _ Hput (zeros_length _) Hrun)
    as [Hlen Hframe].
  split; [done|]. intros j xm Hj Hcond.
  rewrite (Hframe j xm Hj).
  { apply zeros_lookup. by eapply lookup_lt_Some. }
  intros k md Hin (Hm & Hn & Hl). apply elem_of_imap_pair in Hin.
  destruct Hcond as [[Hl1 Hl2]|Hmn].
  - destruct Hl as [Hl|[Hm0 Hl]].
    + apply Hl1. by rewrite Hm.
    + apply Hl2. split; [|done]. by rewrite Hm.
  - apply (Hmn md); [by eapply list_elem_of_lookup_2|].
    unfold mode_mn. by rewrite Hm, Hn.
Qed.

Lemma initial_guess_loop_index_error ks xb (b_mn : list F) (x0 : list F) :
  (∃ k md, (k, md) ∈ ks ∧ mode_m md = 0) →
  ∃ err, initial_guess_loop ks xb b_mn [] x0 = Raise err ∧
         exn_class err = "IndexError".
Proof.
  revert x0. induction ks as [|[k md] ks IH]; intros x0 (k0 & md0 & Hin & Hm0).
  - by apply elem_of_nil in Hin.
  - cbn [initial_guess_loop]. unfold getitem.
    destruct (Z.eqb_spec (mode_m md) 0) as [Hm|Hm].
    + destruct (b_mn !! k); cbn [rbind axis_or]; by eexists.
    + destruct (b_mn !! k); cbn [rbind]; [|by eexists].
      apply IH. apply elem_of_cons in Hin as [[= -> ->]|Hin]; [done|].
      by exists k0, md0.
Qed.

(** X17.  With an empty [axis], [initial_guess] raises an IndexError as
    soon as the boundary basis has a mode with [m = 0]: the value on the
    axis is read from the first row of [axis]. *)
Theorem initial_guess_empty_axis (x_basis : Basis) (b_mn : list F)
    (b_basis : Basis) (md : Z * Z * Z) :
  md ∈ modes b_basis → mode_m md = 0 →
  ∃ err, initial_guess x_basis b_mn b_basis [] = Raise err ∧
         exn_class err = "IndexError".
Proof.
  intros Hin Hm. unfold initial_guess. apply initial_guess_loop_index_error.
  apply list_elem_of_lookup_1 in Hin as [k Hk].
  exists k, md. split; [|done]. by apply elem_of_imap_pair.
Qed.

Lemma initial_guess_loop_values ks xb (b_mn : list F) axis (x0 x : list F) :
  put_assigns → length x0 = num_modes xb →
  NoDup ((λ kmd : nat * (Z * Z * Z), mode_mn kmd.2) <$> ks) →
  initial_guess_loop ks xb b_mn axis x0 = Ok x →
  ∀ k md, (k, md) ∈ ks →
  ∀ j xm, modes xb !! j = Some xm → mode_mn xm = mode_mn md →
    (mode_m md ≠ 0 → mode_l xm = Z.abs (mode_m md) → x !! j = b_mn !! k) ∧
    (mode_m md = 0 →
       ∃ b_k v, b_mn !! k = Some b_k ∧ axis_or axis (mode_n md) b_k = Ok v ∧
         (mode_l xm = 0 → x !! j = Some v) ∧
         (mode_l xm = 2 → x !! j = Some (fsub b_k v))).
Proof.
  intros Hput. revert x0.
  induction ks as [|[k0 md0] ks IH]; intros x0 Hlen Hnd Hrun k md Hin j xm Hj Hmn.
  - by apply elem_of_nil in Hin.
  - destruct (initial_guess_step k0 md0 ks xb b_mn axis x0 x Hput Hlen Hrun)
      as (x1 & Hrun1 & Hlen1 & _ & Hval).
    rewrite fmap_cons in Hnd. apply NoDup_cons in Hnd as [Hnin Hnd].
    apply elem_of_cons in Hin as [[= -> ->]|Hin].
    + destruct (initial_guess_loop_frame _ _ _ _ _ _ Hput Hlen1 Hrun1) as [_ Hf].
      assert (Hkeep : x !! j = x1 !! j).
      { apply (Hf j xm Hj). intros k' md' Hin' (Hm' & Hn' & _).
        apply Hnin. apply list_elem_of_fmap. exists (k', md'). split; [|done].
        simpl. rewrite <- Hmn. unfold mode_mn. by rewrite Hm', Hn'. }
      injection Hmn as Hm Hn.
      destruct (Hval j xm Hj Hm Hn) as [Hv1 Hv2]. split.
      * intros. rewrite Hkeep. by apply Hv1.
      * intros Hm0. destruct (Hv2 Hm0) as (b_k & v & ? & ? & H0' & H2').
        exists b_k, v. rewrite Hkeep. done.
    + by apply (IH x1 Hlen1 Hnd Hrun1 k md Hin j xm Hj Hmn).
Qed.

(** X18.  The values of the guess, when no two modes of the boundary
    basis have the same [(m, n)].  For the [k]-th boundary mode [(m, n)]
    with [m ≠ 0] the coefficient of the state mode [(|m|, m, n)] is
    [b_mn[k]].  For [m = 0] the state mode [(0, 0, n)] gets the value on
    the axis [x0] and the state mode [(2, 0, n)] gets [b_mn[k] - x0],
    where [x0] is [axis[0, 1]] when [axis[0, 0] == n] and [b_mn[k]]
    otherwise: only the first row of [axis] is looked at. *)
Theorem initial_guess_values (x_basis : Basis) (b_mn : list F) (b_basis : Basis)
    axis (x : list F) :
  put_assigns →
  NoDup (mode_mn <$> modes b_basis) →
  initial_guess x_basis b_mn b_basis axis = Ok x →
  ∀ k md, modes b_basis !! k = Some md →
  ∀ j xm, modes x_basis !! j = Some xm → mode_mn xm = mode_mn md →
    (mode_m md ≠ 0 → mode_l xm = Z.abs (mode_m md) → x !! j = b_mn !! k) ∧
    (mode_m md = 0 →
       ∃ b_k n0 R0 Z0 rest,
         b_mn !! k = Some b_k ∧ axis = (n0, R0, Z0) :: rest ∧
         let x0 := if feqb n0 (of_Q (inject_Z (mode_n md))) then R0 else b_k in
         (mode_l xm = 0 → x !! j = Some x0) ∧
         (mode_l xm = 2 → x !! j = Some (fsub b_k x0))).
Proof.
  intros Hput Hnd Hrun k md Hk j xm Hj Hmn. unfold initial_guess in Hrun.
  assert (Hnd' : NoDup ((λ kmd : nat * (Z * Z * Z), mode_mn kmd.2)
                          <$> imap (λ k md, (k, md)) (modes b_basis))).
  { replace ((λ kmd : nat * (Z * Z * Z), mode_mn kmd.2)
               <$> imap (λ k md, (k, md)) (modes b_basis))
      with (mode_mn <$> modes b_basis); [done|].
    apply list_eq. intros i. rewrite !list_lookup_fmap, list_lookup_imap.
    by destruct (modes b_basis !! i). }
  destruct (initial_guess_loop_values _ _ _ _ _ _ Hput (zeros_length _) Hnd' Hrun
              k md (proj2 (elem_of_imap_pair _ _ _) Hk) j xm Hj Hmn) as [Hv1 Hv2].
  split; [done|]. intros Hm0.
  destruct (Hv2 Hm0) as (b_k & v & Hbk & Hax & H0' & H2').
  unfold axis_or in Hax.
  destruct axis as [|[[n0 R0] Z0] axis]; [done|]. simplify_eq.
  by exists b_k, n0, R0, Z0, axis.
Qed.

End GuessFacts.

(** ** Construction from a dictionary of inputs *)

Section InitFacts.
Context {F mat : Type} `{Float64 F} `{Backend F} `{Collaborators F mat}.

Lemma required_inputs_missing (d : InputsDict F) :
  missing_key d →
  required_inputs d
  = Raise (ValueError (colored "input dict does not contain proper keys" "red")).
Proof.
  unfold missing_key, required_inputs.
  intros Hm.
  destruct (in_Psi d); [|done]. destruct (in_NFP d); [|done].
  destruct (in_L d); [|done]. destruct (in_M d); [|done].
  destruct (in_N d); [|done]. destruct (in_profiles d); [|done].
  destruct (in_boundary d); [|done].
  destruct Hm as [?|[?|[?|[?|[?|[?|?]]]]]]; discriminate.
Qed.

(** X19.  Without one of the keys [Psi], [NFP], [L], [M], [N],
    [profiles], [boundary], and also with [inputs = None], the
    construction raises a ValueError whose message is
    [colored("input dict does not contain proper keys", "red")], whatever
    the other keys hold: the check of the keys comes before every other
    step, so that an input that would fail later (empty profiles, an
    empty axis) does not change the error. *)
Theorem init_requires_keys (inputs : option (InputsDict F)) :
  (inputs = None ∨ ∃ d, inputs = Some d ∧ missing_key d) →
  _init_from_inputs_ (mat := mat) inputs
  = Raise (ValueError (colored "input dict does not contain proper keys" "red")).
Proof.
  intros [->|(d & -> & Hd)]; [done|].
  unfold _init_from_inputs_. by rewrite required_inputs_missing.
Qed.

Lemma init_run (d : InputsDict F) Psi NFP L M N profiles boundary lmax L_p
    p_l i_l Rb_mn Zb_mn :
  required_inputs d = Ok (Psi, NFP, L, M, N, profiles, boundary) →
  np_max (map (λ row, row.1.1) profiles) = Ok lmax →
  to_int lmax = Ok L_p →
  let sym := default false (in_sym d) in
  let index := default "ansi" (in_index d) in
  let bdry_mode := default "spectral" (in_bdry_mode d) in
  let R_sym := if sym then Some "cos" else None in
  let Z_sym := if sym then Some "sin" else None in
  let bs := {| _R_basis := FourierZernikeBasis L M N NFP R_sym index;
               _Z_basis := FourierZernikeBasis L M N NFP Z_sym index;
               _L_basis := FourierZernikeBasis L M N NFP Z_sym index;
               _Rb_basis := DoubleFourierSeries M N NFP R_sym;
               _Zb_basis := DoubleFourierSeries M N NFP Z_sym;
               _p_basis := PowerSeries L_p; _i_basis := PowerSeries L_p |} in
  format_profiles profiles (_p_basis bs) (_i_basis bs) = Ok (p_l, i_l) →
  format_boundary boundary (_Rb_basis bs) (_Zb_basis bs) bdry_mode = Ok (Rb_mn, Zb_mn) →
  let attrs (c : Coeffs F) :=
    {| cfg_resolution :=
         {| _sym := sym; _NFP := NFP; _L := L; _M := M; _N := N;
            _index := index; _bdry_mode := bdry_mode;
            _R_sym := R_sym; _Z_sym := Z_sym |};
       cfg_bases := bs;
       cfg_coeffs := c;
       cfg_params :=
         {| _Rb_mn := Arr Rb_mn; _Zb_mn := Arr Zb_mn; _p_l := Arr p_l;
            _i_l := Arr i_l; _Psi := Psi;
            _zeta_ratio := default (Scal (of_Q 1)) (in_zeta_ratio d) |};
       cfg_parent := None;
       cfg_children := [] |} in
  _init_from_inputs_ (mat := mat) (Some d)
  = match in_x d with
    | Some x =>
        Ok (attrs (init_coeffs bs (Some x) None None None [] [] []))
    | None =>
        let axis := default (axis_of_boundary boundary) (in_axis d) in
        rbind (match in_R_lmn d with
               | Some R_lmn => Ok R_lmn
               | None => initial_guess (_R_basis bs) Rb_mn (_Rb_basis bs) axis
               end) (λ R_lmn,
        rbind (match in_Z_lmn d with
               | Some Z_lmn => Ok Z_lmn
               | None => initial_guess (_Z_basis bs) Zb_mn (_Zb_basis bs) axis
               end) (λ Z_lmn,
        Ok (attrs (init_coeffs bs None (Some R_lmn) (Some Z_lmn) (in_L_lmn d)
                     [] [] (zeros (num_modes (_L_basis bs)))))))
    end.
Proof.
  intros Hreq Hmax Hint sym index bdry_mode R_sym Z_sym bs Hfp Hfb attrs.
  unfold _init_from_inputs_. rewrite Hreq. cbn [rbind]. cbv beta iota zeta.
  rewrite Hmax. cbn [rbind]. rewrite Hint. cbn [rbind].
  fold sym index bdry_mode. fold R_sym Z_sym.
  subst bs. cbn [_p_basis _i_basis _Rb_basis _Zb_basis] in Hfp, Hfb.
  rewrite Hfp. cbn [rbind]. rewrite Hfb. cbn [rbind].
  destruct (in_x d) as [x|]; reflexivity.
Qed.

Lemma init_from_x_run (d : InputsDict F) x :
  in_x d = Some x →
  _init_from_inputs_ (mat := mat) (Some d)
  = rbind (required_inputs d) (λ req,
      let '(Psi, NFP, L, M, N, profiles, boundary) := req in
      let sym := default false (in_sym d) in
      let index := default "ansi" (in_index d) in
      let bdry_mode := default "spectral" (in_bdry_mode d) in
      let R_sym := if sym then Some "cos" else None in
      let Z_sym := if sym then Some "sin" else None in
      rbind (np_max (map (λ row, row.1.1) profiles)) (λ lmax,
      rbind (to_int lmax) (λ L_p,
      let bs := {| _R_basis := FourierZernikeBasis L M N NFP R_sym index;
                   _Z_basis := FourierZernikeBasis L M N NFP Z_sym index;
                   _L_basis := FourierZernikeBasis L M N NFP Z_sym index;
                   _Rb_basis := DoubleFourierSeries M N NFP R_sym;
                   _Zb_basis := DoubleFourierSeries M N NFP Z_sym;
                   _p_basis := PowerSeries L_p; _i_basis := PowerSeries L_p |} in
      rbind (format_profiles profiles (_p_basis bs) (_i_basis bs)) (λ pi,
      rbind (format_boundary boundary (_Rb_basis bs) (_Zb_basis bs) bdry_mode) (λ RZ,
      Ok {| cfg_resolution :=
              {| _sym := sym; _NFP := NFP; _L := L; _M := M; _N := N;
                 _index := index; _bdry_mode := bdry_mode;
                 _R_sym := R_sym; _Z_sym := Z_sym |};
            cfg_bases := bs;
            cfg_coeffs := init_coeffs bs (Some x) None None None [] [] [];
            cfg_params :=
              {| _Rb_mn := Arr RZ.1; _Zb_mn := Arr RZ.2; _p_l := Arr pi.1;
                 _i_l := Arr pi.2; _Psi := Psi;
                 _zeta_ratio := default (Scal (of_Q 1)) (in_zeta_ratio d) |};
            cfg_parent := None;
            cfg_children := [] |}))))).
Proof.
  intros Hx. unfold _init_from_inputs_.
  destruct (required_inputs d) as [[[[[[[Psi NFP] L] M] N] profiles] boundary]|];
    cbn [rbind]; [|done].
  destruct (np_max _) as [lmax|]; cbn [rbind]; [|done].
  destruct (to_int lmax) as [L_p|]; cbn [rbind]; [|done].
  cbv zeta. cbn [_p_basis _i_basis _Rb_basis _Zb_basis].
  destruct (format_profiles _ _ _) as [[p_l i_l]|]; cbn [rbind]; [|done].
  destruct (format_boundary _ _ _ _) as [[Rb_mn Zb_mn]|]; cbn [rbind]; [|done].
  by rewrite Hx.
Qed.

(** X20.  When the dictionary holds the state vector [x], the blocks
    are read from it and the keys [R_lmn], [Z_lmn], [L_lmn] and [axis]
    are not looked at: the construction returns or raises the same with
    any other values for them.  The state vector of the configuration is
    the one given, and its blocks are the unpacking of it at the mode
    counts of the bases. *)
Theorem init_from_x_ignores_guess (d d' : InputsDict F) (x : list F) :
  same_but_guess d d' → in_x d = Some x →
  _init_from_inputs_ (mat := mat) (Some d) = _init_from_inputs_ (Some d') ∧
  ∀ cfg, _init_from_inputs_ (mat := mat) (Some d) = Ok cfg →
    _x (cfg_coeffs cfg) = x ∧
    x_is_concat (cfg_coeffs cfg) ∧
    blocks_unpacked (cfg_bases cfg) (cfg_coeffs cfg).
Proof.
  intros (E1 & E2 & E3 & E4 & E5 & E6 & E7 & E8 & E9 & E10 & E11 & E12) Hx.
  assert (Hx' : in_x d' = Some x) by by rewrite <- E12.
  rewrite (init_from_x_run d x Hx), (init_from_x_run d' x Hx').
  split.
  - unfold required_inputs. by rewrite E1, E2, E3, E4, E5, E6, E7, E8, E9, E10, E11.
  - intros cfg.
    destruct (required_inputs d) as [[[[[[[Psi NFP] L] M] N] profiles] boundary]|];
      cbn [rbind]; [|done].
    destruct (np_max _) as [lmax|]; cbn [rbind]; [|done].
    destruct (to_int lmax) as [L_p|]; cbn [rbind]; [|done].
    cbv zeta. cbn [_p_basis _i_basis _Rb_basis _Zb_basis].
    destruct (format_profiles _ _ _) as [[p_l i_l]|]; cbn [rbind]; [|done].
    destruct (format_boundary _ _ _ _) as [[Rb_mn Zb_mn]|]; cbn [rbind]; [|done].
    intros [= <-]. cbn [cfg_coeffs cfg_bases]. split; [done|].
    split.
    + unfold x_is_concat, init_coeffs, unpack_state, concatenate. simpl.
      by rewrite unpack_concat.
    + done.
Qed.

Lemma initial_guess_length (x_basis : Basis) (b_mn : list F) (b_basis : Basis)
    axis (x : list F) :
  put_assigns → initial_guess x_basis b_mn b_basis axis = Ok x →
  length x = num_modes x_basis.
Proof.
  intros Hput Hrun. unfold initial_guess in Hrun.
  by destruct (initial_guess_loop_frame _ _ _ _ _ _ Hput (zeros_length _) Hrun).
Qed.

Lemma xlabel_length (b : Bases) :
  length (xlabel (_make_labels b))
  = (num_modes (_R_basis b) + num_modes (_Z_basis b) + num_modes (_L_basis b))%nat.
Proof.
  rewrite xlabel_make. unfold enumerate. by rewrite length_imap, x_label_length.
Qed.

(** X21.  A configuration built from the boundary alone, with none of
    [x], [R_lmn], [Z_lmn], [L_lmn] in the dictionary: each block has one
    coefficient per mode of its basis, the lambda block is zero, the
    state vector is the concatenation of the blocks and unpacks to them,
    and every entry of the state vector has a label. *)
Theorem init_from_boundary_consistent (d : InputsDict F) (cfg : ConfigurationAttrs F) :
  put_assigns →
  in_x d = None → in_R_lmn d = None → in_Z_lmn d = None → in_L_lmn d = None →
  _init_from_inputs_ (mat := mat) (Some d) = Ok cfg →
  let b := cfg_bases cfg in
  let c := cfg_coeffs cfg in
  length (_R_lmn c) = num_modes (_R_basis b) ∧
  length (_Z_lmn c) = num_modes (_Z_basis b) ∧
  _L_lmn c = zeros (num_modes (_L_basis b)) ∧
  x_is_concat c ∧ blocks_unpacked b c ∧
  length (_x c) = length (xlabel (_make_labels b)).
Proof.
  intros Hput Hx HR HZ HL. unfold _init_from_inputs_.
  destruct (required_inputs d) as [[[[[[[Psi NFP] L] M] N] profiles] boundary]|];
    cbn [rbind]; [|done].
  destruct (np_max _) as [lmax|]; cbn [rbind]; [|done].
  destruct (to_int lmax) as [L_p|]; cbn [rbind]; [|done].
  destruct (format_profiles _ _ _) as [[p_l i_l]|]; cbn [rbind]; [|done].
  destruct (format_boundary _ _ _ _) as [[Rb_mn Zb_mn]|]; cbn [rbind]; [|done].
  rewrite Hx, HR, HZ, HL. cbn [default].
  destruct (initial_guess _ Rb_mn _ _) as [R|] eqn:ER; cbn [rbind]; [|done].
  destruct (initial_guess _ Zb_mn _ _) as [Z|] eqn:EZ; cbn [rbind]; [|done].
  intros [= <-]. cbv zeta. cbn [cfg_coeffs cfg_bases _R_lmn _Z_lmn _L_lmn _x
                                       _R_basis _Z_basis _L_basis].
  pose proof (initial_guess_length _ _ _ _ _ Hput ER) as HlR.
  pose proof (initial_guess_length _ _ _ _ _ Hput EZ) as HlZ.
  split; [done|]. split; [done|]. split; [done|]. split; [done|].
  split.
  - by apply concat_sized_unpacked.
  - rewrite xlabel_length. cbn [_R_basis _Z_basis _L_basis].
    unfold concatenate. rewrite !length_app, HlR, HlZ, zeros_length. lia.
Qed.

End InitFacts.

(** ** The construction and the labels on explicit inputs *)

Section ExtraExamples.
Import OneDim OneDimInputs.

Lemma xlabel_names_block_entry_witness :
  (get_xlabel_by_idx (_make_labels bases3) (IdxInt 1) = [Some "R_1,-1,0"] ∧
   concatenate [1%Q; 2%Q; 3%Q] [4%Q; 5%Q] [6%Q] !! 1%nat = Some 2%Q) ∧
  (get_xlabel_by_idx (_make_labels bases3) (IdxInt 4) = [Some "Z_1,-1,0"] ∧
   concatenate [1%Q; 2%Q; 3%Q] [4%Q; 5%Q] [6%Q] !! 4%nat = Some 5%Q).
Proof.
  destruct (xlabel_names_block_entry bases3 [1%Q; 2%Q; 3%Q] [4%Q; 5%Q] [6%Q]
              1%nat (1, -1, 0) eq_refl eq_refl) as (HR & HZ & _).
  split; [exact (HR eq_refl)|exact (HZ eq_refl)].
Defined.

Lemma NoDup_modes_bases3 :
  NoDup (modes (_R_basis bases3)) ∧ NoDup (modes (_Z_basis bases3)) ∧
  NoDup (modes (_L_basis bases3)).
Proof. split_and!; apply (bool_decide_unpack _); vm_compute; exact I. Qed.

Lemma xlabel_idx_round_trip_witness :
  get_idx_by_xlabel (_make_labels bases3) (LSeq ["Z_1,-1,0"]) = [Some 4].
Proof.
  destruct NoDup_modes_bases3 as (HR & HZ & HL).
  refine (xlabel_idx_round_trip bases3 4 "Z_1,-1,0" HR HZ HL _).
  vm_compute. reflexivity.
Defined.

Lemma change_resolution_frame_witness :
  let e' := change_resolution_rec (Some 1) None None (eq0 None true) in
  change_resolution 0%nat (Some 1) None None (store0 None true)
  = (Ok tt, {| objs := [e']; lsts := [[]] |}, []) ∧
  (_L (resolution e'), _M (resolution e'), _N (resolution e')) = (1, 0, 0) ∧
  _Rb_basis (bases e') = basis0 ∧
  modes (_R_basis (bases e')) = [(0, 0, 0); (1, 0, 0)] ∧
  _R_lmn (coeffs e') = [3%Q; 0%Q].
Proof.
  destruct (change_resolution_frame 0%nat (Some 1) None None (store0 None true)
              (eq0 None true) eq_refl)
    as (Hrun & Hres & _ & Hb & _ & _ & _ & _ & Hnew).
  split; [exact Hrun|]. split; [exact Hres|].
  split; [exact (f_equal (λ t, t.1.1.1) Hb)|].
  vm_compute in Hnew. destruct Hnew as (Hbs & HRl & _).
  split; [exact (f_equal (λ t, modes t.1.1) Hbs)|exact HRl].
Defined.

Lemma copy_shallow_shares_children_witness :
  ∃ st' e_new,
    Configuration.copy 1%nat false family = (Ok 2%nat, st', []) ∧
    objs st' !! 2%nat = Some e_new ∧
    _parent e_new = Some 1%nat ∧ _children e_new = 1%nat ∧
    lsts st' !! 1%nat = Some [2%nat].
Proof.
  destruct (copy_shallow_shares_children 1%nat family
              (set_children 1%nat (set_parent (Some 0%nat) (eq0 None true))) []
              eq_refl eq_refl)
    as (st' & e_new & Hrun & Hnew & _ & Hpar & Hch & Hl & _).
  exists st', e_new. rewrite Hch in Hl. by split_and!.
Defined.

Lemma copy_deep_copies_children_witness :
  ∃ st' e_new lc l',
    Configuration.copy 0%nat true family = (Ok 2%nat, st', []) ∧
    objs st' !! 2%nat = Some e_new ∧
    (2 ≤ _children e_new)%nat ∧
    lsts st' !! _children e_new = Some lc ∧
    lc = [l'] ∧ (2 ≤ l')%nat ∧ l' ≠ 2%nat ∧
    lsts st' !! 0%nat = Some [1%nat; 2%nat].
Proof.
  destruct (copy_deep_copies_children 0%nat family
              (set_children 0%nat (eq0 None true)) [1%nat] eq_refl eq_refl)
    as (st' & e_new & lc & Hrun & Hnew & _ & _ & Hfresh & Hlc & Hall & Hl).
  { repeat constructor. }
  apply Forall2_cons_inv_l in Hall as (l' & lc' & (Hge & Hne & _) & Hnil & ->).
  apply Forall2_nil_inv_l in Hnil as ->.
  exists st', e_new, [l'], l'. split_and!; try done. by apply Hne.
Defined.

Lemma perturb_order0_calls_nothing_witness :
  let run := perturb false 0%nat None None None None (Some (Scal 1%Q)) None 0
               (Scal 0.1%Q) 1e-6%Q None 1 true square_store in
  run.2 = [Warn jax_warning] ∧
  Forall (λ ev, is_objective_call ev = false) run.2 ∧
  solve_calls run.2 = [].
Proof.
  refine (perturb_order0_calls_nothing false 0%nat None None None None
            (Some (Scal 1%Q)) None 0 (Scal 0.1%Q) 1e-6%Q None 1 true square_store _).
  lia.
Defined.

Lemma perturb_in_place_witness :
  let run := perturb true 0%nat None None None None (Some (Scal 1%Q)) None 2
               (Scal 0.1%Q) 1e-6%Q None 0 false square_store in
  ∃ e_new,
    run.1.1 = Ok 0%nat ∧
    run.1.2 = put_obj 0%nat e_new square_store ∧
    length (objs run.1.2) = 1%nat ∧ lsts run.1.2 = [[]] ∧
    _Psi (params e_new) = Scal (4 + 1)%Q ∧
    _x (coeffs e_new) = [(1989000 # 600000)%Q; 0%Q; 0%Q] ∧
    (_R_lmn (coeffs e_new), _Z_lmn (coeffs e_new), _L_lmn (coeffs e_new))
    = ([(1989000 # 600000)%Q], [0%Q], [0%Q]).
Proof.
  intros run.
  assert (HPsi : bump (Some (Scal 1%Q)) (_Psi (params square_eq))
                 = Ok (Scal (4 + 1)%Q)) by (vm_compute; reflexivity).
  destruct (perturb_in_place true 0%nat None None None None (Some (Scal 1%Q)) None
              2 (Scal 0.1%Q) 1e-6%Q None 0 square_store square_eq
              (square_residual false) (Arr [1%Q]) (Arr [1%Q]) (Arr [0%Q])
              (Arr [0%Q]) (Scal (4 + 1)%Q) (Scal 1%Q)
              (Some ([0.3%Q], Arr [(900 # 60000)%Q]))
              [(1989000 # 600000)%Q; 0%Q; 0%Q]
              eq_refl eq_refl eq_refl eq_refl eq_refl eq_refl eq_refl eq_refl
              HPsi eq_refl)
    as (e_new & Hr & Hst & Hlen & Hls & _ & _ & Hp & [Hx Hb] & _).
  - vm_compute. reflexivity.
  - eexists _, _. split; [reflexivity|]. split; vm_compute; reflexivity.
  - exists e_new. split_and!; try done. by rewrite Hp.
Defined.

Lemma perturb_rejects_tr_ratio_witness :
  let run := perturb true 0%nat None None None None None None 0 (Arr [0.1%Q])
               1e-6%Q None 1 true square_store in
  ∃ err, run.1.1 = Raise err ∧ exn_class err = "ValueError" ∧
         run.1.2 = square_store ∧ run.2 = [].
Proof.
  refine (perturb_rejects_tr_ratio true 0%nat None None None None None None 0
            [0.1%Q] 1e-6%Q None 1 true square_store square_eq
            (square_residual false) eq_refl eq_refl eq_refl _).
  simpl. lia.
Defined.

Lemma Q_put_assigns : put_assigns (F := Q).
Proof. intros arr inds v. reflexivity. Qed.

Lemma format_profiles_last_row_wins_witness :
  ∃ p_l i_l,
    format_profiles [(0%Q, 5%Q, 6%Q); (2%Q, 3%Q, 4%Q); (0%Q, 1%Q, 2%Q); (7%Q, 8%Q, 9%Q)]
      (PowerSeries 2) (PowerSeries 2) = Ok (p_l, i_l) ∧
    p_l !! 0%nat = Some 1%Q ∧ p_l !! 1%nat = Some 0%Q ∧ i_l !! 2%nat = Some 4%Q.
Proof.
  destruct (format_profiles_last_row_wins
              [(0%Q, 5%Q, 6%Q); (2%Q, 3%Q, 4%Q); (0%Q, 1%Q, 2%Q); (7%Q, 8%Q, 9%Q)]
              (PowerSeries 2) (PowerSeries 2) Q_put_assigns)
    as (p_l & i_l & Hrun & _ & _ & Hp & Hi).
  { by repeat constructor. }
  exists p_l, i_l. split; [exact Hrun|].
  split; [exact (Hp 0%nat (0, 0, 0) eq_refl)|].
  split; [exact (Hp 1%nat (1, 0, 0) eq_refl)|exact (Hi 2%nat (2, 0, 0) eq_refl)].
Defined.

Lemma format_boundary_spectral_witness :
  ∃ Rb_mn Zb_mn,
    format_boundary [(0%Q, 0%Q, 10%Q, 1%Q); (5%Q, 0%Q, 2%Q, 2%Q)]
      (DoubleFourierSeries 1 0 1 None) (DoubleFourierSeries 1 0 1 None) "Spectral"
    = Ok (Rb_mn, Zb_mn) ∧
    Rb_mn !! 1%nat = Some 10%Q ∧ Zb_mn !! 1%nat = Some 1%Q ∧
    Rb_mn !! 0%nat = Some 0%Q ∧ length Rb_mn = 3%nat.
Proof.
  destruct (format_boundary_spectral
              [(0%Q, 0%Q, 10%Q, 1%Q); (5%Q, 0%Q, 2%Q, 2%Q)]
              (DoubleFourierSeries 1 0 1 None) (DoubleFourierSeries 1 0 1 None)
              "Spectral" Q_put_assigns)
    as (Rb_mn & Zb_mn & Hrun & _ & HlR & _ & HR & HZ).
  { discriminate. }
  { by repeat constructor. }
  exists Rb_mn, Zb_mn. split; [exact Hrun|].
  split; [exact (HR 1%nat (0, 0, 0) eq_refl)|].
  split; [exact (HZ 1%nat (0, 0, 0) eq_refl)|].
  split; [exact (HR 0%nat (0, -1, 0) eq_refl)|exact HlR].
Defined.

Lemma initial_guess_support_witness :
  length [9%Q; 0%Q; 1%Q] = 3%nat ∧ [9%Q; 0%Q; 1%Q] !! 1%nat = Some 0%Q.
Proof.
  assert (Hrun : initial_guess (FourierZernikeBasis 2 0 0 1 None "ansi")
                   [10%Q] (DoubleFourierSeries 0 0 1 None) [(0%Q, 9%Q, 0%Q)]
                 = Ok [9%Q; 0%Q; 1%Q]) by (vm_compute; reflexivity).
  destruct (initial_guess_support (FourierZernikeBasis 2 0 0 1 None "ansi")
              [10%Q] (DoubleFourierSeries 0 0 1 None) [(0%Q, 9%Q, 0%Q)]
              [9%Q; 0%Q; 1%Q] Q_put_assigns Hrun) as [Hlen Hz].
  split; [exact Hlen|].
  apply (Hz 1%nat (1, 0, 0) eq_refl). left. split; [discriminate|].
  intros [_ Hl]. discriminate Hl.
Defined.

Lemma initial_guess_empty_axis_witness :
  ∃ err, initial_guess (FourierZernikeBasis 2 0 0 1 None "ansi") [10%Q]
           (DoubleFourierSeries 0 0 1 None) [] = Raise err ∧
         exn_class err = "IndexError".
Proof.
  refine (initial_guess_empty_axis (FourierZernikeBasis 2 0 0 1 None "ansi")
            [10%Q] (DoubleFourierSeries 0 0 1 None) (0, 0, 0) _ eq_refl).
  by left.
Defined.

Lemma initial_guess_values_witness :
  [9%Q; 0%Q; 1%Q] !! 0%nat = Some 9%Q ∧
  [9%Q; 0%Q; 1%Q] !! 2%nat = Some (10 - 9)%Q.
Proof.
  assert (Hnd : NoDup (mode_mn <$> modes (DoubleFourierSeries 0 0 1 None)))
    by (apply (bool_decide_unpack _); vm_compute; exact I).
  assert (Hrun : initial_guess (FourierZernikeBasis 2 0 0 1 None "ansi")
                   [10%Q] (DoubleFourierSeries 0 0 1 None) [(0%Q, 9%Q, 0%Q)]
                 = Ok [9%Q; 0%Q; 1%Q]) by (vm_compute; reflexivity).
  pose proof (initial_guess_values (FourierZernikeBasis 2 0 0 1 None "ansi")
                [10%Q] (DoubleFourierSeries 0 0 1 None) [(0%Q, 9%Q, 0%Q)]
                [9%Q; 0%Q; 1%Q] Q_put_assigns Hnd Hrun 0%nat (0, 0, 0) eq_refl)
    as Hv.
  destruct (Hv 0%nat (0, 0, 0) eq_refl eq_refl) as [_ H0].
  destruct (Hv 2%nat (2, 0, 0) eq_refl eq_refl) as [_ H2].
  destruct (H0 eq_refl) as (b0 & n0 & R0 & Z0 & rest0 & Hb0 & Hax0 & Hx0 & _).
  destruct (H2 eq_refl) as (b2 & n2 & R2 & Z2 & rest2 & Hb2 & Hax2 & _ & Hx2).
  injection Hb0 as <-. injection Hax0 as <- <- <- <-.
  injection Hb2 as <-. injection Hax2 as <- <- <- <-.
  split; [exact (Hx0 eq_refl)|exact (Hx2 eq_refl)].
Defined.

Lemma init_requires_keys_witness :
  let no_N : InputsDict Q :=
    {| in_Psi := Some (Scal 1%Q); in_NFP := Some 1; in_L := Some 2;
       in_M := Some 0; in_N := None;
       in_profiles := Some []; in_boundary := Some [(0%Q, 0%Q, 10%Q, 1%Q)];
       in_sym := None; in_index := None; in_bdry_mode := None;
       in_zeta_ratio := None; in_axis := Some []; in_x := None;
       in_R_lmn := None; in_Z_lmn := None; in_L_lmn := None |} in
  _init_from_inputs_ (mat := Q) (Some no_N)
  = Raise (ValueError
             (ansi_colored "input dict does not contain proper keys" "red")) ∧
  _init_from_inputs_ (mat := Q) (None : option (InputsDict Q))
  = Raise (ValueError
             (ansi_colored "input dict does not contain proper keys" "red")).
Proof.
  intros no_N.
  assert (Hmiss : missing_key no_N).
  { unfold missing_key. do 4 right. left. reflexivity. }
  split.
  - exact (init_requires_keys (mat := Q) (Some no_N)
             (or_intror (ex_intro _ no_N (conj eq_refl Hmiss)))).
  - exact (init_requires_keys (mat := Q) None (or_introl eq_refl)).
Defined.

Lemma init_from_x_ignores_guess_witness :
  _init_from_inputs_ (mat := Q) (Some (inputs_x [1%Q; 2%Q; 3%Q; 4%Q] None))
  = _init_from_inputs_ (Some (inputs_x [1%Q; 2%Q; 3%Q; 4%Q] (Some [7%Q]))).
Proof.
  refine (proj1 (init_from_x_ignores_guess
                   (inputs_x [1%Q; 2%Q; 3%Q; 4%Q] None)
                   (inputs_x [1%Q; 2%Q; 3%Q; 4%Q] (Some [7%Q]))
                   [1%Q; 2%Q; 3%Q; 4%Q] _ eq_refl)).
  by repeat split.
Defined.

Lemma init_from_boundary_consistent_witness :
  ∃ cfg, _init_from_inputs_ (mat := Q) (Some inputs0) = Ok cfg ∧
    _R_lmn (cfg_coeffs cfg) = [10%Q; 0%Q; 0%Q] ∧
    x_is_concat (cfg_coeffs cfg) ∧
    blocks_unpacked (cfg_bases cfg) (cfg_coeffs cfg) ∧
    length (_x (cfg_coeffs cfg)) = length (xlabel (_make_labels (cfg_bases cfg))).
Proof.
  assert (Hrun : ∃ cfg, _init_from_inputs_ (mat := Q) (Some inputs0) = Ok cfg ∧
                        _R_lmn (cfg_coeffs cfg) = [10%Q; 0%Q; 0%Q]).
  { eexists. split; vm_compute; reflexivity. }
  destruct Hrun as (cfg & Hrun & HR). exists cfg.
  destruct (init_from_boundary_consistent inputs0 cfg Q_put_assigns eq_refl
              eq_refl eq_refl eq_refl Hrun) as (_ & _ & _ & Hx & Hb & Hl).
  by split_and!.
Defined.

End ExtraExamples.

(** ** The first-order step on the one-dimensional instance *)

Section FirstOrderExamples.
Import OneDim.

Lemma perturb_zero_deltas_first_order_witness :
  let run := perturb true 0%nat None None None None (Some (Scal 0%Q)) None 1
               (Scal 0.1%Q) 1e-6%Q None 1 true square_store in
  let c := solve_call 6%Q [5%Q] (Scal 0.3%Q) in
  solve_calls run.2 = [c] ∧
  step_of c = Ok [0.3%Q] ∧
  ∃ e_new,
    run.1.1 = Ok 1%nat ∧ objs run.1.2 !! 1%nat = Some e_new ∧
    _x (coeffs e_new) = [3.3%Q; 0%Q; 0%Q] ∧
    params e_new = params square_eq.
Proof.
  intros run c.
  assert (Hadd : iadd (compute (square_residual false) ([3%Q], params square_eq))
                   (jvp (square_residual false) [] [] ([3%Q], params square_eq))
                 = Ok (compute (square_residual false) ([3%Q], params square_eq)))
    by (vm_compute; reflexivity).
  assert (Hs : (svd (default (jac_x (square_residual false)
                                ([3%Q], params square_eq)) None)).1.2 ≠ [])
    by (intros Hn; vm_compute in Hn; discriminate Hn).
  assert (Hi : ignored (Some (Scal 0%Q)))
    by (right; eexists; split; reflexivity).
  destruct (perturb_zero_deltas_first_order true 0%nat None None None None
              (Some (Scal 0%Q)) None (Scal 0.1%Q) 1e-6%Q None 1 true square_store
              square_eq (square_residual false) [] eq_refl eq_refl eq_refl eq_refl
              (or_introl eq_refl) (or_introl eq_refl) (or_introl eq_refl)
              (or_introl eq_refl)
              Hi
              (or_introl eq_refl) eq_refl Hs Hadd)
    as (Hc & _ & Hd).
  assert (Hstep : trust_region_step_exact
                    (solve_call (default (jac_x (square_residual false)
                                            ([3%Q], params square_eq)) None)
                       (compute (square_residual false) ([3%Q], params square_eq))
                       (vscale (Scal 0.1%Q) (norm [3%Q])))
                  = Ok ([0.3%Q], true, (192 # 3)%Q))
    by (vm_compute; reflexivity).
  change (project (BC_constraint (square_residual false)) (_x (coeffs square_eq)))
    with [3%Q] in Hd.
  rewrite Hstep in Hd.
  destruct (Hd [(0.3 + 0)%Q] [(3 + (0.3 + 0))%Q] eq_refl eq_refl)
    as (e_new & Hr & Hnew & Hx & Hp).
  split; [exact Hc|]. split; [vm_compute; reflexivity|].
  exists e_new. split_and!; try done.
Defined.

End FirstOrderExamples.
